(** * WebMCFont: the glyph-layout and atlas-preprocessing engine of MCFont.js

    A shallow embedding of [MCFontRenderer] (src/MCFont.js) and the proofs of
    its layout and metrics properties.

    Conventions of the embedding.
    - A JavaScript string is the list of its UTF-16 code units ([list Z]);
      [codePointAt] and the string iterator are written out on that list.
    - JavaScript numbers that carry fractions (scale factors, vertical
      centers, UV coordinates) are exact rationals [Q]; [Math.round] is
      [Qfloor (x + 1/2)].  Binary floating-point rounding error is outside
      the model.  Pixel positions, which the source always passes through
      [Math.round], are integers [Z].  Overflow is outside this layout as
      well: the pen arithmetic is embedded a second time over [jsnum],
      numbers with infinities and NaN, where the order of the pen is
      settled.
    - Typed arrays are lists read with stdpp's lookup: a read out of range
      is [None], JavaScript's [undefined].  [Uint16Array] cells are [N],
      bytes are [Z].
    - [this.glyphs] (a [Map] keyed by page id) is a [gmap string pack];
      the [Set] of needed pages is a [gset string]. *)

From Stdlib Require Import ZArith QArith Qround Qminmax Lia Ascii String.
From stdpp Require Import base list strings gmap.

Local Open Scope Z_scope.

(** ** JavaScript numerics *)

(** [Math.round(x)]: the nearest integer, halves rounded up. *)
Definition Math_round (x : Q) : Z := Qfloor (x + (1 # 2)).

(** [x > 0] on numbers. *)
Definition Qpositive (x : Q) : bool := negb (Qle_bool x 0).

(** ** JavaScript strings as UTF-16 code units *)

Definition isHighSurrogate (u : Z) : bool := (0xD800 <=? u) && (u <=? 0xDBFF).
Definition isLowSurrogate (u : Z) : bool := (0xDC00 <=? u) && (u <=? 0xDFFF).

Definition surrogatePair (u v : Z) : Z :=
  (u - 0xD800) * 0x400 + (v - 0xDC00) + 0x10000.

(** [text.codePointAt(i)]; [None] is [undefined] (index out of range). *)
Definition codePointAt (text : list Z) (i : nat) : option Z :=
  match text !! i with
  | None => None
  | Some u =>
      if isHighSurrogate u then
        match text !! S i with
        | Some v => if isLowSurrogate v then Some (surrogatePair u v) else Some u
        | None => Some u
        end
      else Some u
  end.

(** The string iterator behind [[...text]] and [for (const ch of text)]:
    the code point [ch.codePointAt(0)] of each iterated character. *)
Fixpoint codePoints (text : list Z) : list Z :=
  match text with
  | [] => []
  | u :: rest =>
      match rest with
      | v :: rest' =>
          if isHighSurrogate u && isLowSurrogate v
          then surrogatePair u v :: codePoints rest'
          else u :: codePoints rest
      | [] => [u]
      end
  end.

(** ** Helpers of [draw] (MCFont.js 140-145) *)

Definition grid : Z := 16.

Definition isAsciiCode (cp : Z) : bool := cp <=? 0x7F.

Definition hexDigit (d : Z) : ascii :=
  nth (Z.to_nat d)
      ["0"; "1"; "2"; "3"; "4"; "5"; "6"; "7";
       "8"; "9"; "A"; "B"; "C"; "D"; "E"; "F"]%char "0"%char.

(** [((cp >>> 8) & 0xFF).toString(16).padStart(2, '0').toUpperCase()]:
    the two upper-case hexadecimal digits of bits 8..15 of [cp]. *)
Definition codeHi (cp : Z) : string :=
  let b := Z.land (Z.shiftr cp 8) 0xFF in
  String (hexDigit (b / 16)) (String (hexDigit (b mod 16)) EmptyString).

Definition codeLo (cp : Z) : Z := Z.land cp 0xFF.

(** ** Arrays and counted loops *)

(** [a[i]] for a signed index: [None] is [undefined]. *)
Definition jsIndex {A} (a : list A) (i : Z) : option A :=
  if i <? 0 then None else a !! Z.to_nat i.

(** [a[i] = v] on a typed array: a store out of range is ignored. *)
Definition jsStore {A} (a : list A) (i : Z) (v : A) : list A :=
  if i <? 0 then a else <[Z.to_nat i := v]> a.

(** [a[i] > 0] on a byte array; [undefined > 0] is false. *)
Definition byteOpaque (a : list Z) (i : Z) : bool :=
  match jsIndex a i with
  | Some v => 0 <? v
  | None => false
  end.

(** The values [a, a+1, ..., a+n-1] a counting loop runs through. *)
Definition zseq (a : Z) (n : nat) : list Z :=
  map (fun k => a + Z.of_nat k) (seq 0 n).

(** [for (v = a; v <= b; v++)]. *)
Definition upto (a b : Z) : list Z := zseq a (Z.to_nat (b - a + 1)).

(** [for (v = b; v >= a; v--)]. *)
Definition downto (b a : Z) : list Z := rev (upto a b).

(** Value of a scanning variable after a loop that breaks at the first hit:
    the hit, or the value one step past the range. *)
Definition firstHit (p : Z -> bool) (range : list Z) (past : Z) : Z :=
  match find p range with
  | Some v => v
  | None => past
  end.

(** [Uint16Array] store conversion. *)
Definition toUint16 (v : Z) : N := Z.to_N (v mod 65536).

(** ** Opacity maps and atlas metrics (MCFont.js 649-734) *)

(** Result of [_scanAlpha]: [{alpha, width, height}], row-major. *)
Record scan := { alpha : list Z; width : Z; height : Z }.

(** [scan.alpha[y * scan.width + x] > 0]. *)
Definition opaqueAt (sc : scan) (x y : Z) : bool :=
  byteOpaque (alpha sc) (y * width sc + x).

(** [colHasOpaque(x, y0, y1)] of [_buildAdvance]. *)
Definition colHasOpaque (sc : scan) (x y0 y1 : Z) : bool :=
  existsb (fun y => opaqueAt sc x y) (upto y0 y1).

(** One iteration of the tile loop of [_buildAdvance]: the value assigned
    to [adv[idx]] (before the [Uint16Array] conversion). *)
Definition tileAdvance (sc : scan) (tileW tileH idx : Z) : Z :=
  let cx := idx mod grid in
  let cy := idx / grid in
  let x0 := cx * tileW in
  let x1 := x0 + tileW - 1 in
  let y0 := cy * tileH in
  let y1 := y0 + tileH - 1 in
  let left := firstHit (fun x => colHasOpaque sc x y0 y1) (upto x0 x1) (x1 + 1) in
  let right := firstHit (fun x => colHasOpaque sc x y0 y1) (downto x1 x0) (x0 - 1) in
  if right <? left then tileW
  else
    let visible := right - left + 1 in
    visible + 1.

Definition _buildAdvance (sc : scan) (tileW tileH : Z) : list N :=
  fold_left
    (fun adv idx => jsStore adv idx (toUint16 (tileAdvance sc tileW tileH idx)))
    (upto 0 255) (replicate 256 0%N).

(** [{centerRow, tileH}]. *)
Record vmetrics := { centerRow : Q; tileH : Z }.

(** Row scan of [_buildVerticalMetrics]: some pixel of row [y] in columns
    [x0..x1] is opaque. *)
Definition rowHasOpaque (sc : scan) (y x0 x1 : Z) : bool :=
  existsb (fun x => opaqueAt sc x y) (upto x0 x1).

(** The [outerTop] loop: [top] stays [-1] when nothing is found. *)
Definition tileTop (sc : scan) (x0 x1 y0 y1 : Z) : Z :=
  firstHit (fun y => rowHasOpaque sc y x0 x1) (upto y0 y1) (-1).

(** The [outerBottom] loop. *)
Definition tileBottom (sc : scan) (x0 x1 y0 y1 : Z) : Z :=
  firstHit (fun y => rowHasOpaque sc y x0 x1) (downto y1 y0) (-1).

(** One iteration of the tile loop of [_buildVerticalMetrics] on the
    accumulators [(sumCenter, count)]. *)
Definition vmetStep (sc : scan) (tileW tileH : Z) (acc : Q * Z) (idx : Z) : Q * Z :=
  let '(sumCenter, count) := acc in
  let cx := idx mod grid in
  let cy := idx / grid in
  let x0 := cx * tileW in
  let x1 := x0 + tileW - 1 in
  let y0 := cy * tileH in
  let y1 := y0 + tileH - 1 in
  let top := tileTop sc x0 x1 y0 y1 in
  let bottom := tileBottom sc x0 x1 y0 y1 in
  if (0 <=? top) && (0 <=? bottom)
  then ((sumCenter + (inject_Z (top + bottom) / 2 - inject_Z y0))%Q, count + 1)
  else (sumCenter, count).

Definition _buildVerticalMetrics (sc : scan) (tileW tileH : Z) : vmetrics :=
  let '(sumCenter, count) :=
    fold_left (vmetStep sc tileW tileH) (upto 0 255) (0%Q, 0) in
  {| centerRow := if count =? 0 then (inject_Z tileH / 2)%Q
                  else (sumCenter / inject_Z count)%Q;
     tileH := tileH |}.

(** ** The 2D canvas and [ImageData] (browser interface used by the tweaks)

    The bitmap of a canvas is addressed by pixel and channel
    (0..3 = R, G, B, A).  [ImageData.data] is the flat RGBA byte array the
    source indexes with [(y * tileW + x) * 4 + channel].  Reads outside the
    bitmap give transparent black and writes outside are dropped, as the
    canvas API specifies; the premultiplied-alpha round trip of real
    browsers is not modelled. *)
Record canvas := {
  cwidth : Z;
  cheight : Z;
  cbyte : Z -> Z -> Z -> Z
}.

Definition inCanvas (c : canvas) (x y : Z) : bool :=
  (0 <=? x) && (x <? cwidth c) && (0 <=? y) && (y <? cheight c).

Definition canvasByte (c : canvas) (x y ch : Z) : Z :=
  if inCanvas c x y then cbyte c x y ch else 0.

(** [ctx.getImageData(sx, sy, sw, sh).data]. *)
Definition getImageData (c : canvas) (sx sy sw sh : Z) : list Z :=
  map (fun i =>
         let p := i / 4 in
         canvasByte c (sx + p mod sw) (sy + p / sw) (i mod 4))
      (upto 0 (sw * sh * 4 - 1)).

(** [ctx.createImageData(sw, sh).data]: transparent black. *)
Definition createImageData (sw sh : Z) : list Z :=
  replicate (Z.to_nat (sw * sh * 4)) 0.

(** [ctx.putImageData(img, dx, dy)] for an image of [sw] x [sh] pixels. *)
Definition putImageData (c : canvas) (data : list Z) (sw sh dx dy : Z) : canvas :=
  {| cwidth := cwidth c;
     cheight := cheight c;
     cbyte := fun x y ch =>
       if (dx <=? x) && (x <? dx + sw) && (dy <=? y) && (y <? dy + sh)
       then default 0 (jsIndex data (((y - dy) * sw + (x - dx)) * 4 + ch))
       else cbyte c x y ch |}.

(** ** Left-margin normalization of glyph_00 (MCFont.js 532-578) *)

(** [leftOpaqueX(data)]: the first column holding an opaque pixel, or -1. *)
Definition leftOpaqueX (data : list Z) : Z :=
  let tileW := 16 in
  let tileH := 16 in
  firstHit
    (fun x => existsb (fun y => byteOpaque data ((y * tileW + x) * 4 + 3))
                      (upto 0 (tileH - 1)))
    (upto 0 (tileW - 1)) (-1).

(** The four channel assignments [dst[di + k] = src[si + k]]; a missing
    source byte converts to 0 in the clamped array. *)
Definition copyPixel (src : list Z) (si : Z) (dst : list Z) (di : Z) : list Z :=
  let d0 := jsStore dst di (default 0 (jsIndex src si)) in
  let d1 := jsStore d0 (di + 1) (default 0 (jsIndex src (si + 1))) in
  let d2 := jsStore d1 (di + 2) (default 0 (jsIndex src (si + 2))) in
  jsStore d2 (di + 3) (default 0 (jsIndex src (si + 3))).

(** Body of the inner [x] loop of the shift. *)
Definition shiftPixel (src : list Z) (shift y : Z) (dst : list Z) (x : Z) : list Z :=
  let tileW := 16 in
  let si := (y * tileW + x) * 4 in
  let nx := x - shift in
  if nx <? 0 then dst
  else
    let di := (y * tileW + nx) * 4 in
    copyPixel src si dst di.

(** The nested [y]/[x] loops filling [out.data]. *)
Definition shiftTile (src : list Z) (shift : Z) (dst : list Z) : list Z :=
  let tileW := 16 in
  let tileH := 16 in
  fold_left
    (fun dst y => fold_left (shiftPixel src shift y) (upto 0 (tileW - 1)) dst)
    (upto 0 (tileH - 1)) dst.

(** Body of the [code] loop. *)
Definition normalizeTile (c : canvas) (code : Z) : canvas :=
  let tileW := 16 in
  let tileH := 16 in
  let cx := code mod grid in
  let cy := code / grid in
  let x0 := cx * tileW in
  let y0 := cy * tileH in
  let src := getImageData c x0 y0 tileW tileH in
  let left := leftOpaqueX src in
  if left <=? 1 then c
  else
    let shift := left - 1 in
    let out := createImageData tileW tileH in
    let dst := shiftTile src shift out in
    putImageData c dst tileW tileH x0 y0.

Definition _normalizeGlyph00LeftMargins (c : canvas) : canvas :=
  let start := 32 in
  let end_ := 126 in
  fold_left normalizeTile (upto start end_) c.

(** The data of tile [code] of a 16-pixel atlas, as the loop reads it. *)
Definition glyphTile (c : canvas) (code : Z) : list Z :=
  getImageData c ((code mod grid) * 16) ((code / grid) * 16) 16 16.

(** ** Atlases, quads and options (MCFont.js 42-49, 116-133) *)

(** An atlas pack [{tex, w, h, scan, adv, vmet}]; [tex] is the texture
    handle.  The [scan] field is not read by [draw] and is left out. *)
Record pack := {
  tex : N;
  w : Z;
  h : Z;
  adv : list N;
  vmet : vmetrics
}.

(** A quote-alternate pack [{tex, w, h}] built by [buildAlt]. *)
Record quotePack := { qtex : N; qw : Z; qh : Z }.

(** The [pack] field of a span: an atlas or a quote alternate. *)
Inductive quadPack :=
| FromAtlas (p : pack)
| FromQuote (q : quotePack).

(** A span pushed by [pushQuad]. *)
Record quad := {
  q_pack : quadPack;
  q_x : Z; q_y : Z; q_w : Z; q_h : Z;
  q_u0 : Q; q_v0 : Q; q_u1 : Q; q_v1 : Q
}.

(** The layout options of [draw]; [color], [align] and [shadow] only
    steer the GL pass and are left out. *)
Record opts := {
  scale : Q;
  ds : Q;
  spaceMul : Q;
  spacingMul : Q;
  mode : string;
  baseline : string;
  lockLineH : bool;
  glyphTrackPx : Q;
  asciiAfterGlyphPadPx : Q
}.

Definition defaultOpts : opts :=
  {| scale := 2; ds := 3 # 2; spaceMul := 1 # 2; spacingMul := 1;
     mode := "auto"; baseline := "ascii"; lockLineH := true;
     glyphTrackPx := 2; asciiAfterGlyphPadPx := 5 # 2 |}.

(** The renderer fields [draw] reads: [this.ascii] ([None] is [null]),
    [this.glyphs] and [this.quoteAlt]. *)
Record renderer := {
  ascii : option pack;
  glyphs : gmap string pack;
  quoteAlt : gmap Z quotePack
}.

Inductive kind := KAscii | KGlyph.

(** The variables the emission loop mutates. *)
Record penState := {
  spans : list quad;
  penX : Z;
  prevKind : option kind;
  dqCount : Z;
  sqCount : Z
}.

(** ** Mode resolution and page discovery (MCFont.js 149-176) *)

(** [defaultOnly]: [Some true] only-ascii, [Some false] only-glyph,
    [None] ([null]) mixed. *)
Definition resolveMode (mode : string) (text : list Z) : option bool :=
  if String.eqb mode "default" then Some true
  else if String.eqb mode "glyph" then Some false
  else if String.eqb mode "mixed" then None
  else Some (forallb isAsciiCode (codePoints text)).

(** Truthiness of [defaultOnly]. *)
Definition truthy (defaultOnly : option bool) : bool :=
  match defaultOnly with
  | Some b => b
  | None => false
  end.

Definition forcedGlyph (mode : string) (defaultOnly : option bool) : bool :=
  match defaultOnly with
  | Some false => true
  | _ => String.eqb mode "glyph"
  end.

(** The set [need] handed to [_ensureGlyphPacks]. *)
Definition neededPages (mode : string) (text : list Z) : gset string :=
  let defaultOnly := resolveMode mode text in
  let need0 : gset string := if forcedGlyph mode defaultOnly then {["00"%string]} else ∅ in
  if forcedGlyph mode defaultOnly then
    fold_left (fun need cp => need ∪ {[codeHi cp]}) (codePoints text) need0
  else
    match defaultOnly with
    | None =>
        fold_left
          (fun need cp => if negb (isAsciiCode cp) then need ∪ {[codeHi cp]} else need)
          (codePoints text) need0
    | Some _ => need0
    end.

(** [_ensureGlyphPacks(set)]: every page of the set that is not loaded yet
    is loaded and installed.  [load hi] stands for
    [_loadAtlas(basePath/glyph_hi.png, 16, 16, false)]; [None] is a rejected
    load, which rejects the whole call ([Promise.all]).  The jobs are
    created before any of them completes, so each page is tested against
    the map the call started with. *)
Definition _ensureGlyphPacks (load : string -> option pack)
    (glyphs : gmap string pack) (need : gset string) : option (gmap string pack) :=
  foldr
    (fun hi acc =>
       match acc with
       | None => None
       | Some g =>
           match glyphs !! hi with
           | Some _ => Some g
           | None =>
               match load hi with
               | Some p => Some (<[hi := p]> g)
               | None => None
               end
           end
       end)
    (Some glyphs) (elements need).

(** ** The emission loop of [draw] (MCFont.js 178-337) *)

Section Emission.
Variable text : list Z.
Variable o : opts.
Variable asciiPack : pack.
Variable glyphMap : gmap string pack.
Variable quotes : gmap Z quotePack.

(** [dp(n) = Math.round(n * scale)]. *)
Definition dp (n : Q) : Z := Math_round (n * scale o).

Definition defaultOnly : option bool := resolveMode (mode o) text.

Definition glyph00 : option pack := glyphMap !! "00"%string.

Definition hasGlyph : bool :=
  String.eqb (mode o) "glyph"
  || (String.eqb (mode o) "mixed"
      && existsb (fun cp => negb (isAsciiCode cp)) (codePoints text))
  || (String.eqb (mode o) "auto" && negb (truthy defaultOnly)).

Definition lineH : Z :=
  if lockLineH o then dp 16
  else if truthy defaultOnly then dp (Qmax (8 * ds o) 16) else dp 16.

(** The center used when the reference is the glyph atlas. *)
Definition glyphCenter : Q :=
  match glyph00 with
  | Some g => centerRow (vmet g)
  | None => centerRow (vmet asciiPack) * 2
  end.

Definition refCenter : Q :=
  if String.eqb (baseline o) "ascii" then
    centerRow (vmet asciiPack) * (if hasGlyph then 2 else ds o)
  else if String.eqb (baseline o) "glyph" then glyphCenter
  else if hasGlyph then glyphCenter
  else centerRow (vmet asciiPack) * ds o.

(** [table[i] ?? dflt] on an advance table. *)
Definition advOr (table : list N) (i : Z) (dflt : Z) : Z :=
  match jsIndex table i with
  | Some a => Z.of_N a
  | None => dflt
  end.

Definition pushQuad (sp : list quad) (pk : quadPack) (x y qw qh : Z)
    (u0 v0 u1 v1 : Q) : list quad :=
  sp ++ [ {| q_pack := pk; q_x := x; q_y := y; q_w := qw; q_h := qh;
                  q_u0 := u0; q_v0 := v0; q_u1 := u1; q_v1 := v1 |} ].

(** The quote branch of [pushAscii] for one counter: the pre-incremented
    counter, and the replacement pack when the count is odd and the
    alternate tile exists. *)
Definition quoteSwap (count code : Z) : Z * option quotePack :=
  let count' := count + 1 in
  (count', if count' mod 2 =? 1 then quotes !! code else None).

Definition pushAscii (code : Z) (s : penState) : penState :=
  let penX1 :=
    if match defaultOnly with None => true | Some _ => false end
       && match prevKind s with Some KGlyph => true | _ => false end
       && Qpositive (asciiAfterGlyphPadPx o)
    then penX s + Math_round (scale o * asciiAfterGlyphPadPx o)
    else penX s in
  let pk := asciiPack in
  let cx := code mod grid in
  let cy := code / grid in
  let u0 := (inject_Z (cx * 8) / inject_Z (w pk))%Q in
  let v0 := (inject_Z (cy * 8) / inject_Z (h pk))%Q in
  let u1 := (inject_Z ((cx + 1) * 8) / inject_Z (w pk))%Q in
  let v1 := (inject_Z ((cy + 1) * 8) / inject_Z (h pk))%Q in
  let '(dq, sq, alt) :=
    match defaultOnly with
    | Some false => (dqCount s, sqCount s, None)
    | _ =>
        if code =? 34 then
          let '(dq, alt) := quoteSwap (dqCount s) 34 in (dq, sqCount s, alt)
        else if code =? 39 then
          let '(sq, alt) := quoteSwap (sqCount s) 39 in (dqCount s, sq, alt)
        else (dqCount s, sqCount s, None)
    end in
  let myCenter := (centerRow (vmet asciiPack) * ds o)%Q in
  let yShift := Math_round (inject_Z (dp (refCenter - myCenter))) in
  let spans' :=
    match alt with
    | Some q => pushQuad (spans s) (FromQuote q) penX1 yShift (dp (8 * ds o)) (dp (8 * ds o)) 0 0 1 1
    | None => pushQuad (spans s) (FromAtlas pk) penX1 yShift (dp (8 * ds o)) (dp (8 * ds o)) u0 v0 u1 v1
    end in
  {| spans := spans';
     penX := penX1 + Math_round (inject_Z (dp (inject_Z (advOr (adv asciiPack) code 9) * ds o))
                                 * spacingMul o);
     prevKind := Some KAscii;
     dqCount := dq;
     sqCount := sq |}.

(** [this.glyphs.get(hi) || glyph00 || asciiPack]. *)
Definition glyphPackFor (hi : string) : pack :=
  match glyphMap !! hi with
  | Some p => p
  | None =>
      match glyph00 with
      | Some g => g
      | None => asciiPack
      end
  end.

Definition pushGlyph (code : Z) (s : penState) : penState :=
  let penX1 :=
    if Qpositive (glyphTrackPx o)
       && match prevKind s with Some KGlyph => true | _ => false end
    then penX s + Math_round (scale o * glyphTrackPx o)
    else penX s in
  let hi := codeHi code in
  let pk := glyphPackFor hi in
  let lo := codeLo code in
  let cx := lo mod grid in
  let cy := lo / grid in
  let u0 := (inject_Z (cx * 16) / inject_Z (w pk))%Q in
  let v0 := (inject_Z (cy * 16) / inject_Z (h pk))%Q in
  let u1 := (inject_Z ((cx + 1) * 16) / inject_Z (w pk))%Q in
  let v1 := (inject_Z ((cy + 1) * 16) / inject_Z (h pk))%Q in
  let myCenter := (centerRow (vmet pk) * 1)%Q in
  let yShift := Math_round (inject_Z (dp (refCenter - myCenter))) in
  {| spans := pushQuad (spans s) (FromAtlas pk) penX1 yShift (dp 16) (dp 16) u0 v0 u1 v1;
     penX := penX1 + Math_round (inject_Z (dp (inject_Z (advOr (adv pk) lo 17)))
                                 * spacingMul o);
     prevKind := Some KGlyph;
     dqCount := dqCount s;
     sqCount := sqCount s |}.

(** [findPrev]: [i] counts the positions still to visit, [j = i-1 .. 0]. *)
Fixpoint findPrev (i : nat) : option Z :=
  match i with
  | O => None
  | S j =>
      match codePointAt text j with
      | Some c2 => if c2 =? 32 then findPrev j else Some c2
      | None => None
      end
  end.

(** [findNext] from position [j], with [n] positions left before
    [text.length]. *)
Fixpoint findNextFrom (j n : nat) : option Z :=
  match n with
  | O => None
  | S n' =>
      match codePointAt text j with
      | Some c2 => if c2 =? 32 then findNextFrom (S j) n' else Some c2
      | None => None
      end
  end.

Definition findNext (i : nat) : option Z :=
  findNextFrom (S i) (length text - S i).

(** [c != null && isAsciiCode(c)]. *)
Definition presentAscii (c : option Z) : bool :=
  match c with
  | Some c2 => isAsciiCode c2
  | None => false
  end.

Definition asciiSpaceAdvance : Z :=
  Math_round (inject_Z (dp (inject_Z (advOr (adv asciiPack) 32 9) * ds o)) * spaceMul o).

Definition glyphSpaceAdvance : Z :=
  let advG := match glyph00 with
              | Some g => advOr (adv g) 32 17
              | None => 17
              end in
  Math_round (inject_Z (dp (inject_Z advG)) * spaceMul o).

(** The pen advance of the space at position [i]. *)
Definition spaceAdvance (i : nat) : Z :=
  match defaultOnly with
  | None =>
      let prev := findPrev i in
      let next := findNext i in
      let bothAscii := presentAscii prev && presentAscii next in
      if bothAscii then asciiSpaceAdvance else glyphSpaceAdvance
  | Some true => asciiSpaceAdvance
  | Some false => glyphSpaceAdvance
  end.

(** Body of [for (let i = 0; i < text.length; i++)].  [codePointAt] is
    defined for every [i] the loop visits. *)
Definition emitStep (s : penState) (i : nat) : penState :=
  match codePointAt text i with
  | None => s
  | Some cp =>
      if cp =? 32 then
        {| spans := spans s;
           penX := penX s + spaceAdvance i;
           prevKind := None;
           dqCount := dqCount s;
           sqCount := sqCount s |}
      else
        match defaultOnly with
        | Some true => pushAscii cp s
        | Some false => pushGlyph cp s
        | None => if isAsciiCode cp then pushAscii cp s else pushGlyph cp s
        end
  end.

Definition initialPen : penState :=
  {| spans := []; penX := 0; prevKind := None; dqCount := 0; sqCount := 0 |}.

(** The pen state after the first [n] iterations. *)
Definition penAfter (n : nat) : penState :=
  fold_left emitStep (seq 0 n) initialPen.

Definition emitAll : penState := penAfter (length text).
End Emission.

(** What a draw call has laid out when the GL pass starts. *)
Record layout := {
  l_need : gset string;
  l_lineH : Z;
  l_refCenter : Q;
  l_spans : list quad;
  l_penX : Z
}.

Inductive outcome :=
| Skipped                       (* [this.ascii] not loaded: early return *)
| LoadFailed                    (* a page load rejected: the call rejects *)
| Drawn (r : renderer) (l : layout).

(** [draw(text, opts)] up to the GL pass: the renderer afterwards and the
    layout.  The alignment offsets, the grouping into runs and the GL calls
    read the spans and the pen but no option of the layout, and are left
    out; so is the renderer left behind by a rejected call. *)
Definition draw (load : string -> option pack) (r : renderer)
    (text : list Z) (o : opts) : outcome :=
  match ascii r with
  | None => Skipped
  | Some asciiPack =>
      let need := neededPages (mode o) text in
      match _ensureGlyphPacks load (glyphs r) need with
      | None => LoadFailed
      | Some glyphMap =>
          let final := emitAll text o asciiPack glyphMap (quoteAlt r) in
          Drawn {| ascii := ascii r; glyphs := glyphMap; quoteAlt := quoteAlt r |}
                {| l_need := need;
                   l_lineH := lineH text o;
                   l_refCenter := refCenter text o asciiPack glyphMap;
                   l_spans := spans final;
                   l_penX := penX final |}
      end
  end.

(** ** Vocabulary of the metric properties

    The pixel rectangle of tile [idx] in a 16-column grid and what it means
    for a column or a row of it to be opaque. *)

Definition tileX0 (tileW idx : Z) : Z := (idx mod grid) * tileW.
Definition tileX1 (tileW idx : Z) : Z := tileX0 tileW idx + tileW - 1.
Definition tileY0 (tileH idx : Z) : Z := (idx / grid) * tileH.
Definition tileY1 (tileH idx : Z) : Z := tileY0 tileH idx + tileH - 1.

(** Column [x] has an opaque pixel within the rows of tile [idx]. *)
Definition columnOpaque (sc : scan) (tileH idx x : Z) : Prop :=
  exists y, tileY0 tileH idx <= y <= tileY1 tileH idx /\ opaqueAt sc x y = true.

(** Row [y] has an opaque pixel within the columns of tile [idx]. *)
Definition rowOpaque (sc : scan) (tileW idx y : Z) : Prop :=
  exists x, tileX0 tileW idx <= x <= tileX1 tileW idx /\ opaqueAt sc x y = true.

Definition leftmostOpaque (sc : scan) (tileW tileH idx L : Z) : Prop :=
  tileX0 tileW idx <= L <= tileX1 tileW idx
  /\ columnOpaque sc tileH idx L
  /\ forall x, tileX0 tileW idx <= x < L -> ~ columnOpaque sc tileH idx x.

Definition rightmostOpaque (sc : scan) (tileW tileH idx R : Z) : Prop :=
  tileX0 tileW idx <= R <= tileX1 tileW idx
  /\ columnOpaque sc tileH idx R
  /\ forall x, R < x <= tileX1 tileW idx -> ~ columnOpaque sc tileH idx x.

Definition topmostOpaque (sc : scan) (tileW tileH idx T : Z) : Prop :=
  tileY0 tileH idx <= T <= tileY1 tileH idx
  /\ rowOpaque sc tileW idx T
  /\ forall y, tileY0 tileH idx <= y < T -> ~ rowOpaque sc tileW idx y.

Definition bottommostOpaque (sc : scan) (tileW tileH idx B : Z) : Prop :=
  tileY0 tileH idx <= B <= tileY1 tileH idx
  /\ rowOpaque sc tileW idx B
  /\ forall y, B < y <= tileY1 tileH idx -> ~ rowOpaque sc tileW idx y.

(** Tile [idx] has at least one opaque pixel. *)
Definition tileHasOpaque (sc : scan) (tileW tileH idx : Z) : bool :=
  existsb (fun y => existsb (fun x => opaqueAt sc x y)
                            (upto (tileX0 tileW idx) (tileX1 tileW idx)))
          (upto (tileY0 tileH idx) (tileY1 tileH idx)).

(** The non-empty tiles of an atlas, in index order. *)
Definition nonEmptyTiles (sc : scan) (tileW tileH : Z) : list Z :=
  filter (fun idx => tileHasOpaque sc tileW tileH idx = true) (upto 0 255).

Definition Qsum (l : list Q) : Q := foldr Qplus 0%Q l.

(** Arithmetic mean of a list of rationals. *)
Definition Qmean (l : list Q) : Q := (Qsum l / inject_Z (Z.of_nat (length l)))%Q.

(** The center of tile [idx] in tile-local rows, from its topmost and
    bottommost opaque rows: [(top + bottom) / 2 - tileTop]. *)
Definition localCenterOf (top bottom : Z -> Z) (tileH idx : Z) : Q :=
  (inject_Z (top idx + bottom idx) / 2 - inject_Z (tileY0 tileH idx))%Q.

(** [top] and [bottom] as the loop of [_buildVerticalMetrics] finds them. *)
Definition scannedTop (sc : scan) (tileW tileH idx : Z) : Z :=
  tileTop sc (tileX0 tileW idx) (tileX1 tileW idx) (tileY0 tileH idx) (tileY1 tileH idx).

Definition scannedBottom (sc : scan) (tileW tileH idx : Z) : Z :=
  tileBottom sc (tileX0 tileW idx) (tileX1 tileW idx) (tileY0 tileH idx) (tileY1 tileH idx).

(** ** Vocabulary of the layout properties *)

(** The same options with another [mode], or another [baseline]. *)
Definition withMode (o : opts) (m : string) : opts :=
  {| scale := scale o; ds := ds o; spaceMul := spaceMul o; spacingMul := spacingMul o;
     mode := m; baseline := baseline o; lockLineH := lockLineH o;
     glyphTrackPx := glyphTrackPx o; asciiAfterGlyphPadPx := asciiAfterGlyphPadPx o |}.

Definition withBaseline (o : opts) (b : string) : opts :=
  {| scale := scale o; ds := ds o; spaceMul := spaceMul o; spacingMul := spacingMul o;
     mode := mode o; baseline := b; lockLineH := lockLineH o;
     glyphTrackPx := glyphTrackPx o; asciiAfterGlyphPadPx := asciiAfterGlyphPadPx o |}.

(** The four documented modes. *)
Definition validMode (m : string) : Prop :=
  m = "auto"%string \/ m = "mixed"%string \/ m = "default"%string \/ m = "glyph"%string.

(** A text has a character above the ASCII range / only ASCII characters. *)
Definition hasNonAscii (text : list Z) : Prop :=
  exists cp, cp ∈ codePoints text /\ 0x7F < cp.

Definition allAscii (text : list Z) : Prop :=
  forall cp, cp ∈ codePoints text -> cp <= 0x7F.

(** The atlas class a non-space character is routed to by the loop. *)
Definition routedAscii (defaultOnly : option bool) (cp : Z) : bool :=
  match defaultOnly with
  | Some b => b
  | None => isAsciiCode cp
  end.

(** How often the loop has met code point [c] in positions [0 .. n-1]. *)
Definition occurrences (text : list Z) (c : Z) (n : nat) : Z :=
  Z.of_nat (length (filter (fun i => codePointAt text i = Some c) (seq 0 n))).

(** The code points the loop meets at the given positions. *)
Definition pointsAt (text : list Z) (positions : list nat) : list Z :=
  omap (codePointAt text) positions.

(** The nearest non-space character on each side of position [i]. *)
Definition nearestLeft (text : list Z) (i : nat) : option Z :=
  last (filter (fun c => c <> 32) (pointsAt text (seq 0 i))).

Definition nearestRight (text : list Z) (i : nat) : option Z :=
  head (filter (fun c => c <> 32) (pointsAt text (seq (S i) (length text - S i)))).

Definition quadUV (q : quad) : Q * Q * Q * Q := (q_u0 q, q_v0 q, q_u1 q, q_v1 q).

(** The UV rectangle of grid cell [(cx, cy)] for tiles of [size] pixels in
    an atlas image of [pw] x [ph] pixels. *)
Definition tileUV (size cx cy pw ph : Z) : Q * Q * Q * Q :=
  ((inject_Z (cx * size) / inject_Z pw)%Q,
   (inject_Z (cy * size) / inject_Z ph)%Q,
   (inject_Z ((cx + 1) * size) / inject_Z pw)%Q,
   (inject_Z ((cy + 1) * size) / inject_Z ph)%Q).

(** A glyph's own vertical center in the units of [refCenter]. *)
Definition ownCenter (text : list Z) (o : opts) (asciiPack : pack)
    (glyphMap : gmap string pack) (cp : Z) : Q :=
  if routedAscii (defaultOnly text o) cp
  then (centerRow (vmet asciiPack) * ds o)%Q
  else centerRow (vmet (glyphPackFor asciiPack glyphMap (codeHi cp))).

(** All the numeric options the pen advance is scaled by are non-negative. *)
Definition nonNegativeOpts (o : opts) : Prop :=
  (0 <= scale o /\ 0 <= ds o /\ 0 <= spaceMul o /\ 0 <= spacingMul o
   /\ 0 <= glyphTrackPx o /\ 0 <= asciiAfterGlyphPadPx o)%Q.

(** ** Sample data for the worked examples *)

(** An 8-pixel atlas of 128 x 128 pixels whose tiles all advance by 6. *)
Definition sampleAscii : pack :=
  {| tex := 1%N; w := 128; h := 128; adv := replicate 256 6%N;
     vmet := {| centerRow := 7 # 2; tileH := 8 |} |}.

(** A 16-pixel atlas of 256 x 256 pixels whose tiles all advance by 12. *)
Definition sampleGlyph (t : N) : pack :=
  {| tex := t; w := 256; h := 256; adv := replicate 256 12%N;
     vmet := {| centerRow := 15 # 2; tileH := 16 |} |}.

(** Every page loads. *)
Definition sampleLoad (hi : string) : option pack :=
  Some (sampleGlyph (2 + N.of_nat (String.length hi))).

Definition sampleQuote : quotePack := {| qtex := 9%N; qw := 8; qh := 8 |}.

Definition sampleRenderer : renderer :=
  {| ascii := Some sampleAscii;
     glyphs := ∅;
     quoteAlt := <[34 := sampleQuote]> (<[39 := sampleQuote]> ∅) |}.

(** An opacity map of width 128 with opaque pixels at [(2, 0)] and
    [(5, 1)]: both lie in tile 0 of an 8-pixel atlas. *)
Definition sampleScan : scan :=
  {| alpha := [0; 0; 9; 0] ++ replicate 124 0 ++ [0; 0; 0; 0; 0; 7];
     width := 128; height := 128 |}.

Definition emptyScan : scan := {| alpha := []; width := 128; height := 128 |}.

(** A 32 x 32 opacity map read as an atlas of 2-pixel tiles, with opaque
    pixels at [(0, 0)], [(3, 0)] and [(2, 1)]. *)
Definition tinyScan : scan :=
  {| alpha := [1; 0; 0; 1] ++ replicate 30 0 ++ [1]; width := 32; height := 32 |}.

(** ** Batching by texture (MCFont.js 347-359)

    [cur.pack !== s.pack] compares object references.  Packs are values
    here, and packs of distinct atlases differ in their texture handle, so
    the comparison is equality of values. *)

#[global] Instance Q_eq_dec : EqDecision Q.
Proof. solve_decision. Defined.

#[global] Instance vmetrics_eq_dec : EqDecision vmetrics.
Proof. solve_decision. Defined.

#[global] Instance pack_eq_dec : EqDecision pack.
Proof. solve_decision. Defined.

#[global] Instance quotePack_eq_dec : EqDecision quotePack.
Proof. solve_decision. Defined.

#[global] Instance quadPack_eq_dec : EqDecision quadPack.
Proof. solve_decision. Defined.

(** A run [{pack, list}] of the draw plan. *)
Record run := { r_pack : quadPack; r_list : list quad }.

(** Body of [for (const s of spans)].  [cur] is the run pushed last, so it
    is the last element of [runs]; [cur.list.push(s)] updates that
    element. *)
Definition batchStep (runs : list run) (s : quad) : list run :=
  match last runs with
  | Some cur =>
      if decide (r_pack cur = q_pack s)
      then removelast runs ++ [ {| r_pack := r_pack cur; r_list := r_list cur ++ [s] |} ]
      else runs ++ [ {| r_pack := q_pack s; r_list := [s] |} ]
  | None => [ {| r_pack := q_pack s; r_list := [s] |} ]
  end.

Definition batchRuns (spans : list quad) : list run :=
  fold_left batchStep spans [].

(** The number of places where two consecutive spans have different
    packs. *)
Fixpoint packSwitches (spans : list quad) : nat :=
  match spans with
  | a :: (b :: _) as rest =>
      (if decide (q_pack a = q_pack b) then 0 else 1) + packSwitches rest
  | _ => 0
  end%nat.

(** ** Vocabulary of the spacing rules *)

(** The kind of glyph the loop emits at position [i]: none for a space or
    past the end of the text. *)
Definition classAt (text : list Z) (o : opts) (i : nat) : option kind :=
  match codePointAt text i with
  | Some cp =>
      if cp =? 32 then None
      else Some (if routedAscii (defaultOnly text o) cp then KAscii else KGlyph)
  | None => None
  end.

(** The kind of glyph emitted just before position [i]. *)
Definition classBefore (text : list Z) (o : opts) (i : nat) : option kind :=
  match i with
  | O => None
  | S j => classAt text o j
  end.

(** The extra pixels inserted before a glyph of kind [k] that follows a
    glyph of kind [prev]: the tracking between two wide glyphs, and in mode
    'mixed' the padding of an ASCII glyph after a wide one. *)
Definition gapBetween (text : list Z) (o : opts) (prev : option kind) (k : kind) : Z :=
  match prev, k with
  | Some KGlyph, KGlyph =>
      if Qpositive (glyphTrackPx o) then Math_round (scale o * glyphTrackPx o) else 0
  | Some KGlyph, KAscii =>
      match defaultOnly text o with
      | None =>
          if Qpositive (asciiAfterGlyphPadPx o)
          then Math_round (scale o * asciiAfterGlyphPadPx o) else 0
      | Some _ => 0
      end
  | _, _ => 0
  end.

(** ** Page ids read back *)

(** The value of an upper-case hexadecimal digit. *)
Definition hexValue (c : Ascii.ascii) : option Z :=
  let n := Z.of_nat (nat_of_ascii c) in
  if (48 <=? n) && (n <=? 57) then Some (n - 48)
  else if (65 <=? n) && (n <=? 70) then Some (n - 55)
  else None.

(** The byte a two-digit page id names. *)
Definition pageByte (hi : string) : option Z :=
  match hi with
  | String c1 (String c2 EmptyString) =>
      match hexValue c1, hexValue c2 with
      | Some d1, Some d2 => Some (16 * d1 + d2)
      | _, _ => None
      end
  | _ => None
  end.

(** A loader whose atlases can be told apart: page [hi] gets the texture
    handle 256 + the byte that [hi] names; an id that names no byte does
    not load. *)
Definition pageLoad (hi : string) : option pack :=
  match pageByte hi with
  | Some b => Some (sampleGlyph (Z.to_N (256 + b)))
  | None => None
  end.

(** ** The pen in double arithmetic (MCFont.js 224-337)

    The layout above computes with exact numbers.  A JavaScript number is
    an IEEE double: a product or a sum whose magnitude reaches
    [2^1024 - 2^970] is an infinity, and an infinity times zero is NaN.
    The pen arithmetic of the emission loop is embedded a second time over
    numbers that carry these two effects.  A result inside the range is
    kept exact (rounding to 53 bits is still left out); the options are
    finite numbers. *)

Inductive jsnum :=
| Fin (q : Q)
| PosInf
| NegInf
| NaN.

(** The least magnitude that rounds to an infinity. *)
Definition overflowAt : Q := inject_Z (2 ^ 1024 - 2 ^ 970).

(** The double an exact result becomes. *)
Definition jsNorm (q : Q) : jsnum :=
  if Qle_bool overflowAt q then PosInf
  else if Qle_bool q (- overflowAt) then NegInf
  else Fin q.

Definition infOf (positive : bool) : jsnum := if positive then PosInf else NegInf.

(** An infinity of the given sign times [b]. *)
Definition jsMulInf (positive : bool) (b : jsnum) : jsnum :=
  match b with
  | Fin y =>
      match (y ?= 0)%Q with
      | Eq => NaN
      | Gt => infOf positive
      | Lt => infOf (negb positive)
      end
  | PosInf => infOf positive
  | NegInf => infOf (negb positive)
  | NaN => NaN
  end.

(** [a * b]. *)
Definition jsMul (a b : jsnum) : jsnum :=
  match a, b with
  | Fin x, Fin y => jsNorm (x * y)
  | PosInf, _ => jsMulInf true b
  | NegInf, _ => jsMulInf false b
  | _, PosInf => jsMulInf true a
  | _, NegInf => jsMulInf false a
  | _, _ => NaN
  end.

(** [a + b]. *)
Definition jsAdd (a b : jsnum) : jsnum :=
  match a, b with
  | Fin x, Fin y => jsNorm (x + y)
  | NaN, _ | _, NaN => NaN
  | PosInf, NegInf | NegInf, PosInf => NaN
  | PosInf, _ | _, PosInf => PosInf
  | NegInf, _ | _, NegInf => NegInf
  end.

(** [Math.round(a)]: infinities and NaN are returned as they are. *)
Definition jsRound (a : jsnum) : jsnum :=
  match a with
  | Fin x => jsNorm (inject_Z (Math_round x))
  | _ => a
  end.

(** [a <= b]: false as soon as one side is NaN. *)
Definition jsLe (a b : jsnum) : bool :=
  match a, b with
  | NaN, _ | _, NaN => false
  | NegInf, _ | _, PosInf => true
  | Fin x, Fin y => Qle_bool x y
  | _, _ => false
  end.

(** What the loop keeps of the pen: the [x] of every span pushed so far,
    [penX] and [prevKind]. *)
Record penTrace := {
  quadXs : list jsnum;
  jsPenX : jsnum;
  jsPrevKind : option kind
}.

Section DoublePen.
Variable text : list Z.
Variable o : opts.
Variable asciiPack : pack.
Variable glyphMap : gmap string pack.

(** [dp(n) = Math.round(n * scale)]. *)
Definition jsDp (n : jsnum) : jsnum := jsRound (jsMul n (Fin (scale o))).

(** [Math.round(dp(n) * mul)], the shape of every advance. *)
Definition jsScaled (n : jsnum) (mul : Q) : jsnum :=
  jsRound (jsMul (jsDp n) (Fin mul)).

(** [Math.round(scale * px)], the tracking and padding gaps. *)
Definition jsGap (px : Q) : jsnum := jsRound (jsMul (Fin (scale o)) (Fin px)).

(** [pushAscii], pen and span position only. *)
Definition jsPushAscii (code : Z) (s : penTrace) : penTrace :=
  let penX1 :=
    if match defaultOnly text o with None => true | Some _ => false end
       && match jsPrevKind s with Some KGlyph => true | _ => false end
       && Qpositive (asciiAfterGlyphPadPx o)
    then jsAdd (jsPenX s) (jsGap (asciiAfterGlyphPadPx o))
    else jsPenX s in
  {| quadXs := quadXs s ++ [penX1];
     jsPenX :=
       jsAdd penX1
         (jsScaled (jsMul (Fin (inject_Z (advOr (adv asciiPack) code 9))) (Fin (ds o)))
                   (spacingMul o));
     jsPrevKind := Some KAscii |}.

(** [pushGlyph], pen and span position only. *)
Definition jsPushGlyph (code : Z) (s : penTrace) : penTrace :=
  let penX1 :=
    if Qpositive (glyphTrackPx o)
       && match jsPrevKind s with Some KGlyph => true | _ => false end
    then jsAdd (jsPenX s) (jsGap (glyphTrackPx o))
    else jsPenX s in
  let pk := glyphPackFor asciiPack glyphMap (codeHi code) in
  let lo := codeLo code in
  {| quadXs := quadXs s ++ [penX1];
     jsPenX :=
       jsAdd penX1 (jsScaled (Fin (inject_Z (advOr (adv pk) lo 17))) (spacingMul o));
     jsPrevKind := Some KGlyph |}.

Definition jsAsciiSpaceAdvance : jsnum :=
  jsScaled (jsMul (Fin (inject_Z (advOr (adv asciiPack) 32 9))) (Fin (ds o))) (spaceMul o).

Definition jsGlyphSpaceAdvance : jsnum :=
  let advG := match glyph00 glyphMap with
              | Some g => advOr (adv g) 32 17
              | None => 17
              end in
  jsScaled (Fin (inject_Z advG)) (spaceMul o).

(** The pen advance of the space at position [i]. *)
Definition jsSpaceAdvance (i : nat) : jsnum :=
  match defaultOnly text o with
  | None =>
      let prev := findPrev text i in
      let next := findNext text i in
      let bothAscii := presentAscii prev && presentAscii next in
      if bothAscii then jsAsciiSpaceAdvance else jsGlyphSpaceAdvance
  | Some true => jsAsciiSpaceAdvance
  | Some false => jsGlyphSpaceAdvance
  end.

(** Body of [for (let i = 0; i < text.length; i++)]. *)
Definition jsEmitStep (s : penTrace) (i : nat) : penTrace :=
  match codePointAt text i with
  | None => s
  | Some cp =>
      if cp =? 32 then
        {| quadXs := quadXs s;
           jsPenX := jsAdd (jsPenX s) (jsSpaceAdvance i);
           jsPrevKind := None |}
      else
        match defaultOnly text o with
        | Some true => jsPushAscii cp s
        | Some false => jsPushGlyph cp s
        | None => if isAsciiCode cp then jsPushAscii cp s else jsPushGlyph cp s
        end
  end.

Definition jsInitialPen : penTrace :=
  {| quadXs := []; jsPenX := Fin 0; jsPrevKind := None |}.

(** The pen after the first [n] iterations. *)
Definition jsPenAfter (n : nat) : penTrace :=
  fold_left jsEmitStep (seq 0 n) jsInitialPen.
End DoublePen.

(** ** Vocabulary of the overflow properties *)

(** Every numeric option is at most [2^64]. *)
Definition boundedOpts (o : opts) : Prop :=
  (scale o <= inject_Z (2 ^ 64) /\ ds o <= inject_Z (2 ^ 64)
   /\ spaceMul o <= inject_Z (2 ^ 64) /\ spacingMul o <= inject_Z (2 ^ 64)
   /\ glyphTrackPx o <= inject_Z (2 ^ 64)
   /\ asciiAfterGlyphPadPx o <= inject_Z (2 ^ 64))%Q.

(** The advance table holds 16-bit values, as a [Uint16Array] does. *)
Definition uint16Table (p : pack) : Prop :=
  Forall (fun a => (a < 65536)%N) (adv p).

(** A number inside the double range. *)
Definition finite (a : jsnum) : Prop := exists q, a = Fin q.

(** A finite number between 0 and the integer [X]. *)
Definition within (X : Z) (a : jsnum) : Prop :=
  exists q, a = Fin q /\ (0 <= q <= inject_Z X)%Q.

(** Options that overflow the first product of every advance: the scale
    is [2^1023] and the letter spacing is switched off. *)
Definition hugeScaleOpts : opts :=
  {| scale := inject_Z (2 ^ 1023); ds := 3 # 2; spaceMul := 1 # 2; spacingMul := 0;
     mode := "default"; baseline := "ascii"; lockLineH := true;
     glyphTrackPx := 2; asciiAfterGlyphPadPx := 5 # 2 |}.

(** * Proofs *)

(** ** Counted loops *)

Lemma zseq_cons a n : zseq a (S n) = a :: zseq (a + 1) n.
Proof.
  unfold zseq. simpl. f_equal; [lia|].
  rewrite <- seq_shift, map_map. apply map_ext. intros; lia.
Qed.

Lemma zseq_snoc a n : zseq a (S n) = zseq a n ++ [a + Z.of_nat n].
Proof. unfold zseq. rewrite seq_S, map_app. reflexivity. Qed.

Lemma in_zseq a n x : In x (zseq a n) <-> a <= x < a + Z.of_nat n.
Proof.
  unfold zseq. rewrite in_map_iff. split.
  - intros (k & <- & Hk). apply in_seq in Hk. lia.
  - intros Hx. exists (Z.to_nat (x - a)). split; [lia|]. apply in_seq. lia.
Qed.

Lemma in_upto a b x : In x (upto a b) <-> a <= x <= b.
Proof. unfold upto. rewrite in_zseq. lia. Qed.

Lemma in_downto a b x : In x (downto b a) <-> a <= x <= b.
Proof. unfold downto. rewrite <- in_rev. apply in_upto. Qed.

Lemma NoDup_zseq a n : List.NoDup (zseq a n).
Proof.
  revert a. induction n as [|n IH]; intros a.
  - constructor.
  - rewrite zseq_cons. constructor; [|apply IH].
    rewrite in_zseq. lia.
Qed.

Lemma find_app_l {A} (p : A -> bool) l1 l2 :
  find p (l1 ++ l2) = match find p l1 with Some v => Some v | None => find p l2 end.
Proof. induction l1 as [|x l1 IH]; simpl; [reflexivity|]. destruct (p x); auto. Qed.

(** An ascending scan stops at the least hit. *)
Lemma find_zseq_least p a n v :
  find p (zseq a n) = Some v ->
  a <= v < a + Z.of_nat n /\ p v = true /\ forall x, a <= x < v -> p x = false.
Proof.
  revert a. induction n as [|n IH]; intros a; [discriminate|].
  rewrite zseq_cons. simpl. destruct (p a) eqn:Hpa.
  - intros [= <-]. repeat split; try lia. exact Hpa.
  - intros Hf. destruct (IH _ Hf) as (Hr & Hp & Hmin).
    repeat split; try lia; [exact Hp|].
    intros x Hx. destruct (Z.eq_dec x a) as [->|]; [exact Hpa|]. apply Hmin. lia.
Qed.

(** A descending scan stops at the greatest hit. *)
Lemma find_rev_zseq_greatest p a n v :
  find p (rev (zseq a n)) = Some v ->
  a <= v < a + Z.of_nat n /\ p v = true /\ forall x, v < x < a + Z.of_nat n -> p x = false.
Proof.
  induction n as [|n IH]; [discriminate|].
  rewrite zseq_snoc, rev_app_distr. simpl.
  destruct (p (a + Z.of_nat n)) eqn:Hp.
  - intros [= <-]. repeat split; try lia. exact Hp.
  - intros Hf. destruct (IH Hf) as (Hr & Hpv & Hmax).
    repeat split; try lia; [exact Hpv|].
    intros x Hx. destruct (Z.eq_dec x (a + Z.of_nat n)) as [->|]; [exact Hp|].
    apply Hmax. lia.
Qed.

Lemma find_none_all {A} (p : A -> bool) l :
  find p l = None -> forall x, In x l -> p x = false.
Proof. intros H x Hx. exact (find_none p l H x Hx). Qed.

Lemma existsb_upto f a b :
  existsb f (upto a b) = true <-> exists y, a <= y <= b /\ f y = true.
Proof.
  rewrite existsb_exists. split; intros (y & H1 & H2); exists y.
  - apply in_upto in H1. auto.
  - split; [apply in_upto|]; auto.
Qed.

Lemma existsb_upto_false f a b :
  existsb f (upto a b) = false <-> forall y, a <= y <= b -> f y = false.
Proof.
  split.
  - intros H y Hy. destruct (f y) eqn:Hf; [|reflexivity].
    assert (existsb f (upto a b) = true) by (apply existsb_upto; eauto). congruence.
  - intros H. destruct (existsb f (upto a b)) eqn:He; [|reflexivity].
    apply existsb_upto in He. destruct He as (y & Hy & Hf). rewrite H in Hf; [discriminate|exact Hy].
Qed.

(** The two outcomes of an ascending scan with early exit. *)
Lemma firstHit_upto p a b past :
  (firstHit p (upto a b) past = past /\ forall x, a <= x <= b -> p x = false)
  \/ (a <= firstHit p (upto a b) past <= b
      /\ p (firstHit p (upto a b) past) = true
      /\ forall x, a <= x < firstHit p (upto a b) past -> p x = false).
Proof.
  unfold firstHit. destruct (find p (upto a b)) as [v|] eqn:Hf.
  - right. unfold upto in Hf. apply find_zseq_least in Hf.
    destruct Hf as (Hr & Hp & Hmin). repeat split; try lia; auto.
  - left. split; [reflexivity|]. intros x Hx.
    apply (find_none_all _ _ Hf). apply in_upto. exact Hx.
Qed.

(** The two outcomes of a descending scan with early exit. *)
Lemma firstHit_downto p a b past :
  (firstHit p (downto b a) past = past /\ forall x, a <= x <= b -> p x = false)
  \/ (a <= firstHit p (downto b a) past <= b
      /\ p (firstHit p (downto b a) past) = true
      /\ forall x, firstHit p (downto b a) past < x <= b -> p x = false).
Proof.
  unfold firstHit. destruct (find p (downto b a)) as [v|] eqn:Hf.
  - right. unfold downto, upto in Hf. apply find_rev_zseq_greatest in Hf.
    destruct Hf as (Hr & Hp & Hmax). repeat split; try lia; auto.
    intros x Hx. apply Hmax. lia.
  - left. split; [reflexivity|]. intros x Hx.
    apply (find_none_all _ _ Hf). apply in_downto. exact Hx.
Qed.

(** ** Typed-array reads and writes *)

Lemma length_jsStore {A} (a : list A) i v : length (jsStore a i v) = length a.
Proof. unfold jsStore. destruct (i <? 0); [reflexivity|]. apply length_insert. Qed.

Lemma jsIndex_jsStore_eq {A} (a : list A) i v :
  0 <= i < Z.of_nat (length a) -> jsIndex (jsStore a i v) i = Some v.
Proof.
  intros Hi. unfold jsIndex, jsStore.
  destruct (Z.ltb_spec i 0); [lia|]. apply list_lookup_insert_eq. lia.
Qed.

Lemma jsIndex_jsStore_ne {A} (a : list A) i j v :
  i <> j -> jsIndex (jsStore a i v) j = jsIndex a j.
Proof.
  intros Hij. unfold jsIndex, jsStore.
  destruct (Z.ltb_spec j 0); [reflexivity|].
  destruct (Z.ltb_spec i 0); [reflexivity|].
  apply list_lookup_insert_ne. lia.
Qed.

Lemma jsIndex_Some_range {A} (a : list A) i v :
  jsIndex a i = Some v -> 0 <= i < Z.of_nat (length a).
Proof.
  unfold jsIndex. destruct (Z.ltb_spec i 0); [discriminate|].
  intros Hl%lookup_lt_Some. lia.
Qed.

(** A loop that stores [f i] at every index [i] it visits leaves [f k] in
    every visited cell [k]. *)
Lemma fold_store_keeps {A} (f : Z -> A) ks (a : list A) k :
  jsIndex a k = Some (f k) ->
  jsIndex (fold_left (fun acc i => jsStore acc i (f i)) ks a) k = Some (f k).
Proof.
  revert a. induction ks as [|i ks IH]; intros a Ha; simpl; [exact Ha|].
  apply IH. destruct (Z.eq_dec i k) as [->|Hne].
  - apply jsIndex_jsStore_eq. eapply jsIndex_Some_range, Ha.
  - rewrite jsIndex_jsStore_ne by exact Hne. exact Ha.
Qed.

Lemma fold_store_lookup {A} (f : Z -> A) ks (a : list A) k :
  In k ks -> 0 <= k < Z.of_nat (length a) ->
  jsIndex (fold_left (fun acc i => jsStore acc i (f i)) ks a) k = Some (f k).
Proof.
  revert a. induction ks as [|i ks IH]; intros a Hin Hk; [destruct Hin|].
  simpl. destruct (Z.eq_dec i k) as [->|Hne].
  - apply fold_store_keeps. apply jsIndex_jsStore_eq, Hk.
  - apply IH; [destruct Hin; [contradiction|assumption]|].
    rewrite length_jsStore. exact Hk.
Qed.

Lemma toUint16_small v : 0 <= v < 65536 -> toUint16 v = Z.to_N v.
Proof. intros Hv. unfold toUint16. rewrite Z.mod_small by lia. reflexivity. Qed.

(** ** Advance table *)

Lemma buildAdvance_lookup sc tileW tileH idx :
  0 <= idx <= 255 ->
  jsIndex (_buildAdvance sc tileW tileH) idx
  = Some (toUint16 (tileAdvance sc tileW tileH idx)).
Proof.
  intros Hidx. unfold _buildAdvance.
  apply (fold_store_lookup (fun i => toUint16 (tileAdvance sc tileW tileH i))).
  - apply in_upto. lia.
  - rewrite length_replicate. lia.
Qed.

Lemma colHasOpaque_iff sc tileH idx x :
  colHasOpaque sc x (tileY0 tileH idx) (tileY1 tileH idx) = true
  <-> columnOpaque sc tileH idx x.
Proof. unfold colHasOpaque, columnOpaque. apply existsb_upto. Qed.

Lemma colHasOpaque_false_iff sc tileH idx x :
  colHasOpaque sc x (tileY0 tileH idx) (tileY1 tileH idx) = false
  <-> ~ columnOpaque sc tileH idx x.
Proof.
  rewrite <- colHasOpaque_iff.
  destruct (colHasOpaque sc x _ _); split; congruence.
Qed.

(** The value the loop body assigns, by cases on the tile's content. *)
Lemma tileAdvance_cases sc tileW tileH idx :
  0 < tileW ->
  ((forall x, tileX0 tileW idx <= x <= tileX1 tileW idx -> ~ columnOpaque sc tileH idx x)
   /\ tileAdvance sc tileW tileH idx = tileW)
  \/ (exists L R, leftmostOpaque sc tileW tileH idx L
                  /\ rightmostOpaque sc tileW tileH idx R
                  /\ L <= R
                  /\ tileAdvance sc tileW tileH idx = (R - L + 1) + 1).
Proof.
  intros HW. unfold tileAdvance.
  fold (tileX0 tileW idx). fold (tileX1 tileW idx).
  fold (tileY0 tileH idx). fold (tileY1 tileH idx).
  set (p := fun x => colHasOpaque sc x (tileY0 tileH idx) (tileY1 tileH idx)).
  cbv zeta.
  destruct (firstHit_upto p (tileX0 tileW idx) (tileX1 tileW idx) (tileX1 tileW idx + 1))
    as [[HL Hnone]|(HLr & HLp & HLmin)];
  destruct (firstHit_downto p (tileX0 tileW idx) (tileX1 tileW idx) (tileX0 tileW idx - 1))
    as [[HR Hnone']|(HRr & HRp & HRmax)].
  - left. split.
    + intros x Hx. apply colHasOpaque_false_iff. apply Hnone, Hx.
    + rewrite HL, HR. unfold tileX1.
      destruct (Z.ltb_spec (tileX0 tileW idx - 1) (tileX0 tileW idx + tileW - 1 + 1)); [reflexivity|lia].
  - rewrite Hnone in HRp by exact HRr. discriminate.
  - rewrite Hnone' in HLp by exact HLr. discriminate.
  - right.
    set (L := firstHit p (upto (tileX0 tileW idx) (tileX1 tileW idx)) (tileX1 tileW idx + 1)) in *.
    set (R := firstHit p (downto (tileX1 tileW idx) (tileX0 tileW idx)) (tileX0 tileW idx - 1)) in *.
    exists L, R.
    assert (HLR : L <= R).
    { destruct (Z.le_gt_cases L R) as [|Hgt]; [assumption|].
      rewrite HLmin in HRp by lia. discriminate. }
    split; [|split; [|split; [exact HLR|]]].
    + split; [exact HLr|]. split; [apply colHasOpaque_iff, HLp|].
      intros x Hx. apply colHasOpaque_false_iff. apply HLmin, Hx.
    + split; [exact HRr|]. split; [apply colHasOpaque_iff, HRp|].
      intros x Hx. apply colHasOpaque_false_iff. apply HRmax, Hx.
    + destruct (Z.ltb_spec R L); [lia|reflexivity].
Qed.

Lemma leftmostOpaque_unique sc tileW tileH idx L L' :
  leftmostOpaque sc tileW tileH idx L -> leftmostOpaque sc tileW tileH idx L' -> L = L'.
Proof.
  intros (Hr & Ho & Hmin) (Hr' & Ho' & Hmin').
  destruct (Z.lt_trichotomy L L') as [Hlt|[->|Hgt]]; [|reflexivity|].
  - exfalso. apply (Hmin' L); [lia|exact Ho].
  - exfalso. apply (Hmin L'); [lia|exact Ho'].
Qed.

Lemma rightmostOpaque_unique sc tileW tileH idx R R' :
  rightmostOpaque sc tileW tileH idx R -> rightmostOpaque sc tileW tileH idx R' -> R = R'.
Proof.
  intros (Hr & Ho & Hmax) (Hr' & Ho' & Hmax').
  destruct (Z.lt_trichotomy R R') as [Hlt|[->|Hgt]]; [|reflexivity|].
  - exfalso. apply (Hmax R'); [lia|exact Ho'].
  - exfalso. apply (Hmax' R); [lia|exact Ho].
Qed.

(** C3. Advance table derivation.  For every opacity map and every tile
    index 0..255 (tile width below the 16-bit limit of the table): a tile
    without any opaque pixel gets advance [tileW]; a tile whose leftmost
    and rightmost opaque columns are [L] and [R] gets [(R - L + 1) + 1];
    and every tile with an opaque pixel has such [L] and [R]. *)
Theorem buildAdvance_tile sc tileW tileH idx :
  0 <= idx <= 255 ->
  0 < tileW < 65535 ->
  ((forall x y, tileX0 tileW idx <= x <= tileX1 tileW idx ->
                tileY0 tileH idx <= y <= tileY1 tileH idx ->
                opaqueAt sc x y = false) ->
   jsIndex (_buildAdvance sc tileW tileH) idx = Some (Z.to_N tileW))
  /\ (forall L R,
        leftmostOpaque sc tileW tileH idx L ->
        rightmostOpaque sc tileW tileH idx R ->
        jsIndex (_buildAdvance sc tileW tileH) idx = Some (Z.to_N ((R - L + 1) + 1)))
  /\ ((exists x y, tileX0 tileW idx <= x <= tileX1 tileW idx
                   /\ tileY0 tileH idx <= y <= tileY1 tileH idx
                   /\ opaqueAt sc x y = true) ->
      exists L R, leftmostOpaque sc tileW tileH idx L
                  /\ rightmostOpaque sc tileW tileH idx R).
Proof.
  intros Hidx HW. rewrite buildAdvance_lookup by exact Hidx.
  destruct (tileAdvance_cases sc tileW tileH idx) as [[Hnone Hadv]|(L0 & R0 & HL0 & HR0 & HLR & Hadv)];
    [lia| |].
  - split; [|split].
    + intros _. rewrite Hadv, toUint16_small by lia. reflexivity.
    + intros L R (Hr & Ho & _) _. exfalso. exact (Hnone L Hr Ho).
    + intros (x & y & Hx & Hy & Ho). exfalso. apply (Hnone x Hx). exists y. auto.
  - split; [|split].
    + intros Hempty. exfalso. destruct HL0 as (Hr & (y & Hy & Ho) & _).
      rewrite Hempty in Ho by assumption. discriminate.
    + intros L R HL HR.
      rewrite (leftmostOpaque_unique _ _ _ _ _ _ HL HL0).
      rewrite (rightmostOpaque_unique _ _ _ _ _ _ HR HR0).
      rewrite Hadv. destruct HL0 as (HrL & _), HR0 as (HrR & _).
      unfold tileX1 in *. rewrite toUint16_small by lia. reflexivity.
    + intros _. exists L0, R0. auto.
Qed.

(** ** Vertical center *)

Lemma rowHasOpaque_iff sc tileW idx y :
  rowHasOpaque sc y (tileX0 tileW idx) (tileX1 tileW idx) = true
  <-> rowOpaque sc tileW idx y.
Proof. unfold rowHasOpaque, rowOpaque. apply existsb_upto. Qed.

Lemma rowHasOpaque_false_iff sc tileW idx y :
  rowHasOpaque sc y (tileX0 tileW idx) (tileX1 tileW idx) = false
  <-> ~ rowOpaque sc tileW idx y.
Proof.
  rewrite <- rowHasOpaque_iff.
  destruct (rowHasOpaque sc y _ _); split; congruence.
Qed.

Lemma tileHasOpaque_iff sc tileW tileH idx :
  tileHasOpaque sc tileW tileH idx = true
  <-> exists x y, tileX0 tileW idx <= x <= tileX1 tileW idx
                  /\ tileY0 tileH idx <= y <= tileY1 tileH idx
                  /\ opaqueAt sc x y = true.
Proof.
  unfold tileHasOpaque. rewrite existsb_upto. split.
  - intros (y & Hy & Hrow). apply existsb_upto in Hrow.
    destruct Hrow as (x & Hx & Ho). exists x, y. auto.
  - intros (x & y & Hx & Hy & Ho). exists y. split; [exact Hy|].
    apply existsb_upto. exists x. auto.
Qed.

Lemma tileY0_nonneg tileH idx : 0 <= idx -> 0 < tileH -> 0 <= tileY0 tileH idx.
Proof.
  intros Hidx HH. unfold tileY0, grid.
  apply Z.mul_nonneg_nonneg; [apply Z.div_pos; lia|lia].
Qed.

Lemma vmetStep_cases sc tileW tileH s c idx :
  0 <= idx <= 255 ->
  (tileHasOpaque sc tileW tileH idx = false
   /\ vmetStep sc tileW tileH (s, c) idx = (s, c))
  \/ (tileHasOpaque sc tileW tileH idx = true
      /\ topmostOpaque sc tileW tileH idx (scannedTop sc tileW tileH idx)
      /\ bottommostOpaque sc tileW tileH idx (scannedBottom sc tileW tileH idx)
      /\ vmetStep sc tileW tileH (s, c) idx
         = ((s + localCenterOf (scannedTop sc tileW tileH) (scannedBottom sc tileW tileH)
                               tileH idx)%Q, c + 1)).
Proof.
  intros Hidx. unfold vmetStep, scannedTop, scannedBottom, localCenterOf, tileTop, tileBottom.
  fold (tileX0 tileW idx). fold (tileX1 tileW idx).
  fold (tileY0 tileH idx). fold (tileY1 tileH idx).
  set (p := fun y => rowHasOpaque sc y (tileX0 tileW idx) (tileX1 tileW idx)).
  cbv zeta.
  destruct (firstHit_upto p (tileY0 tileH idx) (tileY1 tileH idx) (-1))
    as [[HT Hnone]|(HTr & HTp & HTmin)];
  destruct (firstHit_downto p (tileY0 tileH idx) (tileY1 tileH idx) (-1))
    as [[HB Hnone']|(HBr & HBp & HBmax)].
  - left. split.
    + unfold tileHasOpaque. apply existsb_upto_false. exact Hnone.
    + rewrite HT. reflexivity.
  - rewrite Hnone in HBp by exact HBr. discriminate.
  - rewrite Hnone' in HTp by exact HTr. discriminate.
  - right.
    set (T := firstHit p (upto (tileY0 tileH idx) (tileY1 tileH idx)) (-1)) in *.
    set (B := firstHit p (downto (tileY1 tileH idx) (tileY0 tileH idx)) (-1)) in *.
    assert (H0 : 0 <= tileY0 tileH idx).
    { apply tileY0_nonneg; [lia|]. unfold tileY1 in *. lia. }
    split; [|split; [|split]].
    + unfold tileHasOpaque. apply existsb_upto. exists T. auto.
    + split; [exact HTr|]. split; [apply rowHasOpaque_iff, HTp|].
      intros y Hy. apply rowHasOpaque_false_iff. apply HTmin, Hy.
    + split; [exact HBr|]. split; [apply rowHasOpaque_iff, HBp|].
      intros y Hy. apply rowHasOpaque_false_iff. apply HBmax, Hy.
    + destruct (Z.leb_spec 0 T); [|lia]. destruct (Z.leb_spec 0 B); [|lia].
      reflexivity.
Qed.

Lemma topmostOpaque_unique sc tileW tileH idx T T' :
  topmostOpaque sc tileW tileH idx T -> topmostOpaque sc tileW tileH idx T' -> T = T'.
Proof.
  intros (Hr & Ho & Hmin) (Hr' & Ho' & Hmin').
  destruct (Z.lt_trichotomy T T') as [Hlt|[->|Hgt]]; [|reflexivity|].
  - exfalso. apply (Hmin' T); [lia|exact Ho].
  - exfalso. apply (Hmin T'); [lia|exact Ho'].
Qed.

Lemma bottommostOpaque_unique sc tileW tileH idx B B' :
  bottommostOpaque sc tileW tileH idx B -> bottommostOpaque sc tileW tileH idx B' -> B = B'.
Proof.
  intros (Hr & Ho & Hmax) (Hr' & Ho' & Hmax').
  destruct (Z.lt_trichotomy B B') as [Hlt|[->|Hgt]]; [|reflexivity|].
  - exfalso. apply (Hmax B'); [lia|exact Ho'].
  - exfalso. apply (Hmax' B); [lia|exact Ho].
Qed.

(** The accumulators after the tile loop has run over [l]. *)
Lemma vmet_fold sc tileW tileH l :
  (forall idx, In idx l -> 0 <= idx <= 255) ->
  forall s c,
    let r := fold_left (vmetStep sc tileW tileH) l (s, c) in
    let hit := filter (fun idx => tileHasOpaque sc tileW tileH idx = true) l in
    (fst r == s + Qsum (map (localCenterOf (scannedTop sc tileW tileH)
                                            (scannedBottom sc tileW tileH) tileH) hit))%Q
    /\ snd r = c + Z.of_nat (length hit).
Proof.
  induction l as [|idx l IH]; intros Hl s c.
  - simpl. split; [ring|lia].
  - assert (Hidx : 0 <= idx <= 255) by (apply Hl; left; reflexivity).
    assert (Hl' : forall i, In i l -> 0 <= i <= 255) by (intros i Hi; apply Hl; right; exact Hi).
    cbv zeta.
    change (fold_left (vmetStep sc tileW tileH) (idx :: l) (s, c))
      with (fold_left (vmetStep sc tileW tileH) l (vmetStep sc tileW tileH (s, c) idx)).
    destruct (vmetStep_cases sc tileW tileH s c idx Hidx) as [[He ->]|(He & _ & _ & ->)].
    + rewrite filter_cons_False by congruence. apply (IH Hl').
    + rewrite filter_cons_True by exact He.
      destruct (IH Hl' (s + localCenterOf (scannedTop sc tileW tileH)
                                          (scannedBottom sc tileW tileH) tileH idx)%Q (c + 1))
        as [Hs Hc].
      split.
      * rewrite Hs. simpl. ring.
      * rewrite Hc. simpl length. lia.
Qed.

Lemma Qsum_map_ext (f g : Z -> Q) l :
  (forall x, In x l -> (f x == g x)%Q) -> (Qsum (map f l) == Qsum (map g l))%Q.
Proof.
  induction l as [|x l IH]; intros H; simpl; [reflexivity|].
  rewrite (H x) by (left; reflexivity). rewrite IH; [reflexivity|].
  intros y Hy. apply H. right. exact Hy.
Qed.

Lemma nonEmptyTiles_spec sc tileW tileH idx :
  idx ∈ nonEmptyTiles sc tileW tileH
  <-> 0 <= idx <= 255 /\ tileHasOpaque sc tileW tileH idx = true.
Proof.
  unfold nonEmptyTiles. rewrite list_elem_of_filter, list_elem_of_In, in_upto. tauto.
Qed.

(** C4. Vertical-center derivation.  The non-empty tiles are exactly the
    tiles 0..255 with an opaque pixel; each has a topmost and a bottommost
    opaque row; and for any [top], [bottom] giving these rows the atlas
    center is the arithmetic mean over the non-empty tiles of
    [(top + bottom) / 2 - tileTop], or [tileH / 2] when there is none. *)
Theorem buildVerticalMetrics_center sc tileW tileH :
  (forall idx,
     idx ∈ nonEmptyTiles sc tileW tileH
     <-> 0 <= idx <= 255
         /\ exists x y, tileX0 tileW idx <= x <= tileX1 tileW idx
                        /\ tileY0 tileH idx <= y <= tileY1 tileH idx
                        /\ opaqueAt sc x y = true)
  /\ (forall idx,
        idx ∈ nonEmptyTiles sc tileW tileH ->
        exists T B, topmostOpaque sc tileW tileH idx T
                    /\ bottommostOpaque sc tileW tileH idx B)
  /\ (forall top bottom : Z -> Z,
        (forall idx, idx ∈ nonEmptyTiles sc tileW tileH ->
                     topmostOpaque sc tileW tileH idx (top idx)
                     /\ bottommostOpaque sc tileW tileH idx (bottom idx)) ->
        (centerRow (_buildVerticalMetrics sc tileW tileH)
         == match nonEmptyTiles sc tileW tileH with
            | [] => inject_Z tileH / 2
            | _ => Qmean (map (localCenterOf top bottom tileH) (nonEmptyTiles sc tileW tileH))
            end)%Q).
Proof.
  assert (Hscan : forall idx, idx ∈ nonEmptyTiles sc tileW tileH ->
            topmostOpaque sc tileW tileH idx (scannedTop sc tileW tileH idx)
            /\ bottommostOpaque sc tileW tileH idx (scannedBottom sc tileW tileH idx)).
  { intros idx [Hidx He]%nonEmptyTiles_spec.
    destruct (vmetStep_cases sc tileW tileH 0%Q 0 idx Hidx) as [[He' _]|(_ & HT & HB & _)];
      [congruence|auto]. }
  split; [|split].
  - intros idx. rewrite nonEmptyTiles_spec, tileHasOpaque_iff. tauto.
  - intros idx Hin. destruct (Hscan idx Hin) as [HT HB]. eauto.
  - intros top bottom Htb.
    unfold _buildVerticalMetrics.
    pose proof (vmet_fold sc tileW tileH (upto 0 255)) as Hfold.
    destruct (fold_left (vmetStep sc tileW tileH) (upto 0 255) (0%Q, 0)) as [sumCenter count] eqn:Hrun.
    specialize (Hfold (fun idx Hi => proj1 (in_upto 0 255 idx) Hi) 0%Q 0).
    rewrite Hrun in Hfold. cbv zeta in Hfold. simpl fst in Hfold. simpl snd in Hfold.
    fold (nonEmptyTiles sc tileW tileH) in Hfold.
    destruct Hfold as [Hsum Hcount]. simpl centerRow.
    destruct (nonEmptyTiles sc tileW tileH) as [|i0 rest] eqn:Hne.
    + simpl in Hcount. subst count. reflexivity.
    + destruct (Z.eqb_spec count 0) as [Hz|Hnz]; [simpl in Hcount; lia|].
      unfold Qmean. rewrite length_map.
      replace (Z.of_nat (length (i0 :: rest))) with count by lia.
      rewrite Hsum, Qplus_0_l.
      rewrite (Qsum_map_ext _ (localCenterOf top bottom tileH)); [reflexivity|].
      intros idx Hin. rewrite <- list_elem_of_In in Hin.
      destruct (Hscan idx Hin) as [HT HB]. destruct (Htb idx Hin) as [HT' HB'].
      unfold localCenterOf.
      rewrite (topmostOpaque_unique _ _ _ _ _ _ HT HT').
      rewrite (bottommostOpaque_unique _ _ _ _ _ _ HB HB'). reflexivity.
Qed.

(** ** Tile data read from and written to the canvas *)

Lemma jsIndex_map_zseq {A} (f : Z -> A) n i :
  0 <= i < Z.of_nat n -> jsIndex (map f (zseq 0 n)) i = Some (f i).
Proof.
  intros Hi. unfold jsIndex, zseq. destruct (Z.ltb_spec i 0); [lia|].
  rewrite map_map, list_lookup_fmap.
  rewrite lookup_seq_lt by lia. simpl. f_equal. f_equal. lia.
Qed.

Lemma pixel_index_decode x y ch :
  0 <= x < 16 -> 0 <= ch < 4 ->
  let i := (y * 16 + x) * 4 + ch in
  (i / 4) mod 16 = x /\ (i / 4) / 16 = y /\ i mod 4 = ch.
Proof. intros Hx Hch. cbv zeta. Z.to_euclidean_division_equations. lia. Qed.

Lemma getImageData_lookup c sx sy x y ch :
  0 <= x < 16 -> 0 <= y < 16 -> 0 <= ch < 4 ->
  jsIndex (getImageData c sx sy 16 16) ((y * 16 + x) * 4 + ch)
  = Some (canvasByte c (sx + x) (sy + y) ch).
Proof.
  intros Hx Hy Hch. unfold getImageData, upto.
  rewrite jsIndex_map_zseq by lia.
  destruct (pixel_index_decode x y ch Hx Hch) as (-> & -> & ->). reflexivity.
Qed.

Lemma glyphTile_opaque c code x y :
  0 <= x < 16 -> 0 <= y < 16 ->
  byteOpaque (glyphTile c code) ((y * 16 + x) * 4 + 3)
  = (0 <? canvasByte c ((code mod grid) * 16 + x) ((code / grid) * 16 + y) 3).
Proof.
  intros Hx Hy. unfold byteOpaque, glyphTile.
  rewrite getImageData_lookup by lia. reflexivity.
Qed.

Lemma canvasByte_put_inside c data dx dy x y ch :
  0 <= x < 16 -> 0 <= y < 16 ->
  canvasByte (putImageData c data 16 16 dx dy) (dx + x) (dy + y) ch
  = if inCanvas c (dx + x) (dy + y)
    then default 0 (jsIndex data ((y * 16 + x) * 4 + ch))
    else 0.
Proof.
  intros Hx Hy. unfold canvasByte, putImageData, inCanvas. simpl.
  destruct (_ && _ && _ && _); [|reflexivity].
  destruct (Z.leb_spec dx (dx + x)); [|lia].
  destruct (Z.ltb_spec (dx + x) (dx + 16)); [|lia].
  destruct (Z.leb_spec dy (dy + y)); [|lia].
  destruct (Z.ltb_spec (dy + y) (dy + 16)); [|lia].
  simpl. do 3 f_equal. lia.
Qed.

Lemma canvasByte_put_outside c data dx dy x y ch :
  ~ (dx <= x < dx + 16 /\ dy <= y < dy + 16) ->
  canvasByte (putImageData c data 16 16 dx dy) x y ch = canvasByte c x y ch.
Proof.
  intros Hout. unfold canvasByte, putImageData, inCanvas. simpl.
  destruct (_ && _ && _ && _); [|reflexivity].
  destruct (Z.leb_spec dx x), (Z.ltb_spec x (dx + 16)),
           (Z.leb_spec dy y), (Z.ltb_spec y (dy + 16)); simpl; try reflexivity.
  exfalso. apply Hout. lia.
Qed.

(** Tiles of different codes occupy disjoint rectangles. *)
Lemma tiles_disjoint j k x y :
  0 <= j <= 255 -> 0 <= k <= 255 -> j <> k ->
  0 <= x < 16 -> 0 <= y < 16 ->
  ~ ((k mod grid) * 16 <= (j mod grid) * 16 + x < (k mod grid) * 16 + 16
     /\ (k / grid) * 16 <= (j / grid) * 16 + y < (k / grid) * 16 + 16).
Proof.
  unfold grid. intros Hj Hk Hjk Hx Hy. Z.to_euclidean_division_equations. lia.
Qed.

Lemma glyphTile_put_other c data j k :
  0 <= j <= 255 -> 0 <= k <= 255 -> j <> k ->
  glyphTile (putImageData c data 16 16 ((k mod grid) * 16) ((k / grid) * 16)) j
  = glyphTile c j.
Proof.
  intros Hj Hk Hjk. unfold glyphTile, getImageData.
  apply map_ext_in. intros i Hi. apply in_upto in Hi.
  apply canvasByte_put_outside.
  apply (tiles_disjoint j k); try assumption.
  - apply Z.mod_pos_bound. lia.
  - split; [apply Z.div_pos; [apply Z.div_pos|]; lia|].
    apply Z.div_lt_upper_bound; [lia|]. apply Z.div_lt_upper_bound; lia.
Qed.

(** ** The left-margin scan *)

Lemma leftOpaqueX_cases data :
  (leftOpaqueX data = -1
   /\ forall x y, 0 <= x <= 15 -> 0 <= y <= 15 ->
                  byteOpaque data ((y * 16 + x) * 4 + 3) = false)
  \/ (0 <= leftOpaqueX data <= 15
      /\ (exists y, 0 <= y <= 15
                    /\ byteOpaque data ((y * 16 + leftOpaqueX data) * 4 + 3) = true)
      /\ forall x y, 0 <= x < leftOpaqueX data -> 0 <= y <= 15 ->
                     byteOpaque data ((y * 16 + x) * 4 + 3) = false).
Proof.
  unfold leftOpaqueX. cbv zeta. change (16 - 1) with 15.
  set (p := fun x => existsb (fun y => byteOpaque data ((y * 16 + x) * 4 + 3)) (upto 0 15)).
  destruct (firstHit_upto p 0 15 (-1)) as [[-> Hnone]|(Hr & Hp & Hmin)].
  - left. split; [reflexivity|]. intros x y Hx Hy.
    specialize (Hnone x Hx). unfold p in Hnone.
    rewrite existsb_upto_false in Hnone. apply Hnone, Hy.
  - right. split; [exact Hr|]. split.
    + unfold p in Hp at 1. apply existsb_upto in Hp. exact Hp.
    + intros x y Hx Hy. specialize (Hmin x Hx). unfold p in Hmin.
      rewrite existsb_upto_false in Hmin. apply Hmin, Hy.
Qed.

Lemma leftOpaqueX_le data x y :
  0 <= x <= 15 -> 0 <= y <= 15 ->
  byteOpaque data ((y * 16 + x) * 4 + 3) = true ->
  0 <= leftOpaqueX data <= x.
Proof.
  intros Hx Hy Ho.
  destruct (leftOpaqueX_cases data) as [[_ Hnone]|(Hr & _ & Hmin)].
  - rewrite Hnone in Ho by assumption. discriminate.
  - split; [lia|]. destruct (Z.le_gt_cases (leftOpaqueX data) x) as [|Hgt]; [assumption|].
    rewrite (Hmin x y) in Ho by lia. discriminate.
Qed.

(** ** The shift loops *)

Lemma length_copyPixel src si dst di : length (copyPixel src si dst di) = length dst.
Proof. unfold copyPixel. cbv zeta. rewrite !length_jsStore. reflexivity. Qed.

Lemma copyPixel_inside src si dst di ch :
  0 <= di -> di + 3 < Z.of_nat (length dst) -> 0 <= ch < 4 ->
  jsIndex (copyPixel src si dst di) (di + ch) = Some (default 0 (jsIndex src (si + ch))).
Proof.
  intros Hdi Hlen Hch. unfold copyPixel. cbv zeta.
  assert (Hc : ch = 0 \/ ch = 1 \/ ch = 2 \/ ch = 3) by lia.
  destruct Hc as [-> | [-> | [-> | ->]]]; rewrite ?Z.add_0_r.
  - rewrite !jsIndex_jsStore_ne by lia. apply jsIndex_jsStore_eq. lia.
  - rewrite !jsIndex_jsStore_ne by lia. apply jsIndex_jsStore_eq.
    rewrite !length_jsStore. lia.
  - rewrite !jsIndex_jsStore_ne by lia. apply jsIndex_jsStore_eq.
    rewrite !length_jsStore. lia.
  - apply jsIndex_jsStore_eq. rewrite !length_jsStore. lia.
Qed.

Lemma copyPixel_outside src si dst di j :
  ~ (di <= j < di + 4) ->
  jsIndex (copyPixel src si dst di) j = jsIndex dst j.
Proof.
  intros Hj. unfold copyPixel. cbv zeta. rewrite !jsIndex_jsStore_ne by lia. reflexivity.
Qed.

Lemma length_shiftPixel src shift y dst x :
  length (shiftPixel src shift y dst x) = length dst.
Proof.
  unfold shiftPixel. cbv zeta. destruct (x - shift <? 0); [reflexivity|].
  apply length_copyPixel.
Qed.

(** The step of source pixel [(x, y)] only writes destination pixel
    [(x - shift, y)]. *)
Lemma shiftPixel_other src shift y dst x nx ny ch :
  0 <= ch < 4 -> 0 <= x <= 15 -> 0 <= shift -> 0 <= nx <= 15 ->
  (y <> ny \/ x - shift <> nx) ->
  jsIndex (shiftPixel src shift y dst x) ((ny * 16 + nx) * 4 + ch)
  = jsIndex dst ((ny * 16 + nx) * 4 + ch).
Proof.
  intros Hch Hx Hs Hnx Hne. unfold shiftPixel. cbv zeta.
  destruct (Z.ltb_spec (x - shift) 0); [reflexivity|].
  apply copyPixel_outside. lia.
Qed.

Lemma shiftPixel_hit src shift y dst nx ch :
  0 <= ch < 4 -> 0 <= y <= 15 -> 0 <= nx <= 15 -> 0 <= shift ->
  length dst = 1024%nat ->
  jsIndex (shiftPixel src shift y dst (nx + shift)) ((y * 16 + nx) * 4 + ch)
  = Some (default 0 (jsIndex src ((y * 16 + (nx + shift)) * 4 + ch))).
Proof.
  intros Hch Hy Hnx Hs Hlen. unfold shiftPixel. cbv zeta.
  replace (nx + shift - shift) with nx by lia.
  destruct (Z.ltb_spec nx 0); [lia|].
  apply copyPixel_inside; lia.
Qed.

(** A loop whose steps leave cell [j] alone leaves it alone. *)
Lemma fold_untouched {K} (f : list Z -> K -> list Z) ks d j :
  (forall d k, In k ks -> jsIndex (f d k) j = jsIndex d j) ->
  jsIndex (fold_left f ks d) j = jsIndex d j.
Proof.
  revert d. induction ks as [|k ks IH]; intros d H; simpl; [reflexivity|].
  rewrite IH by (intros; apply H; right; assumption).
  apply H. left. reflexivity.
Qed.

(** A loop with exactly one step [k] that writes cell [j] leaves that
    step's value there. *)
Lemma fold_touched_once {K} (f : list Z -> K -> list Z) ks d j v k n :
  List.NoDup ks -> In k ks ->
  (forall d k', length (f d k') = length d) ->
  (forall d, length d = n -> jsIndex (f d k) j = Some v) ->
  (forall d k', In k' ks -> k' <> k -> jsIndex (f d k') j = jsIndex d j) ->
  length d = n ->
  jsIndex (fold_left f ks d) j = Some v.
Proof.
  intros Hnd. revert d. induction Hnd as [|a ks Ha Hnd IH]; intros d Hin Hlen Hhit Hmiss Hd.
  - destruct Hin.
  - simpl. destruct Hin as [->|Hin].
    + rewrite fold_untouched; [apply Hhit, Hd|].
      intros d' k' Hk'. apply Hmiss; [right; exact Hk'|].
      intros ->. contradiction.
    + apply IH; auto.
      * intros d' k' Hk' Hne. apply Hmiss; [right; exact Hk'|exact Hne].
      * rewrite Hlen. exact Hd.
Qed.

Lemma length_shiftRow src shift y dst :
  length (fold_left (shiftPixel src shift y) (upto 0 15) dst) = length dst.
Proof.
  generalize (upto 0 15). intros l. revert dst.
  induction l as [|x l IH]; intros dst; simpl; [reflexivity|].
  rewrite IH. apply length_shiftPixel.
Qed.

(** Destination pixel [(nx, y)] of the shifted tile holds source pixel
    [(nx + shift, y)] when that column exists. *)
Lemma shiftTile_lookup src shift dst nx y ch :
  0 <= ch < 4 -> 0 <= y <= 15 -> 0 <= nx <= 15 -> 0 <= shift -> nx + shift <= 15 ->
  length dst = 1024%nat ->
  jsIndex (shiftTile src shift dst) ((y * 16 + nx) * 4 + ch)
  = Some (default 0 (jsIndex src ((y * 16 + (nx + shift)) * 4 + ch))).
Proof.
  intros Hch Hy Hnx Hs Hfit Hlen. unfold shiftTile. cbv zeta. change (16 - 1) with 15.
  apply (fold_touched_once _ (upto 0 15) dst _ _ y 1024%nat).
  - apply NoDup_zseq.
  - apply in_upto. lia.
  - intros d y'. apply length_shiftRow.
  - intros d Hd.
    apply (fold_touched_once _ (upto 0 15) d _ _ (nx + shift) 1024%nat).
    + apply NoDup_zseq.
    + apply in_upto. lia.
    + intros d' x'. apply length_shiftPixel.
    + intros d' Hd'. apply shiftPixel_hit; assumption.
    + intros d' x' Hx' Hne. apply in_upto in Hx'.
      apply shiftPixel_other; try lia.
    + exact Hd.
  - intros d y' Hy' Hne. apply fold_untouched.
    intros d' x' Hx'. apply in_upto in Hx'.
    apply shiftPixel_other; try lia.
  - exact Hlen.
Qed.

(** Columns past the shifted content stay transparent black. *)
Lemma shiftTile_vacated src shift dst nx y ch :
  0 <= ch < 4 -> 0 <= y <= 15 -> 0 <= nx <= 15 -> 0 <= shift -> 15 < nx + shift ->
  jsIndex (shiftTile src shift dst) ((y * 16 + nx) * 4 + ch)
  = jsIndex dst ((y * 16 + nx) * 4 + ch).
Proof.
  intros Hch Hy Hnx Hs Hfit. unfold shiftTile. cbv zeta. change (16 - 1) with 15.
  apply fold_untouched. intros d y' Hy'. apply fold_untouched.
  intros d' x' Hx'. apply in_upto in Hx'.
  apply shiftPixel_other; try lia.
Qed.

Lemma length_createImageData : length (createImageData 16 16) = 1024%nat.
Proof. reflexivity. Qed.

(** ** Left-margin normalization *)

Lemma normalizeTile_eq c code :
  normalizeTile c code
  = if leftOpaqueX (glyphTile c code) <=? 1 then c
    else putImageData c
           (shiftTile (glyphTile c code) (leftOpaqueX (glyphTile c code) - 1)
                      (createImageData 16 16))
           16 16 ((code mod grid) * 16) ((code / grid) * 16).
Proof. reflexivity. Qed.

Lemma normalizeTile_other c j k :
  0 <= j <= 255 -> 0 <= k <= 255 -> j <> k ->
  glyphTile (normalizeTile c k) j = glyphTile c j.
Proof.
  intros Hj Hk Hjk. rewrite normalizeTile_eq.
  destruct (_ <=? 1); [reflexivity|].
  apply glyphTile_put_other; assumption.
Qed.

Lemma inCanvas_left c x x' y :
  0 <= x' <= x -> inCanvas c x y = true -> inCanvas c x' y = true.
Proof.
  unfold inCanvas. intros Hx H.
  apply andb_prop in H as [H Hy1]. apply andb_prop in H as [H Hy0].
  apply andb_prop in H as [Hx0 Hx1].
  apply Z.ltb_lt in Hx1, Hy1. apply Z.leb_le in Hx0, Hy0.
  repeat (apply andb_true_intro; split); try apply Z.leb_le; try apply Z.ltb_lt; lia.
Qed.

(** After its step, the tile starts within one pixel of its left edge. *)
Lemma normalizeTile_margin c k :
  0 <= k -> leftOpaqueX (glyphTile (normalizeTile c k) k) <= 1.
Proof.
  intros Hk. rewrite normalizeTile_eq.
  destruct (Z.leb_spec (leftOpaqueX (glyphTile c k)) 1) as [Hle|Hgt]; [exact Hle|].
  set (src := glyphTile c k) in *. set (L := leftOpaqueX src) in *.
  destruct (leftOpaqueX_cases src) as [[Hm _]|(Hr & (y & Hy & Ho) & Hmin)];
    [fold L in Hm; lia|]. fold L in Hr, Ho, Hmin.
  set (x0 := (k mod grid) * 16). set (y0 := (k / grid) * 16).
  assert (Hx0 : 0 <= x0).
  { unfold x0, grid. pose proof (Z.mod_pos_bound k 16). lia. }
  assert (Hin : inCanvas c (x0 + L) (y0 + y) = true).
  { unfold src in Ho. rewrite glyphTile_opaque in Ho by lia. fold x0 y0 in Ho.
    unfold canvasByte in Ho. destruct (inCanvas c (x0 + L) (y0 + y)); [reflexivity|].
    discriminate. }
  apply (leftOpaqueX_le _ 1 y); [lia|lia|].
  rewrite glyphTile_opaque by lia. fold x0 y0.
  rewrite canvasByte_put_inside by lia.
  rewrite (inCanvas_left c (x0 + L) (x0 + 1) (y0 + y)) by (lia || exact Hin).
  rewrite shiftTile_lookup by (try lia; apply length_createImageData).
  replace (1 + (L - 1)) with L by lia.
  unfold byteOpaque in Ho. destruct (jsIndex src ((y * 16 + L) * 4 + 3)); [exact Ho|discriminate].
Qed.

Lemma fold_left_step {A B} (f : A -> B -> A) x l a :
  fold_left f (x :: l) a = fold_left f l (f a x).
Proof. reflexivity. Qed.

(** A pass over tiles that already satisfy the margin changes nothing. *)
Lemma normalize_fixed c codes :
  (forall k, In k codes -> leftOpaqueX (glyphTile c k) <= 1) ->
  fold_left normalizeTile codes c = c.
Proof.
  induction codes as [|k codes IH]; intros H; [reflexivity|]. rewrite fold_left_step.
  assert (Hk : normalizeTile c k = c).
  { rewrite normalizeTile_eq.
    destruct (Z.leb_spec (leftOpaqueX (glyphTile c k)) 1) as [|Hgt]; [reflexivity|].
    specialize (H k (or_introl eq_refl)). lia. }
  rewrite Hk. apply IH. intros k' Hk'. apply H. right. exact Hk'.
Qed.

Lemma normalize_fold_other c codes j :
  0 <= j <= 255 -> (forall k, In k codes -> 0 <= k <= 255) -> ~ In j codes ->
  glyphTile (fold_left normalizeTile codes c) j = glyphTile c j.
Proof.
  intros Hj. revert c.
  induction codes as [|k codes IH]; intros c Hr Hnin; [reflexivity|]. rewrite fold_left_step.
  rewrite IH.
  - apply normalizeTile_other; [exact Hj|apply Hr; left; reflexivity|].
    intros ->. apply Hnin. left. reflexivity.
  - intros k' Hk'. apply Hr. right. exact Hk'.
  - intros Hin. apply Hnin. right. exact Hin.
Qed.

Lemma normalize_fold_margin c codes :
  List.NoDup codes -> (forall k, In k codes -> 0 <= k <= 255) ->
  forall j, In j codes -> leftOpaqueX (glyphTile (fold_left normalizeTile codes c) j) <= 1.
Proof.
  intros Hnd. revert c. induction Hnd as [|k codes Hk Hnd IH]; intros c Hr j Hj.
  - destruct Hj.
  - rewrite fold_left_step. destruct Hj as [->|Hj].
    + rewrite normalize_fold_other.
      * apply normalizeTile_margin. specialize (Hr j (or_introl eq_refl)). lia.
      * apply Hr. left. reflexivity.
      * intros k' Hk'. apply Hr. right. exact Hk'.
      * exact Hk.
    + apply IH; [|exact Hj]. intros k' Hk'. apply Hr. right. exact Hk'.
Qed.

(** C5. Left-margin normalization is idempotent: a second pass returns the
    canvas of the first pass unchanged, because after one pass every tile
    32..126 that has an opaque pixel has its first opaque column at 0
    or 1. *)
Theorem normalizeGlyph00LeftMargins_idempotent c :
  _normalizeGlyph00LeftMargins (_normalizeGlyph00LeftMargins c)
  = _normalizeGlyph00LeftMargins c
  /\ forall code, 32 <= code <= 126 ->
       let data := glyphTile (_normalizeGlyph00LeftMargins c) code in
       (exists x y, 0 <= x <= 15 /\ 0 <= y <= 15
                    /\ byteOpaque data ((y * 16 + x) * 4 + 3) = true) ->
       (leftOpaqueX data = 0 \/ leftOpaqueX data = 1)
       /\ (exists y, 0 <= y <= 15
                     /\ byteOpaque data ((y * 16 + leftOpaqueX data) * 4 + 3) = true)
       /\ (forall x y, 0 <= x < leftOpaqueX data -> 0 <= y <= 15 ->
                       byteOpaque data ((y * 16 + x) * 4 + 3) = false).
Proof.
  assert (Hmargin : forall code, 32 <= code <= 126 ->
            leftOpaqueX (glyphTile (_normalizeGlyph00LeftMargins c) code) <= 1).
  { intros code Hcode. unfold _normalizeGlyph00LeftMargins. cbv zeta.
    apply normalize_fold_margin.
    - apply NoDup_zseq.
    - intros k Hk%in_upto. lia.
    - apply in_upto. exact Hcode. }
  split.
  - unfold _normalizeGlyph00LeftMargins at 1. cbv zeta.
    apply normalize_fixed. intros k Hk%in_upto. apply Hmargin, Hk.
  - intros code Hcode data (x & y & Hx & Hy & Ho).
    specialize (Hmargin code Hcode). fold data in Hmargin.
    destruct (leftOpaqueX_cases data) as [[_ Hnone]|(Hr & Hex & Hmin)].
    + rewrite Hnone in Ho by assumption. discriminate.
    + split; [lia|]. split; assumption.
Qed.

(** ** Mode resolution and page discovery *)

Lemma forallb_isAscii text :
  forallb isAsciiCode (codePoints text) = true <-> allAscii text.
Proof.
  unfold allAscii. rewrite forallb_forall. split; intros H cp Hcp.
  - apply list_elem_of_In in Hcp. apply H in Hcp. unfold isAsciiCode in Hcp. lia.
  - apply list_elem_of_In in Hcp. apply H in Hcp. unfold isAsciiCode. lia.
Qed.

Lemma forallb_false_witness {A} (p : A -> bool) l :
  forallb p l = false -> exists x, In x l /\ p x = false.
Proof.
  induction l as [|a l IH]; simpl; [discriminate|].
  destruct (p a) eqn:Hpa; simpl.
  - intros H. destruct (IH H) as (x & Hin & Hx). exists x. auto.
  - intros _. exists a. auto.
Qed.

Lemma forallb_isAscii_false text :
  forallb isAsciiCode (codePoints text) = false <-> hasNonAscii text.
Proof.
  split.
  - intros H. apply forallb_false_witness in H. destruct H as (cp & Hin & Hcp).
    exists cp. split; [apply list_elem_of_In, Hin|].
    unfold isAsciiCode in Hcp. lia.
  - intros (cp & Hin & Hcp). destruct (forallb isAsciiCode (codePoints text)) eqn:Hall; [|reflexivity].
    apply forallb_isAscii in Hall. specialize (Hall cp Hin). lia.
Qed.

Lemma existsb_nonAscii text :
  existsb (fun cp => negb (isAsciiCode cp)) (codePoints text) = true <-> hasNonAscii text.
Proof.
  unfold hasNonAscii. rewrite existsb_exists. split; intros (cp & Hin & Hcp); exists cp.
  - split; [apply list_elem_of_In, Hin|]. unfold isAsciiCode in Hcp. lia.
  - split; [apply list_elem_of_In, Hin|]. unfold isAsciiCode.
    destruct (Z.leb_spec cp 127); [lia|reflexivity].
Qed.

Lemma resolveMode_auto_nonAscii text :
  hasNonAscii text -> resolveMode "auto" text = Some false.
Proof. intros H. unfold resolveMode. simpl. f_equal. apply forallb_isAscii_false, H. Qed.

Lemma resolveMode_auto_ascii text :
  allAscii text -> resolveMode "auto" text = Some true.
Proof. intros H. unfold resolveMode. simpl. f_equal. apply forallb_isAscii, H. Qed.

(** The loop adding [codeHi] of every code point. *)
Lemma need_all_pages (cps : list Z) (need0 : gset string) hi :
  hi ∈ fold_left (fun need cp => need ∪ {[codeHi cp]}) cps need0
  <-> hi ∈ need0 \/ exists cp, cp ∈ cps /\ hi = codeHi cp.
Proof.
  revert need0. induction cps as [|cp cps IH]; intros need0; simpl.
  - split; [auto|]. intros [H|(cp & Hcp & _)]; [exact H|]. inversion Hcp.
  - rewrite IH. rewrite elem_of_union, elem_of_singleton. split.
    + intros [[H| ->]|(cp' & Hin & ->)]; [left; exact H|right..].
      * exists cp. split; [left|reflexivity].
      * exists cp'. split; [right; exact Hin|reflexivity].
    + intros [H|(cp' & Hin & ->)]; [left; left; exact H|].
      apply elem_of_cons in Hin as [->|Hin]; [left; right; reflexivity|].
      right. exists cp'. auto.
Qed.

(** The loop adding [codeHi] of the non-ASCII code points only. *)
Lemma need_wide_pages (cps : list Z) (need0 : gset string) hi :
  hi ∈ fold_left (fun need cp => if negb (isAsciiCode cp) then need ∪ {[codeHi cp]} else need)
                 cps need0
  <-> hi ∈ need0 \/ exists cp, cp ∈ cps /\ 0x7F < cp /\ hi = codeHi cp.
Proof.
  revert need0. induction cps as [|cp cps IH]; intros need0; simpl.
  - split; [auto|]. intros [H|(cp & Hcp & _)]; [exact H|]. inversion Hcp.
  - rewrite IH. unfold isAsciiCode at 1. destruct (Z.leb_spec cp 127) as [Hle|Hgt]; simpl.
    + split.
      * intros [H|(cp' & Hin & Hw & ->)]; [left; exact H|].
        right. exists cp'. split; [right; exact Hin|auto].
      * intros [H|(cp' & Hin & Hw & ->)]; [left; exact H|].
        apply elem_of_cons in Hin as [->|Hin]; [lia|]. right. exists cp'. auto.
    + rewrite elem_of_union, elem_of_singleton. split.
      * intros [[H| ->]|(cp' & Hin & Hw & ->)]; [left; exact H|right..].
        -- exists cp. split; [left|split; [lia|reflexivity]].
        -- exists cp'. split; [right; exact Hin|auto].
      * intros [H|(cp' & Hin & Hw & ->)]; [left; left; exact H|].
        apply elem_of_cons in Hin as [->|Hin]; [left; right; reflexivity|].
        right. exists cp'. auto.
Qed.

Lemma neededPages_forced m text :
  forcedGlyph m (resolveMode m text) = true ->
  forall hi, hi ∈ neededPages m text
             <-> hi = "00"%string \/ exists cp, cp ∈ codePoints text /\ hi = codeHi cp.
Proof.
  intros Hf hi. unfold neededPages. cbv zeta. rewrite Hf.
  rewrite need_all_pages, elem_of_singleton. reflexivity.
Qed.

Lemma neededPages_mixed text hi :
  hi ∈ neededPages "mixed" text
  <-> exists cp, cp ∈ codePoints text /\ 0x7F < cp /\ hi = codeHi cp.
Proof.
  unfold neededPages. simpl. rewrite need_wide_pages. split.
  - intros [H|H]; [|exact H]. apply not_elem_of_empty in H. destruct H.
  - intros H. right. exact H.
Qed.

(** ** Loading the needed pages *)

Lemma ensure_fold_spec load (glyphs0 : gmap string pack) (l : list string) g' :
  foldr (fun hi acc =>
           match acc with
           | None => None
           | Some g =>
               match glyphs0 !! hi with
               | Some _ => Some g
               | None => match load hi with
                         | Some p => Some (<[hi := p]> g)
                         | None => None
                         end
               end
           end) (Some glyphs0) l = Some g' ->
  (forall hi, hi ∈ l -> is_Some (g' !! hi))
  /\ (forall hi p, glyphs0 !! hi = Some p -> g' !! hi = Some p).
Proof.
  revert g'. induction l as [|hi l IH]; intros g'; simpl.
  - intros [= <-]. split; [intros hi H; inversion H|auto].
  - destruct (foldr _ _ l) as [g|] eqn:Hrest; [|discriminate].
    destruct (IH g eq_refl) as [Hall Hkeep].
    destruct (glyphs0 !! hi) as [p0|] eqn:Hhi.
    + intros [= <-]. split; [|exact Hkeep].
      intros hi' Hin. apply elem_of_cons in Hin as [->|Hin]; [|apply Hall, Hin].
      rewrite (Hkeep _ _ Hhi). eauto.
    + destruct (load hi) as [p|]; [|discriminate]. intros [= <-]. split.
      * intros hi' Hin. destruct (decide (hi' = hi)) as [->|Hne].
        -- rewrite lookup_insert_eq. eauto.
        -- rewrite lookup_insert_ne by congruence.
           apply elem_of_cons in Hin as [->|Hin]; [congruence|apply Hall, Hin].
      * intros hi' p' Hp'. rewrite lookup_insert_ne by congruence. apply Hkeep, Hp'.
Qed.

Lemma ensure_fold_total load (glyphs0 : gmap string pack) (l : list string) :
  (forall hi, hi ∈ l -> glyphs0 !! hi = None -> is_Some (load hi)) ->
  is_Some (foldr (fun hi acc =>
           match acc with
           | None => None
           | Some g =>
               match glyphs0 !! hi with
               | Some _ => Some g
               | None => match load hi with
                         | Some p => Some (<[hi := p]> g)
                         | None => None
                         end
               end
           end) (Some glyphs0) l).
Proof.
  induction l as [|hi l IH]; intros H; simpl; [eauto|].
  destruct IH as [g ->]; [intros hi' Hin; apply H; right; exact Hin|].
  destruct (glyphs0 !! hi) eqn:Hhi; [eauto|].
  destruct (H hi (list_elem_of_here _ _) Hhi) as [p ->]. eauto.
Qed.

Lemma ensureGlyphPacks_loaded load glyphs0 need g' :
  _ensureGlyphPacks load glyphs0 need = Some g' ->
  (forall hi, hi ∈ need -> is_Some (g' !! hi))
  /\ (forall hi p, glyphs0 !! hi = Some p -> g' !! hi = Some p).
Proof.
  intros H. apply ensure_fold_spec in H. destruct H as [Hall Hkeep].
  split; [|exact Hkeep]. intros hi Hin. apply Hall, elem_of_elements, Hin.
Qed.

Lemma ensureGlyphPacks_total load glyphs0 need :
  (forall hi, hi ∈ need -> glyphs0 !! hi = None -> is_Some (load hi)) ->
  is_Some (_ensureGlyphPacks load glyphs0 need).
Proof.
  intros H. apply ensure_fold_total. intros hi Hin. apply H, elem_of_elements, Hin.
Qed.

(** ** The layout only depends on the mode through [defaultOnly] and [hasGlyph] *)

Lemma emitStep_withMode text o m asciiPack glyphMap quotes :
  resolveMode m text = resolveMode (mode o) text ->
  hasGlyph text (withMode o m) = hasGlyph text o ->
  forall s i,
    emitStep text (withMode o m) asciiPack glyphMap quotes s i
    = emitStep text o asciiPack glyphMap quotes s i.
Proof.
  intros Hres Hhas s i.
  unfold emitStep, spaceAdvance, pushAscii, pushGlyph, asciiSpaceAdvance,
    glyphSpaceAdvance, dp, refCenter, defaultOnly.
  rewrite Hhas. cbn [withMode mode scale ds spaceMul spacingMul baseline lockLineH
                       glyphTrackPx asciiAfterGlyphPadPx].
  rewrite Hres. reflexivity.
Qed.

Lemma fold_left_ext_eq {A B} (f g : A -> B -> A) l a :
  (forall a b, f a b = g a b) -> fold_left f l a = fold_left g l a.
Proof.
  intros H. revert a. induction l as [|b l IH]; intros a; simpl; [reflexivity|].
  rewrite H. apply IH.
Qed.

Lemma emitAll_withMode text o m asciiPack glyphMap quotes :
  resolveMode m text = resolveMode (mode o) text ->
  hasGlyph text (withMode o m) = hasGlyph text o ->
  emitAll text (withMode o m) asciiPack glyphMap quotes
  = emitAll text o asciiPack glyphMap quotes.
Proof.
  intros Hres Hhas. unfold emitAll, penAfter.
  apply fold_left_ext_eq. apply emitStep_withMode; assumption.
Qed.

Lemma draw_withMode load r text o m :
  resolveMode m text = resolveMode (mode o) text ->
  hasGlyph text (withMode o m) = hasGlyph text o ->
  forcedGlyph m (resolveMode m text) = forcedGlyph (mode o) (resolveMode (mode o) text) ->
  draw load r text (withMode o m) = draw load r text o.
Proof.
  intros Hres Hhas Hforced. unfold draw.
  destruct (ascii r) as [asciiPack|]; [|reflexivity].
  assert (Hneed : neededPages (mode (withMode o m)) text = neededPages (mode o) text).
  { unfold neededPages. cbn [withMode mode]. cbv zeta. rewrite Hforced, Hres. reflexivity. }
  rewrite Hneed.
  destruct (_ensureGlyphPacks load (glyphs r) (neededPages (mode o) text)) as [glyphMap|];
    [|reflexivity].
  rewrite emitAll_withMode by assumption.
  f_equal. f_equal.
  - unfold lineH, dp, defaultOnly. cbn [withMode mode scale ds lockLineH]. rewrite Hres. reflexivity.
  - unfold refCenter. rewrite Hhas. reflexivity.
Qed.

(** C1 (as amended). Mode resolution for mode 'auto': a text with a
    character above the ASCII range is laid out exactly as mode 'glyph'
    (wide-only) lays it out, every character routed through the wide
    atlases; an all-ASCII text is laid out exactly as mode 'default'
    (ascii-only) lays it out. *)
Theorem auto_mode_resolution load r text o :
  mode o = "auto"%string ->
  (hasNonAscii text -> draw load r text o = draw load r text (withMode o "glyph"))
  /\ (allAscii text -> draw load r text o = draw load r text (withMode o "default")).
Proof.
  intros Hmode. split; intros Htext; symmetry; apply draw_withMode.
  - rewrite Hmode, resolveMode_auto_nonAscii by exact Htext. reflexivity.
  - unfold hasGlyph, defaultOnly. cbn [withMode mode]. rewrite Hmode.
    rewrite resolveMode_auto_nonAscii by exact Htext. reflexivity.
  - rewrite Hmode, resolveMode_auto_nonAscii by exact Htext. reflexivity.
  - rewrite Hmode, resolveMode_auto_ascii by exact Htext. reflexivity.
  - unfold hasGlyph, defaultOnly. cbn [withMode mode]. rewrite Hmode.
    rewrite resolveMode_auto_ascii by exact Htext. reflexivity.
  - rewrite Hmode, resolveMode_auto_ascii by exact Htext. reflexivity.
Qed.

Lemma sample_text_nonAscii : hasNonAscii [0x41; 0xAC00].
Proof. exists 0xAC00. split; [|lia]. simpl. right. left. Qed.

Lemma auto_mode_resolution_witness :
  draw sampleLoad sampleRenderer [0x41; 0xAC00] defaultOpts
  = draw sampleLoad sampleRenderer [0x41; 0xAC00] (withMode defaultOpts "glyph")
  /\ draw sampleLoad sampleRenderer [0x41; 0x42] defaultOpts
     = draw sampleLoad sampleRenderer [0x41; 0x42] (withMode defaultOpts "default").
Proof.
  split.
  - apply (proj1 (auto_mode_resolution sampleLoad sampleRenderer [0x41; 0xAC00]
                    defaultOpts eq_refl)).
    exact sample_text_nonAscii.
  - apply (proj2 (auto_mode_resolution sampleLoad sampleRenderer [0x41; 0x42]
                    defaultOpts eq_refl)).
    intros cp Hcp. simpl in Hcp.
    apply elem_of_cons in Hcp as [->|Hcp]; [lia|].
    apply elem_of_cons in Hcp as [->|Hcp]; [lia|]. inversion Hcp.
Defined.

(** Mode 'auto' is not mode 'mixed' on a text with a wide character: for
    the letter A followed by U+AC00 the 'auto' call draws A as a wide glyph
    and ends at pen 52, the 'mixed' call draws it from the ASCII atlas and
    ends at pen 42. *)
Lemma auto_is_not_mixed :
  hasNonAscii [0x41; 0xAC00]
  /\ draw sampleLoad sampleRenderer [0x41; 0xAC00] defaultOpts
     <> draw sampleLoad sampleRenderer [0x41; 0xAC00] (withMode defaultOpts "mixed").
Proof.
  split; [exact sample_text_nonAscii|]. intros H.
  apply (f_equal (fun oc => match oc with Drawn _ l => l_penX l | _ => 0 end)) in H.
  change (52 = 42) in H. discriminate.
Qed.

(** C2 (as amended). Page discovery: when [this.ascii] is loaded and the
    needed pages load, the draw call requests its page set and has every
    page of it loaded before the quads are laid out; in forced-wide
    rendering (mode 'glyph', or 'auto' with a non-ASCII character) the set
    holds page '00' and the high byte of every code point of the text; in
    mode 'mixed' it holds the high byte of every non-ASCII code point. *)
Theorem page_discovery load r text o asciiPack :
  ascii r = Some asciiPack ->
  (forall hi, hi ∈ neededPages (mode o) text -> glyphs r !! hi = None -> is_Some (load hi)) ->
  exists r' l,
    draw load r text o = Drawn r' l
    /\ l_need l = neededPages (mode o) text
    /\ (forall hi, hi ∈ l_need l -> is_Some (glyphs r' !! hi))
    /\ l_spans l = spans (emitAll text o asciiPack (glyphs r') (quoteAlt r))
    /\ (mode o = "glyph"%string \/ (mode o = "auto"%string /\ hasNonAscii text) ->
        "00"%string ∈ l_need l
        /\ forall cp, cp ∈ codePoints text -> codeHi cp ∈ l_need l)
    /\ (mode o = "mixed"%string ->
        (forall cp, cp ∈ codePoints text -> 0x7F < cp -> codeHi cp ∈ l_need l)
        /\ ("00"%string ∈ l_need l ->
            exists cp, cp ∈ codePoints text /\ 0x7F < cp /\ codeHi cp = "00"%string)).
Proof.
  intros Hascii Hload. unfold draw. rewrite Hascii.
  destruct (ensureGlyphPacks_total load (glyphs r) (neededPages (mode o) text) Hload)
    as [glyphMap Hens].
  rewrite Hens. eexists _, _. split; [reflexivity|]. cbn [l_need l_spans glyphs].
  split; [reflexivity|]. split; [|split; [reflexivity|split]].
  - apply (ensureGlyphPacks_loaded _ _ _ _ Hens).
  - intros Hforced.
    assert (Hf : forcedGlyph (mode o) (resolveMode (mode o) text) = true).
    { destruct Hforced as [->|[-> Hna]]; [reflexivity|].
      rewrite resolveMode_auto_nonAscii by exact Hna. reflexivity. }
    split.
    + apply (neededPages_forced _ _ Hf). left. reflexivity.
    + intros cp Hcp. apply (neededPages_forced _ _ Hf). right. exists cp. auto.
  - intros ->. split.
    + intros cp Hcp Hwide. apply neededPages_mixed. exists cp. auto.
    + intros H00. apply neededPages_mixed in H00.
      destruct H00 as (cp & Hcp & Hwide & Heq). exists cp. auto.
Qed.

Lemma page_discovery_witness :
  ascii sampleRenderer = Some sampleAscii
  /\ exists r' l,
       draw sampleLoad sampleRenderer [0x41; 0xAC00] defaultOpts = Drawn r' l
       /\ "00"%string ∈ l_need l
       /\ "AC"%string ∈ l_need l
       /\ is_Some (glyphs r' !! "AC"%string).
Proof.
  split; [reflexivity|].
  destruct (page_discovery sampleLoad sampleRenderer [0x41; 0xAC00] defaultOpts sampleAscii
              eq_refl (fun hi _ _ => ex_intro _ _ eq_refl))
    as (r' & l & Hdraw & _ & Hloaded & _ & Hforced & _).
  destruct (Hforced (or_intror (conj eq_refl sample_text_nonAscii))) as [H00 Hall].
  assert (HAC : "AC"%string ∈ l_need l).
  { apply (Hall 0xAC00). simpl. right. left. }
  exists r', l. split; [exact Hdraw|]. split; [exact H00|]. split; [exact HAC|].
  apply Hloaded, HAC.
Defined.

(** In mode 'mixed' a text with a wide character does not request page
    '00'. *)
Lemma mixed_skips_page00 :
  hasNonAscii [0xAC00]
  /\ (exists r' l,
        draw sampleLoad sampleRenderer [0xAC00] (withMode defaultOpts "mixed") = Drawn r' l
        /\ elements (l_need l) = ["AC"%string]
        /\ glyphs r' !! "00"%string = None)
  /\ "00"%string ∉ neededPages "mixed" [0xAC00].
Proof.
  split; [|split].
  - exists 0xAC00. split; [left|lia].
  - eexists _, _. split; [reflexivity|]. split; vm_compute; reflexivity.
  - intros H. apply neededPages_mixed in H. destruct H as (cp & Hcp & _ & Heq).
    simpl in Hcp. apply elem_of_cons in Hcp as [->|Hcp]; [|inversion Hcp].
    vm_compute in Heq. discriminate.
Qed.

(** ** The emission loop, one position at a time *)

Section Loop.
Variable text : list Z.
Variable o : opts.
Variable asciiPack : pack.
Variable glyphMap : gmap string pack.
Variable quotes : gmap Z quotePack.

Local Abbreviation penAt := (penAfter text o asciiPack glyphMap quotes).
Local Abbreviation step := (emitStep text o asciiPack glyphMap quotes).

Lemma penAfter_S n : penAt (S n) = step (penAt n) n.
Proof. unfold penAfter. rewrite seq_S, fold_left_app. reflexivity. Qed.

Lemma codePointAt_Some_lt i cp : codePointAt text i = Some cp -> (i < length text)%nat.
Proof.
  unfold codePointAt. destruct (text !! i) eqn:Hi; [|discriminate].
  intros _. eapply lookup_lt_Some, Hi.
Qed.

Lemma codePointAt_lt_Some i : (i < length text)%nat -> is_Some (codePointAt text i).
Proof.
  intros Hi. unfold codePointAt. destruct (lookup_lt_is_Some_2 text i Hi) as [u ->].
  destruct (isHighSurrogate u); [|eauto].
  destruct (text !! S i) as [v|]; [|eauto]. destruct (isLowSurrogate v); eauto.
Qed.

Lemma emitStep_space s i :
  codePointAt text i = Some 32 ->
  step s i = {| spans := spans s;
                penX := penX s + spaceAdvance text o asciiPack glyphMap i;
                prevKind := None;
                dqCount := dqCount s;
                sqCount := sqCount s |}.
Proof. intros H. unfold emitStep. rewrite H. reflexivity. Qed.

Lemma emitStep_char s i cp :
  codePointAt text i = Some cp -> cp <> 32 ->
  step s i = if routedAscii (defaultOnly text o) cp
             then pushAscii text o asciiPack glyphMap quotes cp s
             else pushGlyph text o asciiPack glyphMap cp s.
Proof.
  intros H Hne. unfold emitStep. rewrite H.
  destruct (Z.eqb_spec cp 32); [contradiction|].
  unfold routedAscii. destruct (defaultOnly text o) as [[|]|]; reflexivity.
Qed.

(** ** Neighbours of a space *)

Lemma pointsAt_snoc l i :
  pointsAt text (l ++ [i])
  = pointsAt text l ++ match codePointAt text i with Some c => [c] | None => [] end.
Proof. unfold pointsAt. rewrite omap_app. simpl. reflexivity. Qed.

Lemma findPrev_nearestLeft i :
  (i <= length text)%nat -> findPrev text i = nearestLeft text i.
Proof.
  induction i as [|j IH]; intros Hi; [reflexivity|].
  unfold nearestLeft. rewrite seq_S, pointsAt_snoc. simpl.
  destruct (codePointAt_lt_Some j) as [c2 Hc2]; [lia|]. rewrite Hc2.
  rewrite filter_app. destruct (Z.eqb_spec c2 32) as [->|Hne].
  - rewrite filter_cons_False by (intros H; apply H; reflexivity).
    rewrite filter_nil, app_nil_r. apply IH. lia.
  - rewrite filter_cons_True by exact Hne. rewrite filter_nil, last_snoc. reflexivity.
Qed.

Lemma findNextFrom_head j n :
  (j + n <= length text)%nat ->
  findNextFrom text j n = head (filter (fun c => c <> 32) (pointsAt text (seq j n))).
Proof.
  revert j. induction n as [|n IH]; intros j Hj; [reflexivity|].
  simpl. destruct (codePointAt_lt_Some j) as [c2 Hc2]; [lia|].
  unfold pointsAt. simpl. rewrite Hc2. fold (pointsAt text (seq (S j) n)).
  destruct (Z.eqb_spec c2 32) as [->|Hne].
  - rewrite filter_cons_False by (intros H; apply H; reflexivity). apply IH. lia.
  - rewrite filter_cons_True by exact Hne. reflexivity.
Qed.

Lemma findNext_nearestRight i :
  (i < length text)%nat -> findNext text i = nearestRight text i.
Proof. intros Hi. unfold findNext, nearestRight. apply findNextFrom_head. lia. Qed.

(** C8. Mixed-mode space advance.  A space laid out in mode 'mixed'
    advances the pen by the ASCII atlas's space advance (entry 32 or the
    default 9, at the ASCII scale [ds] in device pixels) times
    [spaceMul] when the nearest non-space characters on both sides exist
    and are ASCII, and otherwise by the wide page 00's space advance
    (entry 32, or the default 17 when the page or the entry is missing)
    times [spaceMul]; it emits no quad and resets the previous-kind
    tracker. *)
Theorem mixed_space_advance i :
  mode o = "mixed"%string ->
  codePointAt text i = Some 32 ->
  let asciiSpace :=
    match jsIndex (adv asciiPack) 32 with Some a => Z.of_N a | None => 9 end in
  let wideSpace :=
    match glyphMap !! "00"%string with
    | Some g00 => match jsIndex (adv g00) 32 with Some a => Z.of_N a | None => 17 end
    | None => 17
    end in
  let bothAscii :=
    match nearestLeft text i, nearestRight text i with
    | Some p, Some n => (p <=? 0x7F) && (n <=? 0x7F)
    | _, _ => false
    end in
  penX (penAt (S i))
  = penX (penAt i)
    + (if bothAscii
       then Math_round (inject_Z (Math_round (inject_Z asciiSpace * ds o * scale o))
                        * spaceMul o)
       else Math_round (inject_Z (Math_round (inject_Z wideSpace * scale o))
                        * spaceMul o))
  /\ spans (penAt (S i)) = spans (penAt i)
  /\ prevKind (penAt (S i)) = None.
Proof.
  intros Hmode Hsp. cbv zeta. rewrite penAfter_S, emitStep_space by exact Hsp.
  cbn [penX spans prevKind]. split; [|split; reflexivity].
  f_equal. unfold spaceAdvance, defaultOnly, resolveMode. rewrite Hmode. simpl String.eqb.
  cbv iota zeta.
  rewrite findPrev_nearestLeft by (apply codePointAt_Some_lt in Hsp; lia).
  rewrite findNext_nearestRight by (eapply codePointAt_Some_lt, Hsp).
  unfold presentAscii, isAsciiCode.
  destruct (nearestLeft text i) as [p|], (nearestRight text i) as [n|]; simpl;
    try destruct (p <=? 127); try destruct (n <=? 127); reflexivity.
Qed.

(** ** The page of a wide character *)

Lemma hexValue_hexDigit d : 0 <= d < 16 -> hexValue (hexDigit d) = Some d.
Proof.
  intros Hd.
  assert (Hcases : d = 0 \/ d = 1 \/ d = 2 \/ d = 3 \/ d = 4 \/ d = 5 \/ d = 6 \/ d = 7
                   \/ d = 8 \/ d = 9 \/ d = 10 \/ d = 11 \/ d = 12 \/ d = 13 \/ d = 14
                   \/ d = 15) by lia.
  repeat (destruct Hcases as [-> | Hcases]; [reflexivity|]). subst d. reflexivity.
Qed.

Lemma highByte_spec cp : Z.land (Z.shiftr cp 8) 0xFF = (cp / 256) mod 256.
Proof.
  change 0xFF with (Z.ones 8). rewrite Z.land_ones by lia.
  rewrite Z.shiftr_div_pow2 by lia. reflexivity.
Qed.

(** The id [codeHi] builds names bits 8..15 of the code point. *)
Lemma codeHi_pageByte cp : pageByte (codeHi cp) = Some ((cp / 256) mod 256).
Proof.
  unfold codeHi. cbv zeta. rewrite highByte_spec.
  set (b := (cp / 256) mod 256).
  assert (Hb : 0 <= b < 256) by (apply Z.mod_pos_bound; lia).
  unfold pageByte.
  rewrite !hexValue_hexDigit
    by (split; [apply Z.div_pos || apply Z.mod_pos_bound|
                apply Z.div_lt_upper_bound || apply Z.mod_pos_bound]; lia).
  f_equal. symmetry. apply Z.div_mod. lia.
Qed.

Lemma codeHi_length cp : String.length (codeHi cp) = 2%nat.
Proof. reflexivity. Qed.

Lemma lowByte_range cp : 0 <= Z.land cp 0xFF < 256.
Proof.
  change 0xFF with (Z.ones 8). rewrite Z.land_ones by lia.
  apply Z.mod_pos_bound. lia.
Qed.

(** A table of 256 entries has an entry for every low byte. *)
Lemma full_table_entry (table : list N) cp :
  length table = 256%nat -> exists a, jsIndex table (Z.land cp 0xFF) = Some a.
Proof.
  intros Hlen. pose proof (lowByte_range cp) as Hlo.
  unfold jsIndex. destruct (Z.ltb_spec (Z.land cp 255) 0) as [Hneg|_]; [lia|].
  apply lookup_lt_is_Some_2. lia.
Qed.

(** C9. Wide-glyph soft fallback.  A character routed to the wide
    atlases is drawn from the page registered under the id of its high
    byte (the two upper-case hexadecimal digits that name bits 8..15 of
    the code point), else from the registered page '00', else from the
    ASCII atlas, at tile [(lo mod 16, lo / 16)] for [lo = code & 0xFF].
    The pen then advances by the atlas's entry for [lo], which a table of
    256 entries always has, and by the default 17 when that entry is
    missing. *)
Theorem wide_glyph_fallback i cp :
  codePointAt text i = Some cp ->
  cp <> 32 ->
  routedAscii (defaultOnly text o) cp = false ->
  let hi := codeHi cp in
  let lo := Z.land cp 0xFF in
  let pk :=
    match glyphMap !! hi with
    | Some p => p
    | None => match glyphMap !! "00"%string with
              | Some g00 => g00
              | None => asciiPack
              end
    end in
  pageByte hi = Some ((cp / 256) mod 256)
  /\ String.length hi = 2%nat
  /\ 0 <= lo < 256
  /\ exists q,
       spans (penAt (S i)) = spans (penAt i) ++ [q]
       /\ q_pack q = FromAtlas pk
       /\ quadUV q = tileUV 16 (lo mod 16) (lo / 16) (w pk) (h pk)
       /\ penX (penAt (S i))
          = q_x q
            + Math_round
                (inject_Z (Math_round
                             (inject_Z (match jsIndex (adv pk) lo with
                                        | Some a => Z.of_N a
                                        | None => 17
                                        end) * scale o))
                 * spacingMul o)
       /\ (jsIndex (adv pk) lo = None ->
           penX (penAt (S i))
           = q_x q + Math_round (inject_Z (Math_round (17 * scale o)) * spacingMul o))
       /\ (length (adv pk) = 256%nat ->
           exists a, jsIndex (adv pk) lo = Some a
                     /\ penX (penAt (S i))
                        = q_x q
                          + Math_round
                              (inject_Z (Math_round (inject_Z (Z.of_N a) * scale o))
                               * spacingMul o)).
Proof.
  intros Hcp Hne Hwide. cbv zeta.
  split; [apply codeHi_pageByte|]. split; [reflexivity|].
  split; [apply lowByte_range|].
  rewrite penAfter_S, (emitStep_char _ _ _ Hcp Hne), Hwide.
  unfold pushGlyph, pushQuad. cbv zeta. cbn [spans penX].
  eexists. split; [reflexivity|]. cbn [q_pack q_x quadUV q_u0 q_v0 q_u1 q_v1].
  split; [reflexivity|]. split; [reflexivity|]. split; [reflexivity|].
  unfold advOr, glyphPackFor, glyph00, codeLo. split.
  - intros Hmiss. rewrite Hmiss. reflexivity.
  - intros Hlen. destruct (full_table_entry _ cp Hlen) as [a Ha].
    exists a. split; [exact Ha|]. rewrite Ha. reflexivity.
Qed.

(** ** Quote counters *)

Lemma occurrences_S c n :
  occurrences text c (S n)
  = occurrences text c n + (if decide (codePointAt text n = Some c) then 1 else 0).
Proof.
  unfold occurrences. rewrite seq_S, filter_app, length_app. simpl.
  destruct (decide (codePointAt text n = Some c)) as [He|Hne].
  - rewrite filter_cons_True by exact He. simpl. lia.
  - rewrite filter_cons_False by exact Hne. simpl. lia.
Qed.

Lemma pushAscii_counters cp s :
  defaultOnly text o <> Some false ->
  dqCount (pushAscii text o asciiPack glyphMap quotes cp s)
  = dqCount s + (if cp =? 34 then 1 else 0)
  /\ sqCount (pushAscii text o asciiPack glyphMap quotes cp s)
     = sqCount s + (if cp =? 39 then 1 else 0).
Proof.
  intros Hmode. unfold pushAscii, quoteSwap. cbv zeta.
  destruct (defaultOnly text o) as [[|]|]; [|contradiction|];
    destruct (Z.eqb_spec cp 34) as [->|H34]; simpl; try (split; lia);
    destruct (Z.eqb_spec cp 39) as [->|H39]; simpl; split; lia.
Qed.

Lemma quote_counters n :
  defaultOnly text o <> Some false ->
  dqCount (penAt n) = occurrences text 34 n
  /\ sqCount (penAt n) = occurrences text 39 n.
Proof.
  intros Hmode. induction n as [|n [IHd IHs]]; [split; reflexivity|].
  rewrite penAfter_S, !occurrences_S.
  destruct (codePointAt text n) as [cp|] eqn:Hcp.
  - destruct (Z.eq_dec cp 32) as [->|Hne].
    + rewrite emitStep_space by exact Hcp. cbn [dqCount sqCount].
      rewrite !decide_False by congruence. split; lia.
    + rewrite (emitStep_char _ _ _ Hcp Hne).
      destruct (routedAscii (defaultOnly text o) cp) eqn:Hroute.
      * destruct (pushAscii_counters cp (penAt n) Hmode) as [-> ->].
        rewrite IHd, IHs. split; f_equal.
        -- destruct (Z.eqb_spec cp 34) as [->|H34];
             [rewrite decide_True by reflexivity|rewrite decide_False by congruence];
             reflexivity.
        -- destruct (Z.eqb_spec cp 39) as [->|H39];
             [rewrite decide_True by reflexivity|rewrite decide_False by congruence];
             reflexivity.
      * assert (Hwide : 0x7F < cp).
        { unfold routedAscii in Hroute.
          destruct (defaultOnly text o) as [[|]|]; try discriminate; [contradiction|].
          unfold isAsciiCode in Hroute. lia. }
        unfold pushGlyph. cbv zeta. cbn [dqCount sqCount].
        rewrite !decide_False by (intros [= ->]; lia). split; lia.
  - unfold emitStep. rewrite Hcp. rewrite !decide_False by congruence. split; lia.
Qed.

Lemma odd_mod2 n : (n mod 2 =? 1) = Z.odd n.
Proof. symmetry. apply Zodd_mod. Qed.

(** The quad [pushAscii] emits for a quote character, by the parity of
    its pre-incremented counter. *)
Lemma pushAscii_quote c s :
  defaultOnly text o <> Some false ->
  c = 34 \/ c = 39 ->
  let count := (if c =? 34 then dqCount s else sqCount s) + 1 in
  let swap := if Z.odd count then quotes !! c else None in
  exists q,
    spans (pushAscii text o asciiPack glyphMap quotes c s) = spans s ++ [q]
    /\ q_pack q = match swap with
                  | Some alt => FromQuote alt
                  | None => FromAtlas asciiPack
                  end
    /\ quadUV q = match swap with
                  | Some _ => (0, 0, 1, 1)%Q
                  | None => tileUV 8 (c mod 16) (c / 16) (w asciiPack) (h asciiPack)
                  end.
Proof.
  intros Hmode Hc. cbv zeta. rewrite <- odd_mod2.
  unfold pushAscii, quoteSwap, pushQuad. cbv zeta.
  destruct (defaultOnly text o) as [[|]|]; [|contradiction|];
    destruct Hc as [-> | ->]; simpl Z.eqb; cbv iota;
    (destruct (_ =? 1); [destruct (quotes !! _)|]);
    cbn [spans]; eexists; repeat split; reflexivity.
Qed.

(** C6. Quote alternation.  Outside forced-wide mode the counters of the
    double quote (34) and of the single quote (39) start at zero and count
    their own character only; the quad of the n-th occurrence of a quote
    character is the QuoteAlternate tile with UVs 0..1 when n is odd and
    the alternate exists, and the normal tile of the ASCII atlas when n is
    even or there is no alternate. *)
Theorem quote_alternation i c :
  defaultOnly text o <> Some false ->
  c = 34 \/ c = 39 ->
  codePointAt text i = Some c ->
  let n := occurrences text c (S i) in
  dqCount (penAt 0) = 0 /\ sqCount (penAt 0) = 0
  /\ dqCount (penAt (S i)) = occurrences text 34 (S i)
  /\ sqCount (penAt (S i)) = occurrences text 39 (S i)
  /\ exists q,
       spans (penAt (S i)) = spans (penAt i) ++ [q]
       /\ (Z.odd n = true ->
           forall alt, quotes !! c = Some alt ->
                       q_pack q = FromQuote alt /\ quadUV q = (0, 0, 1, 1)%Q)
       /\ (Z.odd n = false \/ quotes !! c = None ->
           q_pack q = FromAtlas asciiPack
           /\ quadUV q = tileUV 8 (c mod 16) (c / 16) (w asciiPack) (h asciiPack)).
Proof.
  intros Hmode Hc Hcp. cbv zeta.
  destruct (quote_counters (S i) Hmode) as [Hd Hs].
  destruct (quote_counters i Hmode) as [Hd0 Hs0].
  split; [reflexivity|]. split; [reflexivity|]. split; [exact Hd|]. split; [exact Hs|].
  assert (Hroute : routedAscii (defaultOnly text o) c = true).
  { unfold routedAscii. destruct (defaultOnly text o) as [[|]|]; try reflexivity;
      [contradiction|]. unfold isAsciiCode. destruct Hc as [-> | ->]; reflexivity. }
  assert (Hcount : occurrences text c (S i)
                   = (if c =? 34 then dqCount (penAt i) else sqCount (penAt i)) + 1).
  { rewrite occurrences_S, decide_True by exact Hcp.
    destruct Hc as [-> | ->]; simpl Z.eqb; cbv iota; congruence. }
  rewrite penAfter_S, (emitStep_char _ _ _ Hcp ltac:(lia)), Hroute, Hcount.
  destruct (pushAscii_quote c (penAt i) Hmode Hc) as (q & Hsp & Hpack & Huv).
  exists q. split; [exact Hsp|]. split.
  - intros Hodd alt Halt. rewrite Hodd, Halt in Hpack, Huv. auto.
  - intros [Heven|Hnone]; [rewrite Heven in Hpack, Huv; auto|].
    rewrite Hnone in Hpack, Huv. destruct (Z.odd _); auto.
Qed.

(** ** Rounding *)

Lemma Math_round_comp x y : (x == y)%Q -> Math_round x = Math_round y.
Proof. intros H. unfold Math_round. rewrite H. reflexivity. Qed.

Lemma Math_round_inject z : Math_round (inject_Z z) = z.
Proof.
  unfold Math_round. apply Z.le_antisymm.
  - apply Z.lt_succ_r. rewrite Zlt_Qlt.
    apply Qle_lt_trans with (inject_Z z + (1 # 2))%Q; [apply Qfloor_le|].
    replace (Z.succ z) with (z + 1) by lia. rewrite inject_Z_plus.
    apply Qplus_lt_r. reflexivity.
  - rewrite <- (Qfloor_Z z) at 1. apply Qfloor_resp_le.
    rewrite <- (Qplus_0_r (inject_Z z)) at 1. apply Qplus_le_r. discriminate.
Qed.

Lemma Math_round_nonneg x : (0 <= x)%Q -> 0 <= Math_round x.
Proof.
  intros Hx. unfold Math_round. change 0 with (Qfloor 0).
  apply Qfloor_resp_le. rewrite <- (Qplus_0_r 0).
  apply Qplus_le_compat; [exact Hx|discriminate].
Qed.

(** ** Vertical offsets *)

Lemma emitted_quad_offset i cp :
  codePointAt text i = Some cp -> cp <> 32 ->
  exists q,
    spans (penAt (S i)) = spans (penAt i) ++ [q]
    /\ q_y q = Math_round (scale o * (refCenter text o asciiPack glyphMap
                                      - ownCenter text o asciiPack glyphMap cp)).
Proof.
  intros Hcp Hne. rewrite penAfter_S, (emitStep_char _ _ _ Hcp Hne).
  unfold ownCenter. destruct (routedAscii (defaultOnly text o) cp).
  - unfold pushAscii, pushQuad. cbv zeta.
    destruct (match defaultOnly text o with
              | Some false => _
              | _ => _
              end) as [[dq sq] [alt|]];
      cbn [spans]; eexists; (split; [reflexivity|]); cbn [q_y];
      rewrite Math_round_inject; unfold dp; apply Math_round_comp; ring.
  - unfold pushGlyph, pushQuad. cbv zeta. cbn [spans].
    eexists. split; [reflexivity|]. cbn [q_y].
    rewrite Math_round_inject. unfold dp. apply Math_round_comp. ring.
Qed.

(** Every quad of the line was appended by the step of a non-space
    position. *)
Lemma spans_origin n q :
  q ∈ spans (penAt n) ->
  exists i cp, (i < n)%nat /\ codePointAt text i = Some cp /\ cp <> 32
               /\ exists before, spans (penAt (S i)) = before ++ [q].
Proof.
  induction n as [|n IH]; [intros H; inversion H|].
  intros Hq. destruct (codePointAt text n) as [cp|] eqn:Hcp.
  - destruct (Z.eq_dec cp 32) as [->|Hne].
    + rewrite penAfter_S, emitStep_space in Hq by exact Hcp. cbn [spans] in Hq.
      destruct (IH Hq) as (i & cp & Hi & H). exists i, cp. split; [lia|exact H].
    + destruct (emitted_quad_offset n cp Hcp Hne) as (q' & Hsp & _).
      rewrite Hsp in Hq. apply elem_of_app in Hq as [Hq|Hq].
      * destruct (IH Hq) as (i & cp' & Hi & H). exists i, cp'. split; [lia|exact H].
      * apply list_elem_of_singleton in Hq as ->.
        exists n, cp. split; [lia|]. split; [exact Hcp|]. split; [exact Hne|eauto].
  - rewrite penAfter_S in Hq. unfold emitStep in Hq. rewrite Hcp in Hq.
    destruct (IH Hq) as (i & cp & Hi & H). exists i, cp. split; [lia|exact H].
Qed.

(** ** Wide glyphs and [hasGlyph] *)

Lemma surrogatePair_wide u v :
  isHighSurrogate u = true -> isLowSurrogate v = true -> 0x7F < surrogatePair u v.
Proof. unfold isHighSurrogate, isLowSurrogate, surrogatePair. lia. Qed.

Lemma unit_nonAscii_bounded n : forall (t : list Z) i u,
  (length t <= n)%nat -> t !! i = Some u -> 0x7F < u -> hasNonAscii t.
Proof.
  induction n as [|n IH]; intros t i u Hlen Hu Hwide.
  - destruct t; [inversion Hu|simpl in Hlen; lia].
  - destruct t as [|u0 [|v rest]]; [inversion Hu| |].
    + destruct i as [|i]; [|destruct i; discriminate]. change (Some u0 = Some u) in Hu. injection Hu as ->.
      exists u. split; [left|exact Hwide].
    + unfold hasNonAscii. simpl codePoints.
      destruct (isHighSurrogate u0 && isLowSurrogate v) eqn:Hpair.
      * apply andb_prop in Hpair as [Hh Hl].
        exists (surrogatePair u0 v). split; [left|apply surrogatePair_wide; assumption].
      * destruct i as [|i].
        -- change (Some u0 = Some u) in Hu. injection Hu as ->.
           exists u. split; [left|exact Hwide].
        -- destruct (IH (v :: rest) i u) as (cp & Hin & Hcp);
             [simpl in *; lia|exact Hu|exact Hwide|].
           exists cp. split; [right; exact Hin|exact Hcp].
Qed.

Lemma codePointAt_nonAscii i cp :
  codePointAt text i = Some cp -> 0x7F < cp -> hasNonAscii text.
Proof.
  unfold codePointAt. destruct (text !! i) as [u|] eqn:Hu; [|discriminate].
  intros Hcp Hwide. apply (unit_nonAscii_bounded (length text) text i u); [lia|exact Hu|].
  destruct (isHighSurrogate u) eqn:Hh.
  - unfold isHighSurrogate in Hh. lia.
  - injection Hcp as ->. exact Hwide.
Qed.

Lemma wide_glyph_hasGlyph i cp :
  validMode (mode o) ->
  codePointAt text i = Some cp ->
  routedAscii (defaultOnly text o) cp = false ->
  hasGlyph text o = true.
Proof.
  intros Hvalid Hcp Hroute. unfold hasGlyph, routedAscii, defaultOnly in *.
  destruct Hvalid as [Hm|[Hm|[Hm|Hm]]]; rewrite Hm in *.
  - unfold resolveMode in *. simpl in *. rewrite Hroute. reflexivity.
  - unfold resolveMode in Hroute. simpl in Hroute. simpl String.eqb.
    replace (existsb _ _) with true; [reflexivity|].
    symmetry. apply existsb_nonAscii. apply (codePointAt_nonAscii i cp Hcp).
    unfold isAsciiCode in Hroute. lia.
  - unfold resolveMode in Hroute. simpl in Hroute. discriminate.
  - reflexivity.
Qed.

(** C7. Baseline unification.  On a line with at least one wide glyph
    (under one of the four modes) baseline 'auto' computes the reference
    center of baseline 'glyph': the vertical center of wide page 00 when
    it is loaded, else twice the ASCII center; and the vertical offset of
    every emitted quad is [round (scale * (refCenter - own center))], the
    own center being [ASCII center * ds] for a character routed to the
    ASCII atlas and the center of the selected atlas for a wide one. *)
Theorem baseline_unification :
  validMode (mode o) ->
  (exists i cp, codePointAt text i = Some cp /\ cp <> 32
                /\ routedAscii (defaultOnly text o) cp = false) ->
  refCenter text (withBaseline o "auto") asciiPack glyphMap
  = refCenter text (withBaseline o "glyph") asciiPack glyphMap
  /\ refCenter text (withBaseline o "glyph") asciiPack glyphMap
     = match glyphMap !! "00"%string with
       | Some g00 => centerRow (vmet g00)
       | None => (centerRow (vmet asciiPack) * 2)%Q
       end
  /\ (forall i cp,
        codePointAt text i = Some cp -> cp <> 32 ->
        exists q,
          spans (penAt (S i)) = spans (penAt i) ++ [q]
          /\ q_y q = Math_round (scale o * (refCenter text o asciiPack glyphMap
                                            - ownCenter text o asciiPack glyphMap cp)))
  /\ (forall q,
        q ∈ spans (emitAll text o asciiPack glyphMap quotes) ->
        exists i cp,
          codePointAt text i = Some cp /\ cp <> 32
          /\ spans (penAt (S i)) = spans (penAt i) ++ [q]
          /\ q_y q = Math_round (scale o * (refCenter text o asciiPack glyphMap
                                            - ownCenter text o asciiPack glyphMap cp))).
Proof.
  intros Hvalid (i0 & cp0 & Hcp0 & Hne0 & Hwide0).
  pose proof (wide_glyph_hasGlyph i0 cp0 Hvalid Hcp0 Hwide0) as Hhas.
  split; [|split; [|split]].
  - unfold refCenter. cbn [withBaseline baseline]. simpl String.eqb. cbv iota.
    change (hasGlyph text (withBaseline o "auto")) with (hasGlyph text o).
    rewrite Hhas. reflexivity.
  - reflexivity.
  - exact emitted_quad_offset.
  - intros q Hq. destruct (spans_origin _ _ Hq) as (i & cp & _ & Hcp & Hne & before & Hb).
    destruct (emitted_quad_offset i cp Hcp Hne) as (q' & Hsp & Hy).
    assert (q' = q) as ->.
    { rewrite Hsp in Hb. apply app_inj_tail in Hb. apply Hb. }
    exists i, cp. auto.
Qed.

(** ** The pen never moves left (exact arithmetic)

    These lemmas are about the exact layout; the order of the pen in
    double arithmetic, where a product can overflow, is settled further
    down. *)

Lemma advOr_nonneg table i dflt : 0 <= dflt -> 0 <= advOr table i dflt.
Proof. intros H. unfold advOr. destruct (jsIndex table i); lia. Qed.

Lemma inject_Z_nonneg z : 0 <= z -> (0 <= inject_Z z)%Q.
Proof. intros H. change 0%Q with (inject_Z 0). rewrite <- Zle_Qle. exact H. Qed.

Lemma dp_nonneg n : (0 <= scale o)%Q -> (0 <= n)%Q -> 0 <= dp o n.
Proof. intros Hs Hn. unfold dp. apply Math_round_nonneg, Qmult_le_0_compat; assumption. Qed.

(** [Math.round(dp(n) * mul)] for non-negative operands. *)
Lemma scaled_advance_nonneg n mul :
  (0 <= scale o)%Q -> (0 <= n)%Q -> (0 <= mul)%Q ->
  0 <= Math_round (inject_Z (dp o n) * mul).
Proof.
  intros Hs Hn Hm. apply Math_round_nonneg, Qmult_le_0_compat; [|exact Hm].
  apply inject_Z_nonneg, dp_nonneg; assumption.
Qed.

Lemma Qpositive_nonneg x : Qpositive x = true -> (0 <= x)%Q.
Proof.
  unfold Qpositive. intros H. apply negb_true_iff in H.
  destruct (Qlt_le_dec 0 x) as [Hlt|Hle]; [apply Qlt_le_weak, Hlt|].
  apply Qle_bool_iff in Hle. congruence.
Qed.

Lemma spaceAdvance_nonneg i :
  (0 <= scale o)%Q -> (0 <= ds o)%Q -> (0 <= spaceMul o)%Q ->
  0 <= spaceAdvance text o asciiPack glyphMap i.
Proof.
  intros Hs Hd Hm.
  assert (Ha : 0 <= asciiSpaceAdvance o asciiPack).
  { unfold asciiSpaceAdvance. apply scaled_advance_nonneg; try assumption.
    apply Qmult_le_0_compat; [|exact Hd]. apply inject_Z_nonneg, advOr_nonneg. lia. }
  assert (Hg : 0 <= glyphSpaceAdvance o glyphMap).
  { unfold glyphSpaceAdvance. cbv zeta. apply scaled_advance_nonneg; try assumption.
    apply inject_Z_nonneg. destruct (glyph00 glyphMap); [apply advOr_nonneg|]; lia. }
  unfold spaceAdvance. destruct (defaultOnly text o) as [[|]|]; try assumption.
  cbv zeta. destruct (_ && _); assumption.
Qed.

(** One step either leaves the spans alone or appends one quad placed
    between the old and the new pen position. *)
Lemma emitStep_pen s i :
  (0 <= scale o)%Q -> (0 <= ds o)%Q -> (0 <= spaceMul o)%Q -> (0 <= spacingMul o)%Q ->
  penX s <= penX (step s i)
  /\ (spans (step s i) = spans s
      \/ exists q, spans (step s i) = spans s ++ [q]
                   /\ penX s <= q_x q <= penX (step s i)).
Proof.
  intros Hs Hd Hm Hg.
  destruct (codePointAt text i) as [cp|] eqn:Hcp;
    [|unfold emitStep; rewrite Hcp; split; [lia|left; reflexivity]].
  destruct (Z.eq_dec cp 32) as [->|Hne].
  - rewrite emitStep_space by exact Hcp. cbn [penX spans].
    pose proof (spaceAdvance_nonneg i Hs Hd Hm). split; [lia|left; reflexivity].
  - rewrite (emitStep_char _ _ _ Hcp Hne).
    destruct (routedAscii (defaultOnly text o) cp).
    + unfold pushAscii, pushQuad. cbv zeta.
      set (pen1 := if _ && _ && Qpositive (asciiAfterGlyphPadPx o) then _ else penX s).
      assert (Hpen1 : penX s <= pen1).
      { unfold pen1. destruct (_ && _ && Qpositive (asciiAfterGlyphPadPx o)) eqn:Hpad; [|lia].
        apply andb_prop in Hpad as [_ Hpos].
        pose proof (Math_round_nonneg (scale o * asciiAfterGlyphPadPx o)
                      (Qmult_le_0_compat _ _ Hs (Qpositive_nonneg _ Hpos))). lia. }
      assert (Hadv : 0 <= Math_round (inject_Z (dp o (inject_Z (advOr (adv asciiPack) cp 9) * ds o))
                                      * spacingMul o)).
      { apply scaled_advance_nonneg; try assumption.
        apply Qmult_le_0_compat; [|exact Hd]. apply inject_Z_nonneg, advOr_nonneg. lia. }
      destruct (match defaultOnly text o with
                | Some false => _
                | _ => _
                end) as [[dq sq] [alt|]]; cbn [penX spans];
        (split; [lia|right; eexists; split; [reflexivity|cbn [q_x]; lia]]).
    + unfold pushGlyph, pushQuad. cbv zeta. cbn [penX spans].
      set (pen1 := if Qpositive (glyphTrackPx o) && _ then _ else penX s).
      assert (Hpen1 : penX s <= pen1).
      { unfold pen1. destruct (Qpositive (glyphTrackPx o) && _) eqn:Htrack; [|lia].
        apply andb_prop in Htrack as [Hpos _].
        pose proof (Math_round_nonneg (scale o * glyphTrackPx o)
                      (Qmult_le_0_compat _ _ Hs (Qpositive_nonneg _ Hpos))). lia. }
      set (pk := glyphPackFor asciiPack glyphMap (codeHi cp)).
      assert (Hadv : 0 <= Math_round (inject_Z (dp o (inject_Z (advOr (adv pk) (codeLo cp) 17)))
                                      * spacingMul o)).
      { apply scaled_advance_nonneg; try assumption.
        apply inject_Z_nonneg, advOr_nonneg. lia. }
      split; [lia|right; eexists; split; [reflexivity|cbn [q_x]; lia]].
Qed.

Lemma penX_monotone n m :
  (0 <= scale o)%Q -> (0 <= ds o)%Q -> (0 <= spaceMul o)%Q -> (0 <= spacingMul o)%Q ->
  (n <= m)%nat -> penX (penAt n) <= penX (penAt m).
Proof.
  intros Hs Hd Hm Hg Hnm. induction Hnm as [|m Hnm IH]; [lia|].
  rewrite penAfter_S. pose proof (emitStep_pen (penAt m) m Hs Hd Hm Hg) as [Hstep _]. lia.
Qed.

(** The quads emitted so far are ordered by position and lie between the
    origin and the pen. *)
Lemma spans_ordered n :
  (0 <= scale o)%Q -> (0 <= ds o)%Q -> (0 <= spaceMul o)%Q -> (0 <= spacingMul o)%Q ->
  (forall q, q ∈ spans (penAt n) -> 0 <= q_x q <= penX (penAt n))
  /\ (forall a b qa qb, (a <= b)%nat ->
        spans (penAt n) !! a = Some qa -> spans (penAt n) !! b = Some qb ->
        q_x qa <= q_x qb).
Proof.
  intros Hs Hd Hm Hg. induction n as [|n [IHin IHord]].
  - split; [intros q H; inversion H|intros a b qa qb _ H; inversion H].
  - rewrite penAfter_S.
    pose proof (penX_monotone 0 n Hs Hd Hm Hg ltac:(lia)) as H0. change (penX (penAt 0)) with 0 in H0.
    destruct (emitStep_pen (penAt n) n Hs Hd Hm Hg) as [Hpen [Hsame|(q' & Hsp & Hq')]].
    + rewrite Hsame. split; [|exact IHord]. intros q Hq. specialize (IHin q Hq). lia.
    + rewrite Hsp. split.
      * intros q Hq. apply elem_of_app in Hq as [Hq|Hq].
        -- specialize (IHin q Hq). lia.
        -- apply list_elem_of_singleton in Hq as ->. lia.
      * intros a b qa qb Hab Ha Hb.
        apply lookup_snoc_Some in Ha as [[Hla Ha]|[Hla <-]];
        apply lookup_snoc_Some in Hb as [[Hlb Hb]|[Hlb <-]].
        -- exact (IHord a b qa qb Hab Ha Hb).
        -- assert (Hin : qa ∈ spans (penAt n)) by (eapply list_elem_of_lookup_2, Ha).
           specialize (IHin qa Hin). lia.
        -- lia.
        -- lia.
Qed.

End Loop.

(** ** The pen in double arithmetic *)

Local Abbreviation OV := (2 ^ 1024 - 2 ^ 970).

(** Comparisons of closed integers. *)
Ltac closed_le := apply Z.leb_le; vm_compute; reflexivity.
Ltac closed_lt := apply Z.ltb_lt; vm_compute; reflexivity.

Lemma jsNorm_within X q :
  (0 <= q <= inject_Z X)%Q -> X < OV -> jsNorm q = Fin q.
Proof.
  intros [H0 HX] Hov. unfold jsNorm.
  assert (Hlt : (q < overflowAt)%Q).
  { eapply Qle_lt_trans; [exact HX|]. unfold overflowAt. rewrite <- Zlt_Qlt. exact Hov. }
  destruct (Qle_bool overflowAt q) eqn:Hhi.
  - apply Qle_bool_iff in Hhi. exfalso. exact (Qlt_not_le _ _ Hlt Hhi).
  - destruct (Qle_bool q (- overflowAt)) eqn:Hlo; [|reflexivity].
    apply Qle_bool_iff in Hlo. exfalso.
    assert (Hneg : (- overflowAt < 0)%Q) by reflexivity.
    exact (Qlt_not_le _ _ (Qlt_le_trans _ _ _ Hneg H0) Hlo).
Qed.

Lemma within_le X Y a : X <= Y -> within X a -> within Y a.
Proof.
  intros HXY (q & -> & H0 & HX). exists q. split; [reflexivity|]. split; [exact H0|].
  eapply Qle_trans; [exact HX|]. rewrite <- Zle_Qle. exact HXY.
Qed.

Lemma within_Fin X q : (0 <= q <= inject_Z X)%Q -> within X (Fin q).
Proof. intros H. exists q. split; [reflexivity|exact H]. Qed.

Lemma within_mul X Y W a b :
  within X a -> within Y b -> X * Y <= W -> W < OV -> within W (jsMul a b).
Proof.
  intros (x & -> & Hx0 & HxX) (y & -> & Hy0 & HyY) HW Hov.
  assert (Hxy : (0 <= x * y <= inject_Z W)%Q).
  { split; [apply Qmult_le_0_compat; assumption|].
    eapply Qle_trans; [apply Qmult_le_compat_nonneg; split; eassumption|].
    rewrite <- inject_Z_mult, <- Zle_Qle. exact HW. }
  exists (x * y)%Q. split; [|exact Hxy].
  cbn [jsMul]. apply (jsNorm_within W); assumption.
Qed.

Lemma Math_round_le X x : (0 <= x <= inject_Z X)%Q -> 0 <= Math_round x <= X + 1.
Proof.
  intros [H0 HX]. split; [apply Math_round_nonneg, H0|].
  unfold Math_round. rewrite Zle_Qle.
  eapply Qle_trans; [apply Qfloor_le|].
  rewrite inject_Z_plus. apply Qplus_le_compat; [exact HX|discriminate].
Qed.

Lemma within_round X W a :
  within X a -> X + 1 <= W -> W < OV -> within W (jsRound a).
Proof.
  intros (x & -> & Hx) HW Hov. pose proof (Math_round_le X x Hx) as [Hr0 HrX].
  assert (Hr : (0 <= inject_Z (Math_round x) <= inject_Z W)%Q).
  { split; [apply inject_Z_nonneg, Hr0|]. rewrite <- Zle_Qle. lia. }
  exists (inject_Z (Math_round x)). split; [|exact Hr].
  cbn [jsRound]. apply (jsNorm_within W); assumption.
Qed.

(** Adding a bounded non-negative number to a bounded pen moves it to
    the right and keeps it finite. *)
Lemma pen_add P Y W p b :
  (0 <= p <= inject_Z P)%Q -> within Y b -> P + Y <= W -> W < OV ->
  exists p', jsAdd (Fin p) b = Fin p' /\ (p <= p' <= inject_Z W)%Q.
Proof.
  intros [Hp0 HpP] (y & -> & Hy0 & HyY) HW Hov.
  assert (Hsum : (0 <= p + y <= inject_Z W)%Q).
  { split.
    - change 0%Q with (0 + 0)%Q. apply Qplus_le_compat; assumption.
    - eapply Qle_trans; [apply Qplus_le_compat; eassumption|].
      rewrite <- inject_Z_plus, <- Zle_Qle. exact HW. }
  exists (p + y)%Q. split.
  - cbn [jsAdd]. apply (jsNorm_within W); assumption.
  - split; [|apply Hsum].
    rewrite <- (Qplus_0_r p) at 1. apply Qplus_le_compat; [apply Qle_refl|exact Hy0].
Qed.

Section DoubleLoop.
Variable text : list Z.
Variable o : opts.
Variable asciiPack : pack.
Variable glyphMap : gmap string pack.

Hypothesis Hnonneg : nonNegativeOpts o.
Hypothesis Hbounded : boundedOpts o.
Hypothesis Hascii16 : uint16Table asciiPack.
Hypothesis Hglyph16 : map_Forall (fun _ p => uint16Table p) glyphMap.

Local Abbreviation jsPenAt := (jsPenAfter text o asciiPack glyphMap).
Local Abbreviation jsStep := (jsEmitStep text o asciiPack glyphMap).

Lemma jsPenAfter_S n : jsPenAt (S n) = jsStep (jsPenAt n) n.
Proof. unfold jsPenAfter. rewrite seq_S, fold_left_app. reflexivity. Qed.

Lemma scale_within : within (2 ^ 64) (Fin (scale o)).
Proof. apply within_Fin. split; [apply Hnonneg|apply Hbounded]. Qed.

Lemma ds_within : within (2 ^ 64) (Fin (ds o)).
Proof. apply within_Fin. split; [apply Hnonneg|apply Hbounded]. Qed.

Lemma advOr_uint16 table i dflt :
  Forall (fun a => (a < 65536)%N) table -> 0 <= dflt < 65536 ->
  within (2 ^ 16) (Fin (inject_Z (advOr table i dflt))).
Proof.
  intros Htable Hd. apply within_Fin.
  assert (H : 0 <= advOr table i dflt <= 2 ^ 16).
  { unfold advOr, jsIndex. destruct (i <? 0); [lia|].
    destruct (table !! Z.to_nat i) as [a|] eqn:Ha; [|lia].
    pose proof (proj1 (Forall_lookup _ _) Htable _ _ Ha) as Hlt. cbv beta in Hlt. lia. }
  split; [apply inject_Z_nonneg; lia|rewrite <- Zle_Qle; lia].
Qed.

Lemma glyphPackFor_uint16 hi : uint16Table (glyphPackFor asciiPack glyphMap hi).
Proof.
  unfold glyphPackFor, glyph00.
  destruct (glyphMap !! hi) as [p|] eqn:Hp; [exact (Hglyph16 _ _ Hp)|].
  destruct (glyphMap !! "00"%string) as [g|] eqn:Hg; [exact (Hglyph16 _ _ Hg)|].
  exact Hascii16.
Qed.

(** [Math.round(dp(n) * mul)] stays below [2^210]. *)
Lemma jsScaled_within n mul :
  within (2 ^ 80) n -> (0 <= mul <= inject_Z (2 ^ 64))%Q ->
  within (2 ^ 210) (jsScaled o n mul).
Proof.
  intros Hn Hmul. unfold jsScaled, jsDp.
  apply (within_round (2 ^ 209)); [|closed_le|closed_lt].
  apply (within_mul (2 ^ 145) (2 ^ 64)); [|apply within_Fin, Hmul|closed_le|closed_lt].
  apply (within_round (2 ^ 144)); [|closed_le|closed_lt].
  apply (within_mul (2 ^ 80) (2 ^ 64)); [exact Hn|apply scale_within|closed_le|closed_lt].
Qed.

(** [Math.round(scale * px)] stays below [2^129]. *)
Lemma jsGap_within px :
  (0 <= px <= inject_Z (2 ^ 64))%Q -> within (2 ^ 129) (jsGap o px).
Proof.
  intros Hpx. unfold jsGap.
  apply (within_round (2 ^ 128)); [|closed_le|closed_lt].
  apply (within_mul (2 ^ 64) (2 ^ 64));
    [apply scale_within|apply within_Fin, Hpx|closed_le|closed_lt].
Qed.

Lemma asciiAdvance_within code mul :
  (0 <= mul <= inject_Z (2 ^ 64))%Q ->
  within (2 ^ 210)
    (jsScaled o (jsMul (Fin (inject_Z (advOr (adv asciiPack) code 9))) (Fin (ds o))) mul).
Proof.
  intros Hmul. apply jsScaled_within; [|exact Hmul].
  apply (within_mul (2 ^ 16) (2 ^ 64)); [|apply ds_within|closed_le|closed_lt].
  apply advOr_uint16; [exact Hascii16|lia].
Qed.

Lemma glyphAdvance_within (p : pack) i mul :
  uint16Table p -> (0 <= mul <= inject_Z (2 ^ 64))%Q ->
  within (2 ^ 210) (jsScaled o (Fin (inject_Z (advOr (adv p) i 17))) mul).
Proof.
  intros Hp Hmul. apply jsScaled_within; [|exact Hmul].
  apply (within_le (2 ^ 16)); [closed_le|]. apply advOr_uint16; [exact Hp|lia].
Qed.

Lemma jsSpaceAdvance_within i :
  within (2 ^ 210) (jsSpaceAdvance text o asciiPack glyphMap i).
Proof.
  assert (Hmul : (0 <= spaceMul o <= inject_Z (2 ^ 64))%Q)
    by (split; [apply Hnonneg|apply Hbounded]).
  assert (Ha : within (2 ^ 210) (jsAsciiSpaceAdvance o asciiPack))
    by (apply asciiAdvance_within, Hmul).
  assert (Hg : within (2 ^ 210) (jsGlyphSpaceAdvance o glyphMap)).
  { unfold jsGlyphSpaceAdvance. cbv zeta.
    destruct (glyph00 glyphMap) as [g|] eqn:Hg.
    - apply glyphAdvance_within; [exact (Hglyph16 _ _ Hg)|exact Hmul].
    - apply jsScaled_within; [|exact Hmul]. apply within_Fin. split; discriminate. }
  unfold jsSpaceAdvance. destruct (defaultOnly text o) as [[|]|]; try assumption.
  cbv zeta. destruct (_ && _); assumption.
Qed.

(** One step keeps a bounded pen finite, never moves it left, and places
    the span it pushes, if any, between the old and the new pen. *)
Lemma jsEmitStep_pen s i P p :
  jsPenX s = Fin p -> (0 <= p <= inject_Z P)%Q -> P + 2 ^ 211 < OV ->
  exists p',
    jsPenX (jsStep s i) = Fin p'
    /\ (p <= p' <= inject_Z (P + 2 ^ 211))%Q
    /\ (quadXs (jsStep s i) = quadXs s
        \/ exists x, quadXs (jsStep s i) = quadXs s ++ [Fin x] /\ (p <= x <= p')%Q).
Proof.
  intros Hpen Hp Hov.
  assert (Hspacing : (0 <= spacingMul o <= inject_Z (2 ^ 64))%Q)
    by (split; [apply Hnonneg|apply Hbounded]).
  assert (HP0 : 0 <= P).
  { rewrite Zle_Qle. eapply Qle_trans; [apply Hp|apply Hp]. }
  (* a character: an optional gap, the span, the advance *)
  assert (Hchar : forall (gap : bool) px advance,
             (0 <= px <= inject_Z (2 ^ 64))%Q ->
             within (2 ^ 210) advance ->
             let penX1 := if gap then jsAdd (Fin p) (jsGap o px) else Fin p in
             exists x p', penX1 = Fin x /\ jsAdd penX1 advance = Fin p'
                          /\ (p <= x <= p')%Q /\ (p' <= inject_Z (P + 2 ^ 211))%Q).
  { intros gap px advance Hpx Hadv. cbv zeta.
    assert (Hpen1 : exists x, (if gap then jsAdd (Fin p) (jsGap o px) else Fin p) = Fin x
                              /\ (p <= x <= inject_Z (P + 2 ^ 129))%Q).
    { destruct gap.
      - apply (pen_add P (2 ^ 129)); [exact Hp|apply jsGap_within, Hpx|lia|lia].
      - exists p. split; [reflexivity|]. split; [apply Qle_refl|].
        eapply Qle_trans; [apply Hp|]. rewrite <- Zle_Qle. lia. }
    destruct Hpen1 as (x & -> & Hpx1 & HxP).
    destruct (pen_add (P + 2 ^ 129) (2 ^ 210) (P + 2 ^ 211) x advance) as (p' & Hp' & Hxp' & Hp'P);
      [split; [eapply Qle_trans; [apply Hp|exact Hpx1]|exact HxP]|exact Hadv|lia|exact Hov|].
    exists x, p'. split; [reflexivity|]. split; [exact Hp'|]. split; [|exact Hp'P].
    split; assumption. }
  destruct (codePointAt text i) as [cp|] eqn:Hcp.
  2:{ unfold jsEmitStep. rewrite Hcp. exists p. split; [exact Hpen|]. split; [|left; reflexivity].
      split; [apply Qle_refl|]. eapply Qle_trans; [apply Hp|]. rewrite <- Zle_Qle. lia. }
  unfold jsEmitStep. rewrite Hcp. destruct (Z.eqb_spec cp 32) as [->|Hne].
  - cbn [jsPenX quadXs]. rewrite Hpen.
    destruct (pen_add P (2 ^ 210) (P + 2 ^ 211) p (jsSpaceAdvance text o asciiPack glyphMap i))
      as (p' & Hp' & Hpp');
      [exact Hp|apply jsSpaceAdvance_within|lia|exact Hov|].
    exists p'. split; [exact Hp'|]. split; [exact Hpp'|left; reflexivity].
  - assert (Hasc : exists p',
               jsPenX (jsPushAscii text o asciiPack cp s) = Fin p'
               /\ (p <= p' <= inject_Z (P + 2 ^ 211))%Q
               /\ exists x, quadXs (jsPushAscii text o asciiPack cp s) = quadXs s ++ [Fin x]
                            /\ (p <= x <= p')%Q).
    { unfold jsPushAscii. cbv zeta. cbn [jsPenX quadXs]. rewrite Hpen.
      destruct (Hchar (match defaultOnly text o with None => true | Some _ => false end
                       && match jsPrevKind s with Some KGlyph => true | _ => false end
                       && Qpositive (asciiAfterGlyphPadPx o))
                      (asciiAfterGlyphPadPx o)
                      (jsScaled o (jsMul (Fin (inject_Z (advOr (adv asciiPack) cp 9)))
                                         (Fin (ds o))) (spacingMul o)))
        as (x & p' & Hx & Hp' & Hxp & Hp'P);
        [split; [apply Hnonneg|apply Hbounded]|apply asciiAdvance_within, Hspacing|].
      cbv zeta in Hx, Hp'. rewrite Hx in Hp' |- *. rewrite Hp'.
      exists p'. split; [reflexivity|]. split.
      - split; [eapply Qle_trans; apply Hxp|exact Hp'P].
      - exists x. split; [reflexivity|exact Hxp]. }
    assert (Hgly : exists p',
               jsPenX (jsPushGlyph o asciiPack glyphMap cp s) = Fin p'
               /\ (p <= p' <= inject_Z (P + 2 ^ 211))%Q
               /\ exists x, quadXs (jsPushGlyph o asciiPack glyphMap cp s) = quadXs s ++ [Fin x]
                            /\ (p <= x <= p')%Q).
    { unfold jsPushGlyph. cbv zeta. cbn [jsPenX quadXs]. rewrite Hpen.
      destruct (Hchar (Qpositive (glyphTrackPx o)
                       && match jsPrevKind s with Some KGlyph => true | _ => false end)
                      (glyphTrackPx o)
                      (jsScaled o (Fin (inject_Z (advOr (adv (glyphPackFor asciiPack glyphMap
                                                                          (codeHi cp)))
                                                        (codeLo cp) 17))) (spacingMul o)))
        as (x & p' & Hx & Hp' & Hxp & Hp'P);
        [split; [apply Hnonneg|apply Hbounded]
        |apply glyphAdvance_within; [apply glyphPackFor_uint16|exact Hspacing]|].
      cbv zeta in Hx, Hp'. rewrite Hx in Hp' |- *. rewrite Hp'.
      exists p'. split; [reflexivity|]. split.
      - split; [eapply Qle_trans; apply Hxp|exact Hp'P].
      - exists x. split; [reflexivity|exact Hxp]. }
    assert (Hright : forall t : penTrace,
               (exists p', jsPenX t = Fin p' /\ (p <= p' <= inject_Z (P + 2 ^ 211))%Q
                           /\ exists x, quadXs t = quadXs s ++ [Fin x] /\ (p <= x <= p')%Q) ->
               exists p', jsPenX t = Fin p' /\ (p <= p' <= inject_Z (P + 2 ^ 211))%Q
                          /\ (quadXs t = quadXs s
                              \/ exists x, quadXs t = quadXs s ++ [Fin x] /\ (p <= x <= p')%Q)).
    { intros t (p' & H1 & H2 & H3). exists p'. split; [exact H1|]. split; [exact H2|right; exact H3]. }
    destruct (defaultOnly text o) as [[|]|] eqn:Hmode; [| |destruct (isAsciiCode cp)];
      apply Hright; assumption.
Qed.

Hypothesis Hlength : Z.of_nat (length text) <= 2 ^ 53.

(** The invariant of the loop: after [n] iterations the pen is finite and
    at most [n * 2^211], and the span positions are finite, ordered and
    between the origin and the pen. *)
Lemma jsPen_invariant n :
  (n <= length text)%nat ->
  exists p,
    jsPenX (jsPenAt n) = Fin p
    /\ (0 <= p <= inject_Z (Z.of_nat n * 2 ^ 211))%Q
    /\ Forall (fun x => exists q, x = Fin q /\ (0 <= q <= p)%Q) (quadXs (jsPenAt n))
    /\ (forall a b xa xb, (a <= b)%nat ->
          quadXs (jsPenAt n) !! a = Some xa -> quadXs (jsPenAt n) !! b = Some xb ->
          jsLe xa xb = true).
Proof.
  induction n as [|n IH]; intros Hn.
  - exists 0%Q. split; [reflexivity|]. split; [split; discriminate|].
    split; [constructor|]. intros a b xa xb _ H. inversion H.
  - destruct IH as (p & Hpen & Hp & Hin & Hord); [lia|].
    assert (Hov : Z.of_nat n * 2 ^ 211 + 2 ^ 211 < OV).
    { assert (Hle : Z.of_nat n * 2 ^ 211 + 2 ^ 211 <= 2 ^ 53 * 2 ^ 211) by nia.
      eapply Z.le_lt_trans; [exact Hle|closed_lt]. }
    destruct (jsEmitStep_pen (jsPenAt n) n _ p Hpen Hp Hov) as (p' & Hpen' & Hpp' & Hquads).
    rewrite jsPenAfter_S. exists p'. split; [exact Hpen'|].
    assert (Hold : Forall (fun x => exists q, x = Fin q /\ (0 <= q <= p')%Q) (quadXs (jsPenAt n))).
    { eapply Forall_impl; [exact Hin|]. intros x (q & -> & Hq0 & Hqp). exists q.
      split; [reflexivity|]. split; [exact Hq0|]. eapply Qle_trans; [exact Hqp|apply Hpp']. }
    split.
    { split; [eapply Qle_trans; [apply Hp|apply Hpp']|].
      eapply Qle_trans; [apply Hpp'|]. rewrite <- Zle_Qle. lia. }
    destruct Hquads as [Hsame|(x & Hsnoc & Hx)].
    + rewrite Hsame. split; [exact Hold|exact Hord].
    + rewrite Hsnoc. split.
      * apply Forall_app. split; [exact Hold|]. constructor; [|constructor].
        exists x. split; [reflexivity|]. split; [|apply Hx].
        eapply Qle_trans; [apply Hp|apply Hx].
      * intros a b xa xb Hab Ha Hb.
        apply lookup_snoc_Some in Ha as [[Hla Ha]|[Hla <-]];
        apply lookup_snoc_Some in Hb as [[Hlb Hb]|[Hlb <-]].
        -- exact (Hord a b xa xb Hab Ha Hb).
        -- destruct (proj1 (Forall_lookup _ _) Hin _ _ Ha) as (q & -> & _ & Hqp).
           cbn [jsLe]. apply Qle_bool_iff. eapply Qle_trans; [exact Hqp|apply Hx].
        -- lia.
        -- cbn [jsLe]. apply Qle_bool_iff, Qle_refl.
Qed.

Lemma jsPen_monotone n m :
  (n <= m)%nat -> (m <= length text)%nat ->
  jsLe (jsPenX (jsPenAt n)) (jsPenX (jsPenAt m)) = true.
Proof.
  intros Hnm Hm. induction Hnm as [|m Hnm IH].
  - destruct (jsPen_invariant n Hm) as (p & -> & _). cbn [jsLe]. apply Qle_bool_iff, Qle_refl.
  - specialize (IH ltac:(lia)).
    destruct (jsPen_invariant m ltac:(lia)) as (p & Hpen & Hp & _).
    assert (Hov : Z.of_nat m * 2 ^ 211 + 2 ^ 211 < OV).
    { assert (Hle : Z.of_nat m * 2 ^ 211 + 2 ^ 211 <= 2 ^ 53 * 2 ^ 211) by nia.
      eapply Z.le_lt_trans; [exact Hle|closed_lt]. }
    destruct (jsEmitStep_pen (jsPenAt m) m _ p Hpen Hp Hov) as (p' & Hpen' & Hpp' & _).
    rewrite jsPenAfter_S, Hpen'. rewrite Hpen in IH.
    destruct (jsPen_invariant n ltac:(lia)) as (q & Hq & _). rewrite Hq in IH |- *.
    cbn [jsLe] in IH |- *. apply Qle_bool_iff. apply Qle_bool_iff in IH. eapply Qle_trans; [exact IH|apply Hpp'].
Qed.

End DoubleLoop.

(** C10. Pen monotonicity inside the double range.  With non-negative
    scale, ds, spaceMul, spacingMul, glyphTrackPx and asciiAfterGlyphPadPx
    that are all at most [2^64], 16-bit advance tables and a text of at
    most [2^53] code units, no product or sum of the emission loop leaves
    the double range: the pen stays finite and never decreases, and every
    span lies at or to the right of every span pushed before it, between
    the origin and the final pen position. *)
Theorem pen_monotone_in_range text o asciiPack glyphMap :
  nonNegativeOpts o ->
  boundedOpts o ->
  uint16Table asciiPack ->
  map_Forall (fun _ p => uint16Table p) glyphMap ->
  Z.of_nat (length text) <= 2 ^ 53 ->
  let penAt := jsPenAfter text o asciiPack glyphMap in
  let final := penAt (length text) in
  (forall n, (n <= length text)%nat -> finite (jsPenX (penAt n)))
  /\ (forall n m, (n <= m)%nat -> (m <= length text)%nat ->
        jsLe (jsPenX (penAt n)) (jsPenX (penAt m)) = true)
  /\ (forall a b xa xb, (a <= b)%nat ->
        quadXs final !! a = Some xa -> quadXs final !! b = Some xb ->
        jsLe xa xb = true)
  /\ (forall x, x ∈ quadXs final ->
        jsLe (Fin 0) x = true /\ jsLe x (jsPenX final) = true).
Proof.
  intros Hnonneg Hbounded Hascii Hglyph Hlen. cbv zeta.
  split; [|split; [|split]].
  - intros n Hn.
    destruct (jsPen_invariant text o asciiPack glyphMap Hnonneg Hbounded Hascii Hglyph Hlen n Hn)
      as (p & Hpen & _).
    exists p. exact Hpen.
  - intros n m Hnm Hm.
    exact (jsPen_monotone text o asciiPack glyphMap Hnonneg Hbounded Hascii Hglyph Hlen
             n m Hnm Hm).
  - destruct (jsPen_invariant text o asciiPack glyphMap Hnonneg Hbounded Hascii Hglyph Hlen
                (length text) ltac:(lia)) as (p & _ & _ & _ & Hord).
    exact Hord.
  - destruct (jsPen_invariant text o asciiPack glyphMap Hnonneg Hbounded Hascii Hglyph Hlen
                (length text) ltac:(lia)) as (p & Hpen & _ & Hin & _).
    intros x Hx. destruct (proj1 (Forall_forall _ _) Hin x Hx) as (q & -> & Hq0 & Hqp).
    rewrite Hpen. cbn [jsLe]. split; apply Qle_bool_iff; assumption.
Qed.

(** ** The two embeddings of the pen agree

    A finite result of the double arithmetic is the exact result, and a
    finite number has finite operands: as long as the pen is finite it
    is the pen of the exact layout. *)

Lemma jsNorm_inv q r : jsNorm q = Fin r -> r = q.
Proof.
  unfold jsNorm. destruct (Qle_bool overflowAt q); [discriminate|].
  destruct (Qle_bool q (- overflowAt)); [discriminate|]. intros [= <-]. reflexivity.
Qed.

Lemma jsMulInf_not_finite positive b r : jsMulInf positive b <> Fin r.
Proof.
  destruct positive, b as [y| | |]; cbn; try discriminate;
    destruct (y ?= 0)%Q; discriminate.
Qed.

Lemma jsMul_inv a b r :
  jsMul a b = Fin r -> exists x y, a = Fin x /\ b = Fin y /\ r = (x * y)%Q.
Proof.
  destruct a as [x| | |], b as [y| | |]; cbn [jsMul]; intros H;
    try discriminate H; try (exfalso; exact (jsMulInf_not_finite _ _ _ H)).
  exists x, y. split; [reflexivity|]. split; [reflexivity|]. exact (jsNorm_inv _ _ H).
Qed.

Lemma jsAdd_inv a b r :
  jsAdd a b = Fin r -> exists x y, a = Fin x /\ b = Fin y /\ r = (x + y)%Q.
Proof.
  destruct a as [x| | |], b as [y| | |]; cbn [jsAdd]; intros H; try discriminate H.
  exists x, y. split; [reflexivity|]. split; [reflexivity|]. exact (jsNorm_inv _ _ H).
Qed.

Lemma jsRound_inv a r :
  jsRound a = Fin r -> exists x, a = Fin x /\ r = inject_Z (Math_round x).
Proof.
  destruct a as [x| | |]; cbn [jsRound]; intros H; try discriminate H.
  exists x. split; [reflexivity|]. exact (jsNorm_inv _ _ H).
Qed.

Section Agreement.
Variable text : list Z.
Variable o : opts.
Variable asciiPack : pack.
Variable glyphMap : gmap string pack.
Variable quotes : gmap Z quotePack.

Local Abbreviation penAt := (penAfter text o asciiPack glyphMap quotes).
Local Abbreviation step := (emitStep text o asciiPack glyphMap quotes).
Local Abbreviation jsPenAt := (jsPenAfter text o asciiPack glyphMap).
Local Abbreviation jsStep := (jsEmitStep text o asciiPack glyphMap).

Lemma jsScaled_inv n mul r :
  jsScaled o n mul = Fin r ->
  exists x, n = Fin x /\ r = inject_Z (Math_round (inject_Z (dp o x) * mul)).
Proof.
  unfold jsScaled, jsDp. intros H.
  apply jsRound_inv in H as (x1 & H & ->).
  apply jsMul_inv in H as (x2 & y & H & [= <-] & ->).
  apply jsRound_inv in H as (x3 & H & ->).
  apply jsMul_inv in H as (x & y & -> & [= <-] & ->).
  exists x. split; reflexivity.
Qed.

Lemma jsGap_inv px r :
  jsGap o px = Fin r -> r = inject_Z (Math_round (scale o * px)).
Proof.
  unfold jsGap. intros H. apply jsRound_inv in H as (x & H & ->).
  apply jsMul_inv in H as (a & b & [= <-] & [= <-] & ->). reflexivity.
Qed.

Lemma jsSpaceAdvance_inv i r :
  jsSpaceAdvance text o asciiPack glyphMap i = Fin r ->
  r = inject_Z (spaceAdvance text o asciiPack glyphMap i).
Proof.
  assert (Ha : forall r, jsAsciiSpaceAdvance o asciiPack = Fin r ->
                         r = inject_Z (asciiSpaceAdvance o asciiPack)).
  { intros r0 H. unfold jsAsciiSpaceAdvance in H.
    apply jsScaled_inv in H as (x & H & ->).
    apply jsMul_inv in H as (a & b & [= <-] & [= <-] & ->). reflexivity. }
  assert (Hg : forall r, jsGlyphSpaceAdvance o glyphMap = Fin r ->
                         r = inject_Z (glyphSpaceAdvance o glyphMap)).
  { intros r0 H. unfold jsGlyphSpaceAdvance in H. cbv zeta in H.
    apply jsScaled_inv in H as (x & [= <-] & ->). reflexivity. }
  unfold jsSpaceAdvance, spaceAdvance.
  destruct (defaultOnly text o) as [[|]|]; [apply Ha|apply Hg|].
  cbv zeta. destruct (_ && _); [apply Ha|apply Hg].
Qed.

(** A step that ends on a finite pen started from a finite pen and
    added what the exact step adds. *)
Lemma jsEmitStep_exact s t i p' :
  jsPrevKind t = prevKind s ->
  jsPenX (jsStep t i) = Fin p' ->
  exists p, jsPenX t = Fin p
            /\ (p' == p + inject_Z (penX (step s i) - penX s))%Q.
Proof.
  intros Hkind Hfin.
  assert (Hasc : forall cp p',
             jsPenX (jsPushAscii text o asciiPack cp t) = Fin p' ->
             exists p, jsPenX t = Fin p
                       /\ (p' == p + inject_Z (penX (pushAscii text o asciiPack glyphMap quotes cp s)
                                               - penX s))%Q).
  { clear p' Hfin. intros cp p' H. unfold jsPushAscii in H. cbv zeta in H. cbn [jsPenX] in H.
    apply jsAdd_inv in H as (x & y & Hx & Hy & ->).
    apply jsScaled_inv in Hy as (a & Ha & ->).
    apply jsMul_inv in Ha as (a1 & a2 & [= <-] & [= <-] & ->).
    assert (Hpen : penX (pushAscii text o asciiPack glyphMap quotes cp s)
                   = (if match defaultOnly text o with None => true | Some _ => false end
                         && match prevKind s with Some KGlyph => true | _ => false end
                         && Qpositive (asciiAfterGlyphPadPx o)
                      then penX s + Math_round (scale o * asciiAfterGlyphPadPx o)
                      else penX s)
                     + Math_round (inject_Z (dp o (inject_Z (advOr (adv asciiPack) cp 9) * ds o))
                                   * spacingMul o)).
    { unfold pushAscii. cbv zeta.
      destruct (match defaultOnly text o with
                | Some false => _
                | _ => _
                end) as [[dq sq] alt]. reflexivity. }
    rewrite Hpen, Hkind in *. clear Hpen.
    destruct (_ && _ && Qpositive (asciiAfterGlyphPadPx o)).
    - apply jsAdd_inv in Hx as (p & g & Hp & Hg & ->). apply jsGap_inv in Hg as ->.
      exists p. split; [exact Hp|]. rewrite <- Qplus_assoc, <- inject_Z_plus.
      apply Qplus_comp; [reflexivity|]. apply inject_Z_injective. lia.
    - exists x. split; [exact Hx|].
      apply Qplus_comp; [reflexivity|]. apply inject_Z_injective. lia. }
  assert (Hgly : forall cp p',
             jsPenX (jsPushGlyph o asciiPack glyphMap cp t) = Fin p' ->
             exists p, jsPenX t = Fin p
                       /\ (p' == p + inject_Z (penX (pushGlyph text o asciiPack glyphMap cp s)
                                               - penX s))%Q).
  { clear p' Hfin. intros cp p' H. unfold jsPushGlyph in H. cbv zeta in H. cbn [jsPenX] in H.
    apply jsAdd_inv in H as (x & y & Hx & Hy & ->).
    apply jsScaled_inv in Hy as (a & [= <-] & ->).
    unfold pushGlyph. cbv zeta. cbn [penX]. rewrite Hkind in *.
    destruct (Qpositive (glyphTrackPx o) && _).
    - apply jsAdd_inv in Hx as (p & g & Hp & Hg & ->). apply jsGap_inv in Hg as ->.
      exists p. split; [exact Hp|]. rewrite <- Qplus_assoc, <- inject_Z_plus.
      apply Qplus_comp; [reflexivity|]. apply inject_Z_injective. lia.
    - exists x. split; [exact Hx|].
      apply Qplus_comp; [reflexivity|]. apply inject_Z_injective. lia. }
  unfold jsEmitStep in Hfin. unfold emitStep.
  destruct (codePointAt text i) as [cp|].
  2:{ exists p'. split; [exact Hfin|]. rewrite Z.sub_diag. symmetry. apply Qplus_0_r. }
  destruct (cp =? 32).
  - cbn [jsPenX] in Hfin. cbn [penX].
    apply jsAdd_inv in Hfin as (p & y & Hp & Hy & ->). apply jsSpaceAdvance_inv in Hy as ->.
    exists p. split; [exact Hp|].
    apply Qplus_comp; [reflexivity|]. apply inject_Z_injective. lia.
  - destruct (defaultOnly text o) as [[|]|] eqn:Hmode; [| |destruct (isAsciiCode cp)];
      first [apply Hasc, Hfin|apply Hgly, Hfin].
Qed.

Lemma jsPrevKind_agrees n : jsPrevKind (jsPenAt n) = prevKind (penAt n).
Proof.
  induction n as [|n IH]; [reflexivity|].
  rewrite jsPenAfter_S, penAfter_S. unfold jsEmitStep, emitStep.
  destruct (codePointAt text n) as [cp|]; [|exact IH].
  destruct (cp =? 32); [reflexivity|].
  assert (Hasc : jsPrevKind (jsPushAscii text o asciiPack cp (jsPenAt n))
                 = prevKind (pushAscii text o asciiPack glyphMap quotes cp (penAt n))).
  { unfold pushAscii. cbv zeta.
    destruct (match defaultOnly text o with
              | Some false => _
              | _ => _
              end) as [[dq sq] alt]. reflexivity. }
  destruct (defaultOnly text o) as [[|]|]; [exact Hasc|reflexivity|].
  destruct (isAsciiCode cp); [exact Hasc|reflexivity].
Qed.

(** A pen that is finite after [n] iterations is the pen of the exact
    layout; the two part only once a product or a sum has overflowed. *)
Lemma finite_pen_is_exact n p :
  jsPenX (jsPenAt n) = Fin p -> (p == inject_Z (penX (penAt n)))%Q.
Proof.
  revert p. induction n as [|n IH]; intros p Hfin.
  - injection Hfin as <-. reflexivity.
  - rewrite jsPenAfter_S in Hfin.
    destruct (jsEmitStep_exact (penAt n) (jsPenAt n) n p (jsPrevKind_agrees n) Hfin)
      as (p0 & Hp0 & Hp).
    rewrite Hp, (IH p0 Hp0), <- inject_Z_plus, penAfter_S.
    apply inject_Z_injective. lia.
Qed.

End Agreement.

(** ** Worked examples *)

(** The tiny atlas: tile 0 holds one pixel, tile 1 spans columns 2..3 and
    rows 0..1, every other tile is empty. *)
Example tiny_advance :
  _buildAdvance tinyScan 2 2 = [2; 3]%N ++ replicate 254 2%N.
Proof. vm_compute. reflexivity. Qed.

Example tiny_center :
  nonEmptyTiles tinyScan 2 2 = [0; 1]
  /\ (centerRow (_buildVerticalMetrics tinyScan 2 2) == 1 # 4)%Q
  /\ (centerRow (_buildVerticalMetrics emptyScan 2 2) == 1)%Q.
Proof. split; [|split]; vm_compute; reflexivity. Qed.

Example sample_tile_advance :
  tileAdvance sampleScan 8 8 0 = 5 /\ tileAdvance sampleScan 8 8 1 = 8.
Proof. split; vm_compute; reflexivity. Qed.

(** "Hi" in mode 'default' at scale 1 and ASCII scale 1: two quads, the
    pen ends at the sum of the two advances. *)
Example draw_Hi :
  let o := {| scale := 1; ds := 1; spaceMul := 1 # 2; spacingMul := 1;
              mode := "default"; baseline := "ascii"; lockLineH := true;
              glyphTrackPx := 2; asciiAfterGlyphPadPx := 5 # 2 |} in
  let final := emitAll [0x48; 0x69] o sampleAscii ∅ ∅ in
  map q_x (spans final) = [0; 6] /\ penX final = 12.
Proof. split; vm_compute; reflexivity. Qed.

(** The quotes of ["a" "b"] alternate: alternate, normal, alternate,
    normal. *)
Example draw_quotes :
  let text := [34; 97; 34; 32; 34; 98; 34] in
  let final := emitAll text defaultOpts sampleAscii ∅ (quoteAlt sampleRenderer) in
  map q_pack (spans final)
  = [FromQuote sampleQuote; FromAtlas sampleAscii; FromAtlas sampleAscii;
     FromQuote sampleQuote; FromAtlas sampleAscii; FromAtlas sampleAscii].
Proof. vm_compute. reflexivity. Qed.

(** In mode 'auto' the ASCII letter of a mixed-script text is drawn as a
    16-pixel wide glyph; in mode 'mixed' as an 8-pixel ASCII glyph. *)
Example auto_routes_ascii_wide :
  map q_w (spans (emitAll [0x41; 0xAC00] defaultOpts sampleAscii ∅ ∅)) = [32; 32]
  /\ map q_w (spans (emitAll [0x41; 0xAC00] (withMode defaultOpts "mixed") sampleAscii ∅ ∅))
     = [24; 32].
Proof. split; vm_compute; reflexivity. Qed.

(** ** The theorems at concrete inputs *)

Lemma buildAdvance_tile_witness :
  jsIndex (_buildAdvance emptyScan 8 8) 0 = Some 8%N
  /\ jsIndex (_buildAdvance sampleScan 8 8) 0 = Some 5%N.
Proof.
  split.
  - apply (proj1 (buildAdvance_tile emptyScan 8 8 0 ltac:(lia) ltac:(lia))).
    intros x y _ _. unfold opaqueAt, byteOpaque, jsIndex. simpl.
    destruct (_ <? 0); reflexivity.
  - apply (proj1 (proj2 (buildAdvance_tile sampleScan 8 8 0 ltac:(lia) ltac:(lia))) 2 5).
    + split; [vm_compute; split; discriminate|]. split.
      * exists 0. split; [vm_compute; split; discriminate|reflexivity].
      * intros x Hx (y & Hy & Ho).
        change (tileX0 8 0) with 0 in Hx. change (tileY0 8 0) with 0 in Hy.
        change (tileY1 8 0) with 7 in Hy.
        assert (Hxs : x = 0 \/ x = 1) by lia.
        assert (Hys : y = 0 \/ y = 1 \/ y = 2 \/ y = 3 \/ y = 4 \/ y = 5 \/ y = 6 \/ y = 7) by lia.
        destruct Hxs as [-> | ->];
          destruct Hys as [-> | [-> | [-> | [-> | [-> | [-> | [-> | ->]]]]]]];
          vm_compute in Ho; discriminate.
    + split; [vm_compute; split; discriminate|]. split.
      * exists 1. split; [vm_compute; split; discriminate|reflexivity].
      * intros x Hx (y & Hy & Ho).
        change (tileX1 8 0) with 7 in Hx. change (tileY0 8 0) with 0 in Hy.
        change (tileY1 8 0) with 7 in Hy.
        assert (Hxs : x = 6 \/ x = 7) by lia.
        assert (Hys : y = 0 \/ y = 1 \/ y = 2 \/ y = 3 \/ y = 4 \/ y = 5 \/ y = 6 \/ y = 7) by lia.
        destruct Hxs as [-> | ->];
          destruct Hys as [-> | [-> | [-> | [-> | [-> | [-> | [-> | ->]]]]]]];
          vm_compute in Ho; discriminate.
Defined.

Lemma quote_alternation_witness :
  let text := [34; 97; 34; 32; 34; 98; 34] in
  let quotes := quoteAlt sampleRenderer in
  defaultOnly text defaultOpts <> Some false
  /\ codePointAt text 4 = Some 34
  /\ occurrences text 34 5 = 3
  /\ exists q,
       spans (penAfter text defaultOpts sampleAscii ∅ quotes 5)
       = spans (penAfter text defaultOpts sampleAscii ∅ quotes 4) ++ [q]
       /\ q_pack q = FromQuote sampleQuote
       /\ quadUV q = (0, 0, 1, 1)%Q.
Proof.
  cbv zeta.
  assert (Hmode : defaultOnly [34; 97; 34; 32; 34; 98; 34] defaultOpts <> Some false)
    by (vm_compute; discriminate).
  split; [exact Hmode|]. split; [reflexivity|]. split; [reflexivity|].
  destruct (quote_alternation [34; 97; 34; 32; 34; 98; 34] defaultOpts sampleAscii ∅
              (quoteAlt sampleRenderer) 4 34 Hmode (or_introl eq_refl) eq_refl)
    as (_ & _ & _ & _ & q & Hsp & Hodd & _).
  exists q. split; [exact Hsp|]. apply (Hodd eq_refl sampleQuote). reflexivity.
Defined.

Lemma baseline_unification_witness :
  let text := [0x41; 0xAC00] in
  let o := withMode defaultOpts "mixed" in
  validMode (mode o)
  /\ codePointAt text 1 = Some 0xAC00
  /\ routedAscii (defaultOnly text o) 0xAC00 = false
  /\ refCenter text (withBaseline o "auto") sampleAscii ∅
     = refCenter text (withBaseline o "glyph") sampleAscii ∅.
Proof.
  cbv zeta.
  assert (Hvalid : validMode (mode (withMode defaultOpts "mixed")))
    by (right; left; reflexivity).
  split; [exact Hvalid|]. split; [reflexivity|]. split; [reflexivity|].
  apply (baseline_unification [0x41; 0xAC00] (withMode defaultOpts "mixed") sampleAscii ∅ ∅
           Hvalid).
  exists 1%nat, 0xAC00. split; [reflexivity|]. split; [discriminate|reflexivity].
Defined.

Lemma mixed_space_advance_witness :
  let text := [0x41; 32; 0x42] in
  let o := withMode defaultOpts "mixed" in
  mode o = "mixed"%string
  /\ codePointAt text 1 = Some 32
  /\ penX (penAfter text o sampleAscii ∅ ∅ 2) = penX (penAfter text o sampleAscii ∅ ∅ 1) + 9
  /\ spans (penAfter text o sampleAscii ∅ ∅ 2) = spans (penAfter text o sampleAscii ∅ ∅ 1)
  /\ prevKind (penAfter text o sampleAscii ∅ ∅ 2) = None.
Proof.
  cbv zeta. split; [reflexivity|]. split; [reflexivity|].
  exact (mixed_space_advance [0x41; 32; 0x42] (withMode defaultOpts "mixed") sampleAscii ∅ ∅
           1 eq_refl eq_refl).
Defined.

Lemma sampleAscii_uint16 : uint16Table sampleAscii.
Proof.
  apply Forall_forall. intros a Ha. apply elem_of_replicate in Ha as [-> _]. reflexivity.
Qed.

Lemma sampleGlyph_uint16 t : uint16Table (sampleGlyph t).
Proof.
  apply Forall_forall. intros a Ha. apply elem_of_replicate in Ha as [-> _]. reflexivity.
Qed.

(** The two code units of U+1F642 in mode 'mixed' and in mode 'glyph'.
    Page F6 is requested and loaded in both; the second unit, a lone low
    surrogate of page DE, is drawn from the ASCII atlas in mode 'mixed',
    where page 00 is not requested, and from page 00 in mode 'glyph'. *)
Lemma wide_glyph_fallback_witness :
  let text := [0xD83D; 0xDE42] in
  let mixed := withMode defaultOpts "mixed" in
  let forced := withMode defaultOpts "glyph" in
  let pageF6 := sampleGlyph 502 in
  let page00 := sampleGlyph 256 in
  (codePointAt text 0 = Some 0x1F642 /\ codeHi 0x1F642 = "F6"%string)
  /\ (codePointAt text 1 = Some 0xDE42 /\ codeHi 0xDE42 = "DE"%string)
  /\ match draw pageLoad sampleRenderer text mixed with
     | Drawn r l =>
         glyphs r = {["F6"%string := pageF6]}
         /\ exists q1 q2,
              l_spans l = [q1; q2]
              /\ q_pack q1 = FromAtlas pageF6
              /\ quadUV q1 = tileUV 16 2 4 256 256
              /\ q_pack q2 = FromAtlas sampleAscii
              /\ quadUV q2 = tileUV 16 2 4 128 128
              /\ l_penX l = q_x q2 + 12
     | _ => False
     end
  /\ match draw pageLoad sampleRenderer text forced with
     | Drawn r l =>
         glyphs r = <["00"%string := page00]> {["F6"%string := pageF6]}
         /\ exists q1 q2,
              l_spans l = [q1; q2]
              /\ q_pack q1 = FromAtlas pageF6
              /\ q_pack q2 = FromAtlas page00
              /\ quadUV q2 = tileUV 16 2 4 256 256
              /\ l_penX l = q_x q2 + 24
     | _ => False
     end.
Proof.
  cbv zeta. split; [split; reflexivity|]. split; [split; reflexivity|].
  set (text := [0xD83D; 0xDE42]).
  assert (Hc0 : codePointAt text 0 = Some 0x1F642) by reflexivity.
  assert (Hc1 : codePointAt text 1 = Some 0xDE42) by reflexivity.
  split.
  - set (o := withMode defaultOpts "mixed").
    set (gm := {["F6"%string := sampleGlyph 502]} : gmap string pack).
    assert (He : _ensureGlyphPacks pageLoad ∅ (neededPages (mode o) text) = Some gm)
      by (vm_compute; reflexivity).
    unfold draw. cbn [ascii glyphs quoteAlt sampleRenderer]. rewrite He.
    split; [reflexivity|]. cbn [l_spans l_penX].
    match goal with |- context [emitAll _ _ _ _ ?q] => set (quotes := q) end.
    destruct (wide_glyph_fallback text o sampleAscii gm quotes
                0 0x1F642 Hc0 ltac:(discriminate) eq_refl)
      as (_ & _ & _ & q1 & Hsp1 & Hpack1 & Huv1 & _).
    destruct (wide_glyph_fallback text o sampleAscii gm quotes
                1 0xDE42 Hc1 ltac:(discriminate) eq_refl)
      as (_ & _ & _ & q2 & Hsp2 & Hpack2 & Huv2 & Hpen2 & _).
    exists q1, q2. unfold emitAll. change (length text) with 2%nat.
    split; [rewrite Hsp2, Hsp1; reflexivity|].
    split; [exact Hpack1|]. split; [exact Huv1|].
    split; [exact Hpack2|]. split; [exact Huv2|].
    rewrite Hpen2. reflexivity.
  - set (o := withMode defaultOpts "glyph").
    set (gm := <["00"%string := sampleGlyph 256]> {["F6"%string := sampleGlyph 502]}
               : gmap string pack).
    assert (He : _ensureGlyphPacks pageLoad ∅ (neededPages (mode o) text) = Some gm)
      by (vm_compute; reflexivity).
    unfold draw. cbn [ascii glyphs quoteAlt sampleRenderer]. rewrite He.
    split; [reflexivity|]. cbn [l_spans l_penX].
    match goal with |- context [emitAll _ _ _ _ ?q] => set (quotes := q) end.
    destruct (wide_glyph_fallback text o sampleAscii gm quotes
                0 0x1F642 Hc0 ltac:(discriminate) eq_refl)
      as (_ & _ & _ & q1 & Hsp1 & Hpack1 & _).
    destruct (wide_glyph_fallback text o sampleAscii gm quotes
                1 0xDE42 Hc1 ltac:(discriminate) eq_refl)
      as (_ & _ & _ & q2 & Hsp2 & Hpack2 & Huv2 & Hpen2 & _).
    exists q1, q2. unfold emitAll. change (length text) with 2%nat.
    split; [rewrite Hsp2, Hsp1; reflexivity|].
    split; [exact Hpack1|]. split; [exact Hpack2|]. split; [exact Huv2|].
    rewrite Hpen2. reflexivity.
Defined.

(** At scale [2^1023] the first product of the advance of 'A' leaves
    the double range, the letter spacing 0 turns the infinity into NaN,
    and the pen and the position of the next span are NaN: no order
    holds between them and what came before. *)
Lemma pen_order_fails_on_overflow :
  let penAt := jsPenAfter [0x41; 0x42] hugeScaleOpts sampleAscii ∅ in
  nonNegativeOpts hugeScaleOpts
  /\ jsDp hugeScaleOpts (jsMul (Fin 6) (Fin (3 # 2))) = PosInf
  /\ jsPenX (penAt 0%nat) = Fin 0
  /\ jsPenX (penAt 1%nat) = NaN
  /\ jsLe (jsPenX (penAt 0%nat)) (jsPenX (penAt 1%nat)) = false
  /\ quadXs (penAt 2%nat) = [Fin 0; NaN]
  /\ jsLe (Fin 0) NaN = false.
Proof.
  cbv zeta. split; [repeat split; discriminate|].
  repeat split; vm_compute; reflexivity.
Qed.

Lemma pen_monotone_in_range_witness :
  let text := [0x41; 32; 0xAC00] in
  let gm : gmap string pack :=
    <["00"%string := sampleGlyph 256]> {["AC"%string := sampleGlyph 428]} in
  let penAt := jsPenAfter text defaultOpts sampleAscii gm in
  _ensureGlyphPacks pageLoad ∅ (neededPages (mode defaultOpts) text) = Some gm
  /\ nonNegativeOpts defaultOpts
  /\ boundedOpts defaultOpts
  /\ uint16Table sampleAscii
  /\ map_Forall (fun _ p => uint16Table p) gm
  /\ Z.of_nat (length text) <= 2 ^ 53
  /\ jsPenX (penAt 1%nat) = Fin 24
  /\ jsPenX (penAt 3%nat) = Fin 60
  /\ jsLe (jsPenX (penAt 1%nat)) (jsPenX (penAt 3%nat)) = true.
Proof.
  cbv zeta.
  assert (Hnonneg : nonNegativeOpts defaultOpts) by (repeat split; discriminate).
  assert (Hbounded : boundedOpts defaultOpts) by (repeat split; discriminate).
  assert (Hglyph : map_Forall (fun _ p => uint16Table p)
                     (<["00"%string := sampleGlyph 256]> {["AC"%string := sampleGlyph 428]}
                      : gmap string pack)).
  { apply map_Forall_insert_2; [apply sampleGlyph_uint16|].
    apply map_Forall_singleton, sampleGlyph_uint16. }
  assert (Hlen : Z.of_nat (length [0x41; 32; 0xAC00]) <= 2 ^ 53) by (vm_compute; discriminate).
  split; [vm_compute; reflexivity|].
  split; [exact Hnonneg|]. split; [exact Hbounded|]. split; [exact sampleAscii_uint16|].
  split; [exact Hglyph|]. split; [exact Hlen|].
  split; [vm_compute; reflexivity|]. split; [vm_compute; reflexivity|].
  destruct (pen_monotone_in_range [0x41; 32; 0xAC00] defaultOpts sampleAscii _
              Hnonneg Hbounded sampleAscii_uint16 Hglyph Hlen) as (_ & Hmono & _).
  apply Hmono; simpl; lia.
Defined.

(** * Further properties of the renderer *)

(** ** Batching by texture *)

Lemma batchRuns_snoc spans s :
  batchRuns (spans ++ [s]) = batchStep (batchRuns spans) s.
Proof. unfold batchRuns. rewrite fold_left_app. reflexivity. Qed.

Lemma batchStep_cases runs s :
  (runs = [] /\ batchStep runs s = [ {| r_pack := q_pack s; r_list := [s] |} ])
  \/ (exists done cur, runs = done ++ [cur] /\ r_pack cur = q_pack s
        /\ batchStep runs s
           = done ++ [ {| r_pack := r_pack cur; r_list := r_list cur ++ [s] |} ])
  \/ (exists done cur, runs = done ++ [cur] /\ r_pack cur <> q_pack s
        /\ batchStep runs s = runs ++ [ {| r_pack := q_pack s; r_list := [s] |} ]).
Proof.
  unfold batchStep. destruct (last runs) as [cur|] eqn:Hlast.
  - apply last_Some in Hlast as [done ->]. right.
    destruct (decide (r_pack cur = q_pack s)) as [He|Hne].
    + left. exists done, cur. rewrite removelast_last. auto.
    + right. exists done, cur. auto.
  - apply last_None in Hlast. left. subst. auto.
Qed.

(** The runs, the last run's pack and the homogeneity of the runs, along
    the loop. *)
Lemma batchRuns_invariant spans :
  concat (map r_list (batchRuns spans)) = spans
  /\ Forall (fun r => r_list r <> [] /\ Forall (fun q => q_pack q = r_pack r) (r_list r))
            (batchRuns spans)
  /\ (r_pack <$> last (batchRuns spans)) = (q_pack <$> last spans).
Proof.
  induction spans as [|s spans (Hcat & Hhom & Hlast)] using rev_ind.
  - repeat split. constructor.
  - rewrite batchRuns_snoc, last_snoc.
    destruct (batchStep_cases (batchRuns spans) s)
      as [[Hnil ->]|[(done & cur & Hruns & Hsame & ->)|(done & cur & Hruns & Hdiff & ->)]].
    + rewrite Hnil in Hcat. simpl in Hcat. subst spans. repeat split.
      repeat constructor. discriminate.
    + rewrite Hruns in Hcat, Hhom. rewrite map_app, concat_app in Hcat |- *.
      simpl in Hcat |- *. rewrite app_nil_r in Hcat |- *.
      apply Forall_app in Hhom as [Hdone Hcur]. apply Forall_singleton in Hcur as [_ Hcur].
      split; [rewrite <- Hcat, app_assoc; reflexivity|]. split; [|rewrite last_snoc; simpl; congruence].
      apply Forall_app. split; [exact Hdone|]. apply Forall_singleton. simpl. split.
      * intros H. apply app_eq_nil in H as [_ H]. discriminate.
      * apply Forall_app. split; [exact Hcur|]. apply Forall_singleton. congruence.
    + split; [|split; [|rewrite last_snoc; reflexivity]].
      * rewrite map_app, concat_app, Hcat. simpl. reflexivity.
      * apply Forall_app. split; [exact Hhom|]. apply Forall_singleton. simpl.
        split; [discriminate|]. apply Forall_singleton. reflexivity.
Qed.

(** X1. The runs partition the spans in emission order: their lists
    concatenate to the spans, no run is empty and every quad of a run has
    the run's pack. *)
Theorem batchRuns_partition spans :
  concat (map r_list (batchRuns spans)) = spans
  /\ Forall (fun r => r_list r <> [] /\ Forall (fun q => q_pack q = r_pack r) (r_list r))
            (batchRuns spans).
Proof. destruct (batchRuns_invariant spans) as (H1 & H2 & _). auto. Qed.

Lemma packSwitches_snoc spans a s :
  packSwitches ((spans ++ [a]) ++ [s])
  = (packSwitches (spans ++ [a]) + (if decide (q_pack a = q_pack s) then 0 else 1))%nat.
Proof.
  induction spans as [|b spans IH]; [simpl; lia|].
  destruct spans as [|c spans].
  - simpl. lia.
  - change (packSwitches (((b :: c :: spans) ++ [a]) ++ [s]))
      with ((if decide (q_pack b = q_pack c) then 0 else 1)
            + packSwitches (((c :: spans) ++ [a]) ++ [s]))%nat.
    change (packSwitches ((b :: c :: spans) ++ [a]))
      with ((if decide (q_pack b = q_pack c) then 0 else 1)
            + packSwitches ((c :: spans) ++ [a]))%nat.
    rewrite IH. lia.
Qed.

Lemma adjacent_differ_snoc {A} (l : list A) p :
  (forall i a b, l !! i = Some a -> l !! S i = Some b -> a <> b) ->
  (forall a, last l = Some a -> a <> p) ->
  forall i a b, (l ++ [p]) !! i = Some a -> (l ++ [p]) !! S i = Some b -> a <> b.
Proof.
  intros Hadj Hlast i a b Ha Hb.
  assert (Hi : (S i < length (l ++ [p]))%nat) by (eapply lookup_lt_Some, Hb).
  rewrite length_app in Hi. simpl in Hi.
  rewrite lookup_app_l in Ha by lia.
  destruct (decide (S i = length l)) as [He|Hne].
  - rewrite He, list_lookup_middle in Hb by reflexivity. injection Hb as <-.
    apply Hlast. rewrite last_lookup. rewrite <- He. exact Ha.
  - rewrite lookup_app_l in Hb by lia. exact (Hadj i a b Ha Hb).
Qed.

(** The packs of the runs along the loop: consecutive ones differ, and
    there is one per pack switch. *)
Lemma batchRuns_packs spans :
  (forall i a b, (r_pack <$> batchRuns spans) !! i = Some a ->
                 (r_pack <$> batchRuns spans) !! S i = Some b -> a <> b)
  /\ length (batchRuns spans)
     = match spans with
       | [] => 0%nat
       | _ => S (packSwitches spans)
       end.
Proof.
  induction spans as [|s spans [Hadj Hlen]] using rev_ind.
  - split; [intros i a b H; inversion H|reflexivity].
  - destruct (batchRuns_invariant spans) as (_ & _ & Hlast).
    rewrite batchRuns_snoc.
    assert (Hcount : forall n : nat,
              (n = match spans with [] => 0 | _ => S (packSwitches spans) end)%nat ->
              (q_pack <$> last spans) <> Some (q_pack s) ->
              (S n = match spans ++ [s] with [] => 0 | _ => S (packSwitches (spans ++ [s])) end)%nat).
    { intros n Hn Hne. destruct spans as [|x spans _] using rev_ind; [subst; reflexivity|].
      rewrite last_snoc in Hne. simpl in Hne.
      rewrite packSwitches_snoc, decide_False by congruence.
      destruct (spans ++ [x]) eqn:Hsx; [destruct spans; discriminate|].
      destruct ((q :: l) ++ [s]) eqn:Hqs; [discriminate|]. lia. }
    destruct (batchStep_cases (batchRuns spans) s)
      as [[Hnil ->]|[(done & cur & Hruns & Hsame & ->)|(done & cur & Hruns & Hdiff & ->)]].
    + rewrite Hnil in Hlast, Hlen. split; [intros [|i] a b Ha Hb; inversion Hb|].
      apply (Hcount 0%nat); [exact Hlen|]. rewrite <- Hlast. discriminate.
    + rewrite Hruns in Hadj, Hlen, Hlast. split.
      * rewrite fmap_app in Hadj |- *. exact Hadj.
      * rewrite last_snoc in Hlast. simpl in Hlast.
        destruct spans as [|x spans _] using rev_ind; [discriminate|].
        rewrite last_snoc in Hlast. injection Hlast as Hlast.
        rewrite packSwitches_snoc, decide_True by congruence.
        rewrite length_app in *. simpl in *.
        destruct (spans ++ [x]) eqn:Hsx; [destruct spans; discriminate|].
        destruct ((q :: l) ++ [s]) eqn:Hqs; [discriminate|]. lia.
    + split.
      * rewrite fmap_app. apply adjacent_differ_snoc; [exact Hadj|].
        intros a Ha. rewrite fmap_last, Hruns, last_snoc in Ha. injection Ha as <-. exact Hdiff.
      * rewrite length_app. simpl. rewrite Nat.add_1_r. apply Hcount; [exact Hlen|].
        rewrite <- Hlast, Hruns, last_snoc. simpl. congruence.
Qed.

(** X2. The runs are maximal: two consecutive runs never share a pack, and
    the number of runs of a non-empty plan is one more than the number of
    pack switches between consecutive spans. *)
Theorem batchRuns_maximal spans :
  (forall i a b, batchRuns spans !! i = Some a -> batchRuns spans !! S i = Some b ->
                 r_pack a <> r_pack b)
  /\ length (batchRuns spans)
     = match spans with
       | [] => 0%nat
       | _ => S (packSwitches spans)
       end.
Proof.
  destruct (batchRuns_packs spans) as [Hadj Hlen]. split; [|exact Hlen].
  intros i a b Ha Hb. apply (Hadj i); rewrite list_lookup_fmap; [rewrite Ha|rewrite Hb]; reflexivity.
Qed.

(** ** The page cache *)

Lemma ensure_fold_exact load (glyphs0 : gmap string pack) (l : list string) :
  match foldr (fun hi acc =>
           match acc with
           | None => None
           | Some g =>
               match glyphs0 !! hi with
               | Some _ => Some g
               | None => match load hi with
                         | Some p => Some (<[hi := p]> g)
                         | None => None
                         end
               end
           end) (Some glyphs0) l with
  | Some g' =>
      (forall hi, g' !! hi = match glyphs0 !! hi with
                             | Some p => Some p
                             | None => if decide (hi ∈ l) then load hi else None
                             end)
      /\ (forall hi, hi ∈ l -> glyphs0 !! hi = None -> is_Some (load hi))
  | None => exists hi, hi ∈ l /\ glyphs0 !! hi = None /\ load hi = None
  end.
Proof.
  induction l as [|hi l IH]; cbn [foldr].
  - split; [|intros hi H; inversion H]. intros hi.
    destruct (glyphs0 !! hi); [reflexivity|].
    rewrite decide_False; [reflexivity|]. intros H. inversion H.
  - destruct (foldr _ _ l) as [g|].
    + destruct IH as [Hg Hok]. destruct (glyphs0 !! hi) as [p0|] eqn:Hhi.
      * split.
        -- intros hi'. rewrite Hg. destruct (glyphs0 !! hi') eqn:Hhi'; [reflexivity|].
           assert (hi' <> hi) by congruence.
           destruct (decide (hi' ∈ l)) as [Hin|Hnin].
           ++ rewrite decide_True by (right; exact Hin). reflexivity.
           ++ rewrite decide_False; [reflexivity|].
              intros Hc. apply elem_of_cons in Hc as [?|?]; contradiction.
        -- intros hi' Hin Hnone. apply elem_of_cons in Hin as [->|Hin]; [congruence|].
           apply Hok; assumption.
      * destruct (load hi) as [p|] eqn:Hload.
        -- split.
           ++ intros hi'. destruct (decide (hi' = hi)) as [->|Hne].
              ** rewrite lookup_insert_eq, Hhi. rewrite decide_True by left. auto.
              ** rewrite lookup_insert_ne by congruence. rewrite Hg.
                 destruct (glyphs0 !! hi'); [reflexivity|].
                 destruct (decide (hi' ∈ l)) as [Hin|Hnin].
                 --- rewrite decide_True by (right; exact Hin). reflexivity.
                 --- rewrite decide_False; [reflexivity|].
                     intros Hc. apply elem_of_cons in Hc as [?|?]; contradiction.
           ++ intros hi' Hin Hnone. apply elem_of_cons in Hin as [->|Hin]; [eauto|].
              apply Hok; assumption.
        -- exists hi. split; [left|auto].
    + destruct IH as (hi' & Hin & Hnone & Hfail). exists hi'. split; [right; exact Hin|auto].
Qed.

Lemma ensure_exact load (glyphs0 : gmap string pack) (need : gset string) :
  (_ensureGlyphPacks load glyphs0 need = None
   <-> exists hi, hi ∈ need /\ glyphs0 !! hi = None /\ load hi = None)
  /\ (forall g', _ensureGlyphPacks load glyphs0 need = Some g' ->
        forall hi, g' !! hi = match glyphs0 !! hi with
                              | Some p => Some p
                              | None => if decide (hi ∈ need) then load hi else None
                              end).
Proof.
  unfold _ensureGlyphPacks.
  pose proof (ensure_fold_exact load glyphs0 (elements need)) as H.
  destruct (foldr _ _ (elements need)) as [g|].
  - destruct H as [Hg Hok]. split.
    + split; [discriminate|]. intros (hi & Hin & Hnone & Hfail).
      destruct (Hok hi) as [p Hp]; [apply elem_of_elements, Hin|exact Hnone|]. congruence.
    + intros g' [= <-] hi. rewrite Hg. destruct (glyphs0 !! hi); [reflexivity|].
      destruct (decide (hi ∈ need)) as [Hin|Hnin].
      * rewrite decide_True by (apply elem_of_elements, Hin). reflexivity.
      * rewrite decide_False; [reflexivity|]. rewrite elem_of_elements. exact Hnin.
  - destruct H as (hi & Hin & Hnone & Hfail). split; [|discriminate].
    split; [|reflexivity]. intros _. exists hi. split; [apply elem_of_elements, Hin|auto].
Qed.

(** X3. [_ensureGlyphPacks] rejects exactly when a needed page that is not
    loaded yet fails to load; otherwise the registry afterwards holds every
    pack it held before, the freshly loaded pack for each needed page that
    was missing, and nothing else. *)
Theorem ensureGlyphPacks_exact load (glyphs0 : gmap string pack) (need : gset string) :
  (_ensureGlyphPacks load glyphs0 need = None
   <-> exists hi, hi ∈ need /\ glyphs0 !! hi = None /\ load hi = None)
  /\ (forall g', _ensureGlyphPacks load glyphs0 need = Some g' ->
        forall hi, g' !! hi = match glyphs0 !! hi with
                              | Some p => Some p
                              | None => if decide (hi ∈ need) then load hi else None
                              end).
Proof. exact (ensure_exact load glyphs0 need). Qed.

Lemma ensure_fold_loaded load (g : gmap string pack) (l : list string) :
  (forall hi, hi ∈ l -> is_Some (g !! hi)) ->
  foldr (fun hi acc =>
           match acc with
           | None => None
           | Some g0 =>
               match g !! hi with
               | Some _ => Some g0
               | None => match load hi with
                         | Some p => Some (<[hi := p]> g0)
                         | None => None
                         end
               end
           end) (Some g) l = Some g.
Proof.
  induction l as [|hi l IH]; intros H; simpl; [reflexivity|].
  rewrite IH by (intros hi' Hin; apply H; right; exact Hin).
  destruct (H hi) as [p ->]; [left|reflexivity].
Qed.

(** X4. Loaded pages are cached: once a page set has been ensured, ensuring
    it (or any part of it) again returns the registry unchanged without
    consulting the loader, whatever the loader would answer. *)
Theorem ensureGlyphPacks_cached load (glyphs0 : gmap string pack) (need : gset string) g' :
  _ensureGlyphPacks load glyphs0 need = Some g' ->
  forall load' (need' : gset string),
    need' ⊆ need -> _ensureGlyphPacks load' g' need' = Some g'.
Proof.
  intros Hens load' need' Hsub. unfold _ensureGlyphPacks.
  apply ensure_fold_loaded. intros hi Hin%elem_of_elements.
  apply (ensureGlyphPacks_loaded _ _ _ _ Hens). apply Hsub, Hin.
Qed.

Lemma ensureGlyphPacks_cached_witness :
  exists g',
    _ensureGlyphPacks sampleLoad ∅ {["00"%string; "AC"%string]} = Some g'
    /\ _ensureGlyphPacks (fun _ => None) g' {["AC"%string]} = Some g'.
Proof.
  destruct (ensureGlyphPacks_total sampleLoad ∅ {["00"%string; "AC"%string]}) as [g' Hg'].
  { intros hi _ _. unfold sampleLoad. eauto. }
  exists g'. split; [exact Hg'|].
  apply (ensureGlyphPacks_cached sampleLoad ∅ {["00"%string; "AC"%string]} g' Hg').
  intros hi Hin. apply elem_of_singleton in Hin as ->.
  apply elem_of_union. right. apply elem_of_singleton. reflexivity.
Defined.

(** ** Shape and spacing of the emitted quads *)

Section Quads.
Variable text : list Z.
Variable o : opts.
Variable asciiPack : pack.
Variable glyphMap : gmap string pack.
Variable quotes : gmap Z quotePack.

Local Abbreviation penAt := (penAfter text o asciiPack glyphMap quotes).
Local Abbreviation route := (routedAscii (defaultOnly text o)).

(** What the step of a non-space position appends. *)
Lemma emitted_quad_shape i cp :
  codePointAt text i = Some cp -> cp <> 32 ->
  exists q,
    spans (penAt (S i)) = spans (penAt i) ++ [q]
    /\ q_h q = q_w q
    /\ q_x q = penX (penAt i)
               + gapBetween text o (prevKind (penAt i)) (if route cp then KAscii else KGlyph)
    /\ prevKind (penAt (S i)) = Some (if route cp then KAscii else KGlyph)
    /\ if route cp
       then q_w q = dp o (8 * ds o)
            /\ ((q_pack q = FromAtlas asciiPack
                 /\ quadUV q = tileUV 8 (cp mod 16) (cp / 16) (w asciiPack) (h asciiPack))
                \/ (exists alt, (cp = 34 \/ cp = 39) /\ quotes !! cp = Some alt
                                /\ defaultOnly text o <> Some false
                                /\ q_pack q = FromQuote alt
                                /\ quadUV q = (0, 0, 1, 1)%Q))
       else q_w q = dp o 16
            /\ q_pack q = FromAtlas (glyphPackFor asciiPack glyphMap (codeHi cp))
            /\ quadUV q = tileUV 16 (codeLo cp mod 16) (codeLo cp / 16)
                                 (w (glyphPackFor asciiPack glyphMap (codeHi cp)))
                                 (h (glyphPackFor asciiPack glyphMap (codeHi cp))).
Proof.
  intros Hcp Hne.
  rewrite (penAfter_S text o asciiPack glyphMap quotes),
    (emitStep_char text o asciiPack glyphMap quotes _ _ _ Hcp Hne).
  set (s := penAt i). unfold gapBetween.
  destruct (route cp) eqn:Hroute.
  - unfold pushAscii, quoteSwap, pushQuad. cbv zeta.
    assert (Hgap : (if match defaultOnly text o with None => true | Some _ => false end
                       && match prevKind s with Some KGlyph => true | _ => false end
                       && Qpositive (asciiAfterGlyphPadPx o)
                    then penX s + Math_round (scale o * asciiAfterGlyphPadPx o)
                    else penX s)
                   = penX s + match prevKind s with
                              | Some KGlyph =>
                                  match defaultOnly text o with
                                  | None => if Qpositive (asciiAfterGlyphPadPx o)
                                            then Math_round (scale o * asciiAfterGlyphPadPx o)
                                            else 0
                                  | Some _ => 0
                                  end
                              | _ => 0
                              end).
    { destruct (defaultOnly text o), (prevKind s) as [[|]|],
        (Qpositive (asciiAfterGlyphPadPx o)); simpl; lia. }
    rewrite Hgap.
    destruct (defaultOnly text o) as [[|]|] eqn:Hmode;
      try (destruct (Z.eqb_spec cp 34) as [-> |H34];
           [|destruct (Z.eqb_spec cp 39) as [-> |H39]]);
      cbv iota beta;
      try (destruct (_ mod 2 =? 1); [destruct (quotes !! _) as [alt|] eqn:Halt|]);
      cbn [spans prevKind]; eexists; (split; [reflexivity|]);
      cbn [q_h q_w q_x q_pack quadUV q_u0 q_v0 q_u1 q_v1];
      (split; [reflexivity|]); (split; [reflexivity|]); (split; [reflexivity|]);
      (split; [reflexivity|]);
      first [ left; split; reflexivity
            | right; exists alt; repeat split; auto; discriminate ].
  - unfold pushGlyph, pushQuad. cbv zeta. cbn [spans prevKind].
    eexists. split; [reflexivity|]. cbn [q_h q_w q_x q_pack quadUV q_u0 q_v0 q_u1 q_v1].
    split; [reflexivity|]. split.
    + destruct (prevKind s) as [[|]|], (Qpositive (glyphTrackPx o)); simpl; lia.
    + repeat split.
Qed.

Lemma classAt_Some i cp :
  codePointAt text i = Some cp -> cp <> 32 ->
  classAt text o i = Some (if route cp then KAscii else KGlyph).
Proof.
  intros Hcp Hne. unfold classAt. rewrite Hcp.
  destruct (Z.eqb_spec cp 32); [contradiction|reflexivity].
Qed.

(** The tracker holds the kind of the glyph emitted at the position just
    before. *)
Lemma prevKind_classBefore i :
  (i <= length text)%nat -> prevKind (penAt i) = classBefore text o i.
Proof.
  destruct i as [|i]; [reflexivity|]. intros Hi. simpl classBefore.
  destruct (codePointAt_lt_Some text i) as [cp Hcp]; [lia|].
  destruct (Z.eq_dec cp 32) as [->|Hne].
  - rewrite (penAfter_S text o asciiPack glyphMap quotes),
      (emitStep_space text o asciiPack glyphMap quotes) by exact Hcp.
    unfold classAt. rewrite Hcp. reflexivity.
  - destruct (emitted_quad_shape i cp Hcp Hne) as (q & _ & _ & _ & Hk & _).
    rewrite Hk. symmetry. apply classAt_Some; assumption.
Qed.

(** X5. Spacing rule.  The quad of a non-space character is placed at the
    pen position plus a gap that depends only on the character just
    before it in the text: the glyph tracking when both are wide, the
    ASCII-after-glyph padding when an ASCII glyph follows a wide one in
    mode 'mixed', and nothing after a space, at the start of the line or
    after an ASCII glyph. *)
Theorem glyph_spacing i cp :
  codePointAt text i = Some cp ->
  cp <> 32 ->
  exists q,
    spans (penAt (S i)) = spans (penAt i) ++ [q]
    /\ q_x q = penX (penAt i)
               + gapBetween text o (classBefore text o i)
                            (if route cp then KAscii else KGlyph).
Proof.
  intros Hcp Hne.
  destruct (emitted_quad_shape i cp Hcp Hne) as (q & Hsp & _ & Hx & _).
  exists q. split; [exact Hsp|].
  rewrite <- prevKind_classBefore; [exact Hx|].
  apply codePointAt_Some_lt in Hcp. lia.
Qed.

Lemma spans_count n :
  length (spans (penAt n))
  = length (filter (fun c => c <> 32) (pointsAt text (seq 0 n))).
Proof.
  induction n as [|n IH]; [reflexivity|].
  rewrite seq_S, pointsAt_snoc, filter_app, length_app, <- IH. simpl.
  destruct (codePointAt text n) as [cp|] eqn:Hcp.
  - destruct (Z.eq_dec cp 32) as [->|Hne].
    + rewrite (penAfter_S text o asciiPack glyphMap quotes),
        (emitStep_space text o asciiPack glyphMap quotes) by exact Hcp.
      rewrite filter_cons_False by (intros H; apply H; reflexivity). simpl. lia.
    + destruct (emitted_quad_shape n cp Hcp Hne) as (q & -> & _).
      rewrite filter_cons_True by exact Hne. rewrite length_app. reflexivity.
  - rewrite (penAfter_S text o asciiPack glyphMap quotes). unfold emitStep. rewrite Hcp.
    simpl. lia.
Qed.

(** X6. One quad per non-space code unit: the line has exactly as many
    quads as the text has positions whose code point is not a space, so a
    surrogate pair, which the loop visits at both of its units, yields two
    quads. *)
Theorem quad_count :
  length (spans (emitAll text o asciiPack glyphMap quotes))
  = length (filter (fun c => c <> 32) (pointsAt text (seq 0 (length text))))
  /\ forall i u v,
       text !! i = Some u -> text !! S i = Some v ->
       isHighSurrogate u = true -> isLowSurrogate v = true ->
       exists q1 q2,
         spans (penAt (S (S i))) = spans (penAt i) ++ [q1; q2].
Proof.
  split; [apply spans_count|].
  intros i u v Hu Hv Hh Hl.
  assert (Hcp1 : codePointAt text i = Some (surrogatePair u v)).
  { unfold codePointAt. rewrite Hu, Hh, Hv, Hl. reflexivity. }
  assert (Hcp2 : codePointAt text (S i) = Some v).
  { unfold codePointAt. rewrite Hv.
    replace (isHighSurrogate v) with false; [reflexivity|].
    unfold isHighSurrogate, isLowSurrogate in *. lia. }
  destruct (emitted_quad_shape i _ Hcp1) as (q1 & Hs1 & _).
  { pose proof (surrogatePair_wide u v Hh Hl). lia. }
  destruct (emitted_quad_shape (S i) _ Hcp2) as (q2 & Hs2 & _).
  { unfold isLowSurrogate in Hl. lia. }
  exists q1, q2. rewrite Hs2, Hs1, <- app_assoc. reflexivity.
Qed.

(** X7. Forced modes.  In ascii-only rendering every quad, also that of a
    non-ASCII character, is a [dp (8 * ds)] square drawn from the ASCII
    atlas or from a quote alternate; in wide-only rendering every quad,
    also that of an ASCII character or a quote, is a [dp 16] square drawn
    from a glyph page or its fallback, never from a quote alternate. *)
Theorem forced_mode_quads q :
  q ∈ spans (emitAll text o asciiPack glyphMap quotes) ->
  (defaultOnly text o = Some true ->
     q_w q = dp o (8 * ds o) /\ q_h q = dp o (8 * ds o)
     /\ (q_pack q = FromAtlas asciiPack
         \/ exists alt, (quotes !! 34 = Some alt \/ quotes !! 39 = Some alt)
                        /\ q_pack q = FromQuote alt))
  /\ (defaultOnly text o = Some false ->
      q_w q = dp o 16 /\ q_h q = dp o 16
      /\ exists cp, q_pack q = FromAtlas (glyphPackFor asciiPack glyphMap (codeHi cp))).
Proof.
  intros Hq.
  destruct (spans_origin text o asciiPack glyphMap quotes _ _ Hq)
    as (i & cp & _ & Hcp & Hne & before & Hb).
  destruct (emitted_quad_shape i cp Hcp Hne) as (q' & Hsp & Hh & _ & _ & Hshape).
  assert (q' = q) as ->.
  { rewrite Hsp in Hb. apply app_inj_tail in Hb. apply Hb. }
  split; intros Hmode; unfold routedAscii in Hshape; rewrite Hmode in Hshape.
  - destruct Hshape as [Hw [[Hp _]|(alt & Hc & Halt & _ & Hp & _)]].
    + rewrite Hh, Hw. auto.
    + rewrite Hh, Hw. split; [reflexivity|]. split; [reflexivity|]. right. exists alt.
      split; [|exact Hp]. destruct Hc as [-> | ->]; auto.
  - destruct Hshape as (Hw & Hp & _). rewrite Hh, Hw. eauto.
Qed.

Lemma codeLo_range cp : 0 <= codeLo cp <= 255.
Proof.
  unfold codeLo. change 255 with (Z.ones 8). rewrite Z.land_ones by lia.
  pose proof (Z.mod_pos_bound cp (2 ^ 8) ltac:(lia)). change (2 ^ 8) with 256 in *.
  change (Z.ones 8) with 255. lia.
Qed.

(** X8. Wide glyphs sample inside their atlas: when the atlas selected
    for a wide character is a 256 x 256 page, the UV rectangle of its quad
    lies in the unit square and is one sixteenth wide and high. *)
Theorem wide_glyph_uv i cp :
  codePointAt text i = Some cp ->
  cp <> 32 ->
  route cp = false ->
  w (glyphPackFor asciiPack glyphMap (codeHi cp)) = 256 ->
  h (glyphPackFor asciiPack glyphMap (codeHi cp)) = 256 ->
  exists q,
    spans (penAt (S i)) = spans (penAt i) ++ [q]
    /\ (0 <= q_u0 q /\ q_u1 q <= 1 /\ 0 <= q_v0 q /\ q_v1 q <= 1)%Q
    /\ (q_u1 q - q_u0 q == 1 # 16)%Q
    /\ (q_v1 q - q_v0 q == 1 # 16)%Q.
Proof.
  intros Hcp Hne Hroute Hw Hh.
  destruct (emitted_quad_shape i cp Hcp Hne) as (q & Hsp & _ & _ & _ & Hshape).
  rewrite Hroute in Hshape. destruct Hshape as (_ & _ & Huv).
  rewrite Hw, Hh in Huv. unfold quadUV, tileUV in Huv.
  injection Huv as Hu0 Hv0 Hu1 Hv1.
  exists q. split; [exact Hsp|]. rewrite Hu0, Hv0, Hu1, Hv1.
  pose proof (codeLo_range cp) as Hlo.
  assert (Hcx : 0 <= codeLo cp mod 16 < 16) by (apply Z.mod_pos_bound; lia).
  assert (Hcy : 0 <= codeLo cp / 16 < 16).
  { split; [apply Z.div_pos; lia|apply Z.div_lt_upper_bound; lia]. }
  split; [|split].
  - repeat split; unfold Qle, Qdiv, Qmult, Qinv, inject_Z; simpl; lia.
  - unfold Qdiv, Qminus, Qeq, Qmult, Qplus, Qopp, Qinv, inject_Z. simpl. lia.
  - unfold Qdiv, Qminus, Qeq, Qmult, Qplus, Qopp, Qinv, inject_Z. simpl. lia.
Qed.
End Quads.

(** ** Outcomes of a draw call *)

(** X9. A draw call is skipped exactly when the ASCII atlas is not loaded,
    and rejects exactly when it is loaded and some needed page that is
    missing fails to load; a call that draws leaves the ASCII atlas and
    the quote alternates alone and adds to the registry exactly the needed
    pages that were missing. *)
Theorem draw_outcome load r text o :
  (draw load r text o = Skipped <-> ascii r = None)
  /\ (draw load r text o = LoadFailed
      <-> is_Some (ascii r)
          /\ exists hi, hi ∈ neededPages (mode o) text
                        /\ glyphs r !! hi = None /\ load hi = None)
  /\ (forall r' l,
        draw load r text o = Drawn r' l ->
        ascii r' = ascii r /\ quoteAlt r' = quoteAlt r
        /\ forall hi, glyphs r' !! hi
                      = match glyphs r !! hi with
                        | Some p => Some p
                        | None => if decide (hi ∈ neededPages (mode o) text)
                                  then load hi else None
                        end).
Proof.
  unfold draw.
  destruct (ensure_exact load (glyphs r) (neededPages (mode o) text)) as [Hfail Hok].
  destruct (ascii r) as [asciiPack|].
  - destruct (_ensureGlyphPacks load (glyphs r) (neededPages (mode o) text)) as [g'|].
    + split; [split; discriminate|]. split.
      * split; [discriminate|]. intros [_ Hex]. apply Hfail in Hex. discriminate.
      * intros r' l [= <- <-]. cbn [ascii quoteAlt glyphs]. auto.
    + split; [split; discriminate|]. split; [|discriminate].
      split; [|reflexivity]. intros _. split; [eauto|]. apply Hfail. reflexivity.
  - split; [split; reflexivity|]. split; [|discriminate].
    split; [discriminate|]. intros [[p Hp] _]. discriminate.
Qed.

(** X10. Ascii-only rendering never consults the page registry: in mode
    'default', and in mode 'auto' on an all-ASCII text, the draw call
    requests no page, cannot reject, whatever the loader, and leaves the
    renderer exactly as it was. *)
Theorem ascii_only_draw_loads_nothing load r text o asciiPack :
  ascii r = Some asciiPack ->
  mode o = "default"%string \/ (mode o = "auto"%string /\ allAscii text) ->
  exists l, draw load r text o = Drawn r l /\ l_need l = ∅.
Proof.
  intros Hascii Hmode. unfold draw. destruct r as [a g qa]. cbn [ascii glyphs quoteAlt] in *.
  subst a.
  assert (Hneed : neededPages (mode o) text = ∅).
  { unfold neededPages. cbv zeta.
    destruct Hmode as [->|[-> Hall]]; [reflexivity|].
    rewrite resolveMode_auto_ascii by exact Hall. reflexivity. }
  rewrite Hneed. unfold _ensureGlyphPacks. rewrite elements_empty. cbn [foldr].
  eexists. split; reflexivity.
Qed.

Lemma ascii_only_draw_loads_nothing_witness :
  exists l,
    draw (fun _ => None) sampleRenderer [0x48; 0x69] (withMode defaultOpts "default")
    = Drawn sampleRenderer l
    /\ l_need l = ∅.
Proof.
  apply (ascii_only_draw_loads_nothing (fun _ => None) sampleRenderer [0x48; 0x69]
           (withMode defaultOpts "default") sampleAscii eq_refl).
  left. reflexivity.
Defined.

(** ** Mode 'mixed' on plain ASCII text *)

Section AsciiText.
Variable text : list Z.
Variable o : opts.
Variable asciiPack : pack.
Variable glyphMap : gmap string pack.
Variable quotes : gmap Z quotePack.
Hypothesis text_ascii : Forall (fun u => u <= 0x7F) text.

Lemma ascii_codePointAt i : codePointAt text i = text !! i.
Proof.
  unfold codePointAt. destruct (text !! i) as [u|] eqn:Hu; [|reflexivity].
  assert (Hle : u <= 0x7F).
  { rewrite Forall_forall in text_ascii. apply text_ascii.
    eapply list_elem_of_lookup_2, Hu. }
  replace (isHighSurrogate u) with false; [reflexivity|].
  unfold isHighSurrogate. lia.
Qed.

Lemma ascii_unit i u : text !! i = Some u -> u <= 0x7F.
Proof.
  intros Hu. rewrite Forall_forall in text_ascii. apply text_ascii.
  eapply list_elem_of_lookup_2, Hu.
Qed.

Lemma ascii_findPrev i j c :
  (i <= length text)%nat ->
  (j < i)%nat -> text !! j = Some c -> c <> 32 ->
  presentAscii (findPrev text i) = true.
Proof.
  induction i as [|i IH]; intros Hi Hj Hc Hne; [lia|].
  simpl. rewrite ascii_codePointAt.
  destruct (text !! i) as [u|] eqn:Hu.
  - destruct (Z.eqb_spec u 32) as [->|Hu32].
    + apply IH; [lia| |exact Hc|exact Hne].
      destruct (Nat.eq_dec j i) as [->|]; [congruence|lia].
    + simpl. unfold isAsciiCode. apply Z.leb_le. eapply ascii_unit, Hu.
  - apply lookup_ge_None in Hu. lia.
Qed.

Lemma ascii_findNextFrom j n k c :
  (j + n <= length text)%nat ->
  (j <= k < j + n)%nat -> text !! k = Some c -> c <> 32 ->
  presentAscii (findNextFrom text j n) = true.
Proof.
  revert j. induction n as [|n IH]; intros j Hjn Hk Hc Hne; [lia|].
  simpl. rewrite ascii_codePointAt.
  destruct (text !! j) as [u|] eqn:Hu.
  - destruct (Z.eqb_spec u 32) as [->|Hu32].
    + apply IH; [lia| |exact Hc|exact Hne].
      destruct (Nat.eq_dec k j) as [->|]; [congruence|lia].
    + simpl. unfold isAsciiCode. apply Z.leb_le. eapply ascii_unit, Hu.
  - apply lookup_ge_None in Hu. lia.
Qed.

Lemma ascii_codePoints : forall t : list Z, Forall (fun u => u <= 0x7F) t -> codePoints t = t.
Proof.
  induction t as [|u t IH]; intros Ht; [reflexivity|].
  inversion Ht as [|? ? Hu Ht']; subst. specialize (IH Ht').
  destruct t as [|v rest]; [reflexivity|].
  change (codePoints (u :: v :: rest))
    with (if isHighSurrogate u && isLowSurrogate v
          then surrogatePair u v :: codePoints rest
          else u :: codePoints (v :: rest)).
  replace (isHighSurrogate u) with false by (unfold isHighSurrogate; lia).
  simpl andb. cbv iota. rewrite IH. reflexivity.
Qed.

Lemma ascii_hasGlyph_mixed : hasGlyph text (withMode o "mixed") = false.
Proof.
  unfold hasGlyph. cbn [withMode mode]. simpl String.eqb. simpl.
  rewrite orb_false_r. apply not_true_iff_false. intros H.
  apply existsb_nonAscii in H. destruct H as (cp & Hcp & Hwide).
  rewrite ascii_codePoints in Hcp by exact text_ascii.
  apply list_elem_of_lookup in Hcp as [i Hi]. apply ascii_unit in Hi. lia.
Qed.

Hypothesis first_not_space : head text <> Some 32.
Hypothesis last_not_space : last text <> Some 32.

Lemma interior_space_advance i :
  text !! i = Some 32 ->
  spaceAdvance text (withMode o "mixed") asciiPack glyphMap i
  = spaceAdvance text (withMode o "default") asciiPack glyphMap i.
Proof.
  intros Hsp. pose proof (lookup_lt_Some _ _ _ Hsp) as Hlen.
  unfold spaceAdvance, defaultOnly. cbn [withMode mode]. simpl resolveMode. cbv zeta iota.
  destruct (text !! 0%nat) as [c0|] eqn:H0; [|apply lookup_ge_None in H0; lia].
  assert (Hc0 : c0 <> 32).
  { intros ->. apply first_not_space. rewrite head_lookup. exact H0. }
  destruct (text !! pred (length text)) as [cl|] eqn:Hl; [|apply lookup_ge_None in Hl; lia].
  assert (Hcl : cl <> 32).
  { intros ->. apply last_not_space. rewrite last_lookup. exact Hl. }
  rewrite (ascii_findPrev i 0 c0); [|lia|destruct i; [congruence|lia]|exact H0|exact Hc0].
  unfold findNext.
  rewrite (ascii_findNextFrom (S i) (length text - S i) (pred (length text)) cl);
    [reflexivity|lia| |exact Hl|exact Hcl].
  destruct (Nat.eq_dec i (pred (length text))) as [->|]; [congruence|lia].
Qed.

Lemma ascii_pushAscii cp s :
  prevKind s <> Some KGlyph ->
  pushAscii text (withMode o "mixed") asciiPack glyphMap quotes cp s
  = pushAscii text (withMode o "default") asciiPack glyphMap quotes cp s.
Proof.
  intros Hprev. unfold pushAscii, quoteSwap, pushQuad, refCenter, dp, defaultOnly.
  rewrite ascii_hasGlyph_mixed.
  change (hasGlyph text (withMode o "default")) with false.
  cbn [withMode mode scale ds spacingMul baseline asciiAfterGlyphPadPx].
  simpl resolveMode. cbv iota zeta.
  destruct (prevKind s) as [[|]|]; [reflexivity|contradiction|reflexivity].
Qed.

Lemma mixed_default_prefix n :
  (n <= length text)%nat ->
  penAfter text (withMode o "mixed") asciiPack glyphMap quotes n
  = penAfter text (withMode o "default") asciiPack glyphMap quotes n
  /\ prevKind (penAfter text (withMode o "default") asciiPack glyphMap quotes n)
     <> Some KGlyph.
Proof.
  induction n as [|n IH]; intros Hn; [split; [reflexivity|discriminate]|].
  destruct IH as [Heq Hprev]; [lia|].
  destruct (lookup_lt_is_Some_2 text n) as [u Hu]; [lia|].
  assert (Hcp : codePointAt text n = Some u) by (rewrite ascii_codePointAt; exact Hu).
  assert (Hascii : isAsciiCode u = true) by (apply Z.leb_le; eapply ascii_unit, Hu).
  split.
  - rewrite !penAfter_S, Heq.
    destruct (Z.eq_dec u 32) as [->|Hne].
    + rewrite !emitStep_space by exact Hcp.
      rewrite interior_space_advance by exact Hu. reflexivity.
    + rewrite !(emitStep_char _ _ _ _ _ _ _ _ Hcp Hne).
      unfold routedAscii, defaultOnly. cbn [withMode mode]. simpl resolveMode. cbv iota.
      rewrite Hascii. apply ascii_pushAscii. exact Hprev.
  - destruct (Z.eq_dec u 32) as [->|Hne].
    + rewrite penAfter_S, emitStep_space by exact Hcp. discriminate.
    + destruct (emitted_quad_shape text (withMode o "default") asciiPack glyphMap quotes
                  n u Hcp Hne) as (q & _ & _ & _ & Hk & _).
      rewrite Hk. discriminate.
Qed.

(** X11. On a text of ASCII characters that neither starts nor ends with
    a space, mode 'mixed' emits exactly the quads and pen positions of
    mode 'default': every space has ASCII neighbours on both sides, and no
    padding or tracking applies. *)
Theorem mixed_equals_default_on_ascii :
  emitAll text (withMode o "mixed") asciiPack glyphMap quotes
  = emitAll text (withMode o "default") asciiPack glyphMap quotes.
Proof. unfold emitAll. apply mixed_default_prefix. lia. Qed.
End AsciiText.

Lemma mixed_equals_default_on_ascii_witness :
  Forall (fun u => u <= 0x7F) [0x41; 32; 0x42]
  /\ emitAll [0x41; 32; 0x42] (withMode defaultOpts "mixed") sampleAscii ∅ ∅
     = emitAll [0x41; 32; 0x42] (withMode defaultOpts "default") sampleAscii ∅ ∅.
Proof.
  assert (Hascii : Forall (fun u => u <= 0x7F) [0x41; 32; 0x42])
    by (repeat constructor; lia).
  split; [exact Hascii|].
  apply (mixed_equals_default_on_ascii [0x41; 32; 0x42] defaultOpts sampleAscii ∅ ∅ Hascii);
    discriminate.
Defined.

(** ** Bounds on the metrics *)

Lemma length_fold_store {A} (f : Z -> A) ks (a : list A) :
  length (fold_left (fun acc i => jsStore acc i (f i)) ks a) = length a.
Proof.
  revert a. induction ks as [|k ks IH]; intros a; simpl; [reflexivity|].
  rewrite IH. apply length_jsStore.
Qed.

Lemma length_buildAdvance sc tileW tileH : length (_buildAdvance sc tileW tileH) = 256%nat.
Proof. unfold _buildAdvance. rewrite length_fold_store. apply length_replicate. Qed.

(** X12. The advance table always has 256 entries; with a tile width
    below the 16-bit limit every entry is either the tile width (empty
    tile) or at least 2, and never more than the tile width plus one; an
    index outside 0..255 has no entry. *)
Theorem buildAdvance_bounds sc tileW tileH :
  0 < tileW < 65535 ->
  length (_buildAdvance sc tileW tileH) = 256%nat
  /\ (forall idx, 0 <= idx <= 255 ->
        exists a, jsIndex (_buildAdvance sc tileW tileH) idx = Some a
                  /\ Z.of_N a <= tileW + 1
                  /\ (Z.of_N a = tileW \/ 2 <= Z.of_N a))
  /\ (forall idx, idx < 0 \/ 255 < idx ->
        jsIndex (_buildAdvance sc tileW tileH) idx = None).
Proof.
  intros HW. split; [apply length_buildAdvance|]. split.
  - intros idx Hidx. rewrite buildAdvance_lookup by exact Hidx. eexists. split; [reflexivity|].
    destruct (tileAdvance_cases sc tileW tileH idx) as [[_ ->]|(L & R & HL & HR & HLR & ->)];
      [lia| |].
    + rewrite toUint16_small by lia. rewrite Z2N.id by lia. lia.
    + destruct HL as (HLr & _), HR as (HRr & _). unfold tileX1 in *.
      rewrite toUint16_small by lia. rewrite Z2N.id by lia. lia.
  - intros idx Hidx. unfold jsIndex. destruct (Z.ltb_spec idx 0); [reflexivity|].
    apply lookup_ge_None. rewrite length_buildAdvance. lia.
Qed.

Lemma buildAdvance_bounds_witness :
  exists a, jsIndex (_buildAdvance sampleScan 8 8) 0 = Some a /\ Z.of_N a <= 9.
Proof.
  destruct (proj1 (proj2 (buildAdvance_bounds sampleScan 8 8 ltac:(lia))) 0 ltac:(lia))
    as (a & Ha & Hle & _).
  exists a. split; [exact Ha|exact Hle].
Defined.





(** ** The further properties at concrete inputs *)

Lemma glyph_spacing_witness :
  let text := [0xAC00; 0xAC01] in
  let o := withMode defaultOpts "glyph" in
  codePointAt text 1 = Some 0xAC01
  /\ exists q,
       spans (penAfter text o sampleAscii ∅ ∅ 2) = spans (penAfter text o sampleAscii ∅ ∅ 1) ++ [q]
       /\ q_x q = penX (penAfter text o sampleAscii ∅ ∅ 1) + 4.
Proof.
  cbv zeta. split; [reflexivity|].
  exact (glyph_spacing [0xAC00; 0xAC01] (withMode defaultOpts "glyph") sampleAscii ∅ ∅
           1 0xAC01 eq_refl ltac:(discriminate)).
Defined.

Lemma forced_mode_quads_witness :
  let text := [0x41] in
  let o := withMode defaultOpts "glyph" in
  exists q,
    q ∈ spans (emitAll text o sampleAscii ∅ ∅)
    /\ q_w q = 32 /\ q_h q = 32.
Proof.
  cbv zeta.
  assert (Hin : {| q_pack := FromAtlas sampleAscii; q_x := 0; q_y := 7; q_w := 32; q_h := 32;
                   q_u0 := (inject_Z (codeLo 65 mod grid * 16) / inject_Z 128)%Q;
                   q_v0 := (inject_Z (codeLo 65 / grid * 16) / inject_Z 128)%Q;
                   q_u1 := (inject_Z ((codeLo 65 mod grid + 1) * 16) / inject_Z 128)%Q;
                   q_v1 := (inject_Z ((codeLo 65 / grid + 1) * 16) / inject_Z 128)%Q |}
                ∈ spans (emitAll [0x41] (withMode defaultOpts "glyph") sampleAscii ∅ ∅))
    by (apply list_elem_of_here).
  eexists. split; [exact Hin|].
  destruct (proj2 (forced_mode_quads [0x41] (withMode defaultOpts "glyph") sampleAscii ∅ ∅
                     _ Hin) eq_refl) as (Hw & Hh & _).
  split; [exact Hw|exact Hh].
Defined.

Lemma wide_glyph_uv_witness :
  let text := [0xAC41] in
  let o := withMode defaultOpts "glyph" in
  let glyphMap : gmap string pack := {["AC"%string := sampleGlyph 4]} in
  exists q,
    spans (penAfter text o sampleAscii glyphMap ∅ 1)
    = spans (penAfter text o sampleAscii glyphMap ∅ 0) ++ [q]
    /\ (q_u1 q - q_u0 q == 1 # 16)%Q.
Proof.
  cbv zeta.
  destruct (wide_glyph_uv [0xAC41] (withMode defaultOpts "glyph") sampleAscii
              {["AC"%string := sampleGlyph 4]} ∅ 0 0xAC41
              eq_refl ltac:(discriminate) eq_refl eq_refl eq_refl)
    as (q & Hsp & _ & Hu & _).
  exists q. split; [exact Hsp|exact Hu].
Defined.
